(** * Verification of [src/parsers/md.py]

    A shallow embedding of the Markdown <-> JSON quiz converter and the
    properties of it that the specification states.

    Modelling conventions.
    - A Python [str] is a list of characters; a character is a code point
      below 256 ([ascii]).
    - A Python exception is a value of [exn]; a function that may raise
      returns a [result].
    - The question [dict] is a record; a key that may be missing or hold
      [None] is an [option] field.  The metadata [dict] keeps insertion
      order, so it is an association list with unique keys.
    - The float grade [1 / (n * 1.0)] is modelled by the rational it rounds,
      [1 # n]; the division raises [ZeroDivisionError] when [n = 0]. *)

From Stdlib Require Import Ascii String List Bool Arith Lia QArith.
Import ListNotations.
Close Scope Q_scope.
Close Scope Z_scope.

(** ** Python strings *)

Module PyStr.

Definition str := list ascii.

(** A string literal. *)
Definition lit (s : string) : str := list_ascii_of_string s.
Arguments lit : simpl never.

Definition nl : ascii := ascii_of_nat 10.
Definition dquote : ascii := ascii_of_nat 34.

Definition is_nl (c : ascii) : bool := Ascii.eqb c nl.

(** [str.isspace] on one code point below 256: TAB..CR, FS..US, space,
    NEL and NBSP. *)
Definition is_space (c : ascii) : bool :=
  let n := nat_of_ascii c in
  ((9 <=? n) && (n <=? 13)) || ((28 <=? n) && (n <=? 32))
  || (n =? 133) || (n =? 160).

Definition str_eqb (a b : str) : bool :=
  if list_eq_dec ascii_dec a b then true else false.

(** [s.startswith(p)] *)
Fixpoint startswith (p s : str) : bool :=
  match p, s with
  | [], _ => true
  | _ :: _, [] => false
  | a :: p', b :: s' => Ascii.eqb a b && startswith p' s'
  end.

(** [s.lstrip(chars)], [s.rstrip(chars)] and [s.strip(chars)], the set of
    characters given as a predicate. *)
Fixpoint lstrip_by (f : ascii -> bool) (s : str) : str :=
  match s with
  | [] => []
  | c :: s' => if f c then lstrip_by f s' else s
  end.

Definition rstrip_by (f : ascii -> bool) (s : str) : str :=
  rev (lstrip_by f (rev s)).

Definition strip_by (f : ascii -> bool) (s : str) : str :=
  rstrip_by f (lstrip_by f s).

(** [s.rstrip()] removes trailing white space. *)
Definition rstrip (s : str) : str := rstrip_by is_space s.

(** [sep.join(parts)] *)
Fixpoint join (sep : str) (parts : list str) : str :=
  match parts with
  | [] => []
  | [p] => p
  | p :: ps => p ++ sep ++ join sep ps
  end.

(** Prepends a character to the first piece of a split. *)
Definition cons_head (c : ascii) (ps : list str) : list str :=
  match ps with
  | [] => [[c]]
  | p :: ps' => (c :: p) :: ps'
  end.

(** [s.split(sep)] for a non-empty [sep]: the text is scanned from the left
    and cut at every occurrence of [sep] that does not overlap the one
    before.  [skip] counts the characters of a matched separator that are
    still to be passed over. *)
Fixpoint split_skip (sep : str) (skip : nat) (s : str) : list str :=
  match s with
  | [] => [[]]
  | c :: s' =>
      match skip with
      | S k => split_skip sep k s'
      | O =>
          if startswith sep s
          then [] :: split_skip sep (length sep - 1) s'
          else cons_head c (split_skip sep 0 s')
      end
  end.

Definition split (sep s : str) : list str := split_skip sep 0 s.

(** [re.sub(r'\n+', '\n', s)]: every maximal run of newlines becomes one
    newline, that is, a newline followed by a newline is dropped. *)
Fixpoint collapse_newlines (s : str) : str :=
  match s with
  | [] => []
  | c :: s' =>
      if is_nl c && match s' with d :: _ => is_nl d | [] => false end
      then collapse_newlines s'
      else c :: collapse_newlines s'
  end.

(** [s[n:]] *)
Definition slice_from (n : nat) (s : str) : str := skipn n s.

(** Does [sep] occur in [s]? *)
Fixpoint occurs (sep s : str) : bool :=
  match s with
  | [] => startswith sep []
  | _ :: s' => startswith sep s || occurs sep s'
  end.

End PyStr.

Import PyStr.

Declare Scope pystr_scope.
Delimit Scope pystr_scope with py.
Notation "$ s" := (lit s%string) (at level 1, format "$ s") : pystr_scope.
Open Scope pystr_scope.
Open Scope list_scope.

(** ** Exceptions *)

Inductive exn : Type :=
| SystemExit (msg : str)      (* [sys.exit(msg)] *)
| IndexError
| KeyError
| ZeroDivisionError.

Inductive result (A : Type) : Type :=
| Ok (a : A)
| Raise (e : exn).

Arguments Ok {A} a.
Arguments Raise {A} e.

Definition bind {A B : Type} (r : result A) (k : A -> result B) : result B :=
  match r with
  | Ok a => k a
  | Raise e => Raise e
  end.

Notation "x <- r ;; k" := (bind r (fun x => k))
  (at level 61, r at next level, right associativity).

(** The three messages of [check_md_q], under the names the specification
    gives to the error kinds. *)
Definition MissingTitle (first_line : str) : exn :=
  SystemExit ($"Error: Question starting with " ++ [dquote] ++ first_line
              ++ [dquote] ++ $" does not have a title.").

Definition MissingRequiredSection (q_title : str) : exn :=
  SystemExit ($"Error: No question text or answer set for question "
              ++ [dquote] ++ q_title ++ [dquote] ++ $".").

Definition NoCorrectAnswer (q_title : str) : exn :=
  SystemExit ($"Error: No correct answer set for question "
              ++ [dquote] ++ q_title ++ [dquote] ++ $".").

(** [l[i]] on a list and [s[0]] on a string. *)
Definition list_index {A : Type} (l : list A) (i : nat) : result A :=
  match nth_error l i with
  | Some a => Ok a
  | None => Raise IndexError
  end.

Definition char0 (s : str) : result ascii :=
  match s with
  | [] => Raise IndexError
  | c :: _ => Ok c
  end.

(** [for x in xs: body], the loop state threaded through, stopping at the
    first exception. *)
Fixpoint for_each {A S : Type} (body : S -> A -> result S) (xs : list A)
    (st : S) : result S :=
  match xs with
  | [] => Ok st
  | x :: xs' => st' <- body st x ;; for_each body xs' st'
  end.

(** [list(map(f, xs))] for an [f] that may raise. *)
Fixpoint map_result {A B : Type} (f : A -> result B) (xs : list A)
    : result (list B) :=
  match xs with
  | [] => Ok []
  | x :: xs' => y <- f x ;; ys <- map_result f xs' ;; Ok (y :: ys)
  end.

(** ** Data model *)

Record Answer : Type := mkAnswer {
  a_statement : str;
  correct : bool;
  grade : Q
}.

(** The metadata [dict]: tags in insertion order, each with its values. *)
Definition meta_dict := list (str * list str).

Record Question : Type := mkQuestion {
  name : str;
  statement : str;
  feedback : option str;        (* [None]: key missing, or Python [None] *)
  metadata : option meta_dict;  (* [None]: key missing *)
  answers : list Answer;
  correct_answers_no : nat
}.

Definition set_name (q : Question) (v : str) : Question :=
  mkQuestion v (statement q) (feedback q) (metadata q) (answers q)
             (correct_answers_no q).
Definition set_statement (q : Question) (v : str) : Question :=
  mkQuestion (name q) v (feedback q) (metadata q) (answers q)
             (correct_answers_no q).
Definition set_feedback (q : Question) (v : str) : Question :=
  mkQuestion (name q) (statement q) (Some v) (metadata q) (answers q)
             (correct_answers_no q).
Definition set_metadata (q : Question) (d : meta_dict) : Question :=
  mkQuestion (name q) (statement q) (feedback q) (Some d) (answers q)
             (correct_answers_no q).
Definition set_correct_answers_no (q : Question) (n : nat) : Question :=
  mkQuestion (name q) (statement q) (feedback q) (metadata q) (answers q) n.
Definition append_answer (q : Question) (a : Answer) : Question :=
  mkQuestion (name q) (statement q) (feedback q) (metadata q)
             (answers q ++ [a]) (correct_answers_no q).

(** [d.get(key)], [key in d] and [d[key] = v]; a new key goes last. *)
Fixpoint dict_get (d : meta_dict) (key : str) : option (list str) :=
  match d with
  | [] => None
  | (k, v) :: d' => if str_eqb k key then Some v else dict_get d' key
  end.

Definition dict_mem (d : meta_dict) (key : str) : bool :=
  match dict_get d key with Some _ => true | None => false end.

Fixpoint dict_set (d : meta_dict) (key : str) (v : list str) : meta_dict :=
  match d with
  | [] => [(key, v)]
  | (k, w) :: d' =>
      if str_eqb k key then (k, v) :: d' else (k, w) :: dict_set d' key v
  end.

(** What [get_meta] returns: a string, or the list of a tag's values. *)
Inductive meta_value : Type :=
| MetaStr (s : str)
| MetaList (l : list str).

(** ** The metadata accessor *)

(** [get_meta(question_dict, key)]: the value returned, and the dictionary
    as the call leaves it. *)
Definition get_meta (question_dict : Question) (key : str)
    : result (meta_value * Question) :=
  match metadata question_dict with
  | None => Raise KeyError
  | Some md =>
      match dict_get md key with
      | None => Ok (MetaStr [], question_dict)
      | Some [v] => Ok (MetaStr v, question_dict)
      | Some vs => Ok (MetaList vs, question_dict)
      end
  end.

(** [set_meta(question_dict, key, value)] *)
Definition set_meta (question_dict : Question) (key value : str)
    : result Question :=
  match metadata question_dict with
  | None => Raise KeyError
  | Some md =>
      let md := if dict_mem md key then md else dict_set md key [] in
      match dict_get md key with
      | None => Raise KeyError
      | Some vs => Ok (set_metadata question_dict (dict_set md key (vs ++ [value])))
      end
  end.

(** ** The block validator *)

(** [s.split('\n')[0]]; a split is never empty. *)
Definition first_line (s : str) : str := hd [] (split [nl] s).

(** [s.split('\n')[1:]] *)
Definition rest_lines (s : str) : list str := tl (split [nl] s).

Definition is_plus (c : ascii) : bool := Ascii.eqb c "+"%char.
Definition is_minus (c : ascii) : bool := Ascii.eqb c "-"%char.

(** [len([ans for ans in q_ans if ans[0] == '+'])] *)
Fixpoint count_correct (q_ans : list str) : result nat :=
  match q_ans with
  | [] => Ok 0
  | ans :: rest =>
      c <- char0 ans ;;
      n <- count_correct rest ;;
      Ok (if is_plus c then S n else n)
  end.

Definition check_md_q (md_q : str) : result unit :=
  let q_title := first_line md_q in
  if negb (startswith $"# " q_title) then Raise (MissingTitle q_title) else
  let q_title := slice_from 2 q_title in
  let q_fields := split $"## " md_q in
  let field_names := map first_line (tl q_fields) in
  if negb (existsb (str_eqb $"Question Text") field_names)
     || negb (existsb (str_eqb $"Question Answers") field_names)
  then Raise (MissingRequiredSection q_title) else
  q_ans <- list_index
             (map (fun s => rest_lines (rstrip_by is_nl s))
                  (filter (startswith $"Question Answers") q_fields)) 0 ;;
  correct_answers_no <- count_correct q_ans ;;
  if correct_answers_no <? 1 then Raise (NoCorrectAnswer q_title) else
  Ok tt.

(** ** Text to record *)

(** [1 / (n * 1.0)] *)
Definition one_over (n : nat) : result Q :=
  match n with
  | O => Raise ZeroDivisionError
  | S _ => Ok (1 # Pos.of_nat n)%Q
  end.

(** The body of the loop over the answer lines. *)
Definition add_answer (grade : Q) (question : Question) (ans : str)
    : result Question :=
  c <- char0 ans ;;
  if is_plus c then
    Ok (append_answer question (mkAnswer (slice_from 2 ans) true grade))
  else if is_minus c then
    if 1 <? correct_answers_no question then
      Ok (append_answer question (mkAnswer (slice_from 2 ans) false (- grade)%Q))
    else
      Ok (append_answer question (mkAnswer (slice_from 2 ans) false 0%Q))
  else Ok question.

(** The body of the loop over the metadata lines. *)
Definition add_meta (question : Question) (meta : str) : result Question :=
  let tag_pair := split $"=" meta in
  tag <- list_index tag_pair 0 ;;
  value <- list_index tag_pair 1 ;;
  set_meta question tag value.

(** The body of the loop over the sections. *)
Definition parse_field (question : Question) (field : str)
    : result Question :=
  let field_name := first_line field in
  if str_eqb field_name $"Question Text" then
    Ok (set_statement question (join [nl] (rest_lines field)))
  else if str_eqb field_name $"Question Answers" then
    let q_ans := rest_lines (rstrip_by is_nl field) in
    n <- count_correct q_ans ;;
    let question := set_correct_answers_no question n in
    grade <- one_over (correct_answers_no question) ;;
    for_each (add_answer grade) q_ans question
  else if str_eqb field_name $"Feedback" then
    Ok (set_feedback question (join [nl] (rest_lines field)))
  else if str_eqb field_name $"Metadata" then
    let metas := rest_lines (rstrip_by is_nl field) in
    for_each add_meta metas question
  else Ok question.

(** The dictionary [md_to_json] starts from. *)
Definition new_question : Question :=
  mkQuestion [] [] (Some []) (Some []) [] 0.

(** The two normalising assignments to [md_copy]. *)
Definition normalise (md_q : str) : str :=
  let md_copy := rstrip md_q in
  strip_by is_nl (collapse_newlines md_copy).

(** [md_to_json] up to the dictionary it hands to [json.dumps]. *)
Definition md_to_json_dict (md_q : str) : result Question :=
  let md_copy := normalise md_q in
  _ <- check_md_q md_copy ;;
  let question := new_question in
  let q_title := slice_from 2 (first_line md_copy) in
  let question := set_name question q_title in
  let q_fiels := split $"## " md_copy in
  for_each parse_field q_fiels question.

Section Converter.

(** [json.dumps(_, indent=4)] and the [str] of a list of strings belong to
    Python, not to this program: they are parameters. *)
Variable json_dumps : Question -> str.
Variable str_of_list : list str -> str.

Definition md_to_json (md_q : str) : result str :=
  question <- md_to_json_dict md_q ;;
  Ok (json_dumps question).

(** ** Record to text *)

(** [str(v)] of what [get_meta] returned. *)
Definition str_of_meta (v : meta_value) : str :=
  match v with
  | MetaStr s => s
  | MetaList l => str_of_list l
  end.

Definition json_to_md (json_obj : Question) : result str :=
  let json_q := json_obj in
  let md_q := [] in
  let md_q := md_q ++ ($"# " ++ name json_q ++ [nl; nl]) in
  let md_q := md_q ++ ($"## Question Text" ++ [nl; nl]) in
  let md_q := md_q ++ (statement json_q ++ [nl; nl]) in
  let md_q := md_q ++ ($"## Question Answers" ++ [nl; nl]) in
  let md_q :=
    fold_left
      (fun md_q answer =>
         let ans := a_statement answer in
         let grade := if correct answer then $"+" else $"-" in
         md_q ++ (grade ++ $" " ++ ans ++ [nl; nl]))
      (answers json_q) md_q in
  let md_q :=
    match feedback json_q with
    | Some fb => (md_q ++ ($"## Feedback" ++ [nl; nl])) ++ (fb ++ [nl; nl])
    | None => md_q
    end in
  md_q <-
    match metadata json_q with
    | Some md =>
        for_each
          (fun md_q json_tag =>
             v <- get_meta json_q json_tag ;;
             Ok (md_q ++ (json_tag ++ $"=" ++ str_of_meta (fst v) ++ [nl; nl])))
          (map fst md) (md_q ++ ($"## Metadata" ++ [nl; nl]))
    | None => Ok md_q
    end ;;
  Ok (md_q ++ [nl]).

(** ** The pipeline drivers *)

Definition quiz_md_to_json (file_content : str) : result str :=
  let question_arr := split [nl; nl; nl] file_content in
  question_arr_json <- map_result md_to_json question_arr ;;
  Ok ($"[" ++ join $"," question_arr_json ++ $"]").

Definition quiz_json_to_md (json_arr : list Question) : result (list str) :=
  map_result json_to_md json_arr.

End Converter.

(** * Specification vocabulary *)

(** A text given line by line. *)
Definition text_lines (ls : list str) : str := join [nl] ls.

(** A record whose metadata came from [set_meta] calls only. *)
Inductive populated : Question -> Prop :=
| populated_new (q : Question) : metadata q = Some [] -> populated q
| populated_set (q q' : Question) (key value : str) :
    populated q -> set_meta q key value = Ok q' -> populated q'.

(** The values stored under a tag; none when the tag is absent. *)
Definition dict_values (d : meta_dict) (key : str) : list str :=
  match dict_get d key with
  | Some vs => vs
  | None => []
  end.

Definition meta_values (q : Question) (key : str) : list str :=
  match metadata q with
  | Some d => dict_values d key
  | None => []
  end.

(** Blocks used as examples; their lines are joined by single newlines. *)

(** A section whose name only begins with [Question Answers] comes before
    the real one, which marks no answer as correct. *)
Definition prefix_section_block : str :=
  text_lines [$"# T"; $"## Question Text"; $"foo";
              $"## Question Answers (draft)"; $"+ a";
              $"## Question Answers"; $"- b"].

(** Two sections named [Question Answers], the second with no correct
    answer. *)
Definition second_section_block : str :=
  text_lines [$"# T"; $"## Question Text"; $"foo";
              $"## Question Answers"; $"+ a";
              $"## Question Answers"; $"- b"].

(** Two sections named [Question Answers]. *)
Definition two_answer_sections_block : str :=
  text_lines [$"# T"; $"## Question Text"; $"foo";
              $"## Question Answers"; $"+ a"; $"+ c"; $"- d";
              $"## Question Answers"; $"+ b"].

Definition repeated_tag_block : str :=
  text_lines [$"# T"; $"## Question Text"; $"foo";
              $"## Question Answers"; $"+ a";
              $"## Metadata"; $"tag=a"; $"tag=b"].

Definition single_tag_block : str :=
  text_lines [$"# T"; $"## Question Text"; $"foo";
              $"## Question Answers"; $"+ a";
              $"## Metadata"; $"tag=x"].

Definition question_block (title : str) : str :=
  text_lines [$"# " ++ title; $"## Question Text"; $"foo";
              $"## Question Answers"; $"+ a"; $"- b"].

(** The names of the sections of a block, as [check_md_q] computes them. *)
Definition section_names (md_q : str) : list str :=
  map first_line (tl (split $"## " md_q)).

(** The text before the first [c], and the text after it (empty when there
    is no [c]). *)
Fixpoint before_char (c : ascii) (s : str) : str :=
  match s with
  | [] => []
  | d :: s' => if Ascii.eqb c d then [] else d :: before_char c s'
  end.

Fixpoint after_char (c : ascii) (s : str) : str :=
  match s with
  | [] => []
  | d :: s' => if Ascii.eqb c d then s' else after_char c s'
  end.

Definition has_char (c : ascii) (s : str) : bool := existsb (Ascii.eqb c) s.

Definition equals_sign : ascii := "="%char.

(** The tag of a metadata line: the text before its first [=].  Its value:
    the text between its first [=] and its second. *)
Definition meta_tag_of (line : str) : str := before_char equals_sign line.

Definition meta_value_of (line : str) : str :=
  before_char equals_sign (after_char equals_sign line).

Definition value_with_equals_block : str :=
  text_lines [$"# T"; $"## Question Text"; $"foo";
              $"## Question Answers"; $"+ a";
              $"## Metadata"; $"a=b=c"].

Definition three_question_document : str :=
  join [nl; nl; nl]
       [question_block $"A"; question_block $"B"; question_block $"C"].

Definition two_values_record : Question :=
  set_metadata new_question [($"tag", [$"a"; $"b"])].

(** The sections [md_to_json] treats as answers: those named exactly
    [Question Answers]. *)
Definition is_answers_section (field : str) : bool :=
  str_eqb (first_line field) $"Question Answers".

Definition answer_sections (md_q : str) : list str :=
  filter is_answers_section (split $"## " (normalise md_q)).

(** The number of answers marked correct. *)
Definition correct_count (l : list Answer) : nat := length (filter correct l).

(** The grade invariant for one answer of a question with [n] correct
    answers. *)
Definition grade_rule (n : nat) (a : Answer) : Prop :=
  (correct a = true -> grade a = (1 # Pos.of_nat n)%Q)
  /\ (correct a = false -> 1 < n -> grade a = (- (1 # Pos.of_nat n))%Q)
  /\ (correct a = false -> n = 1 -> grade a = 0%Q).

(** The answers the loop over the answer lines appends, [n] being the
    [correct_answers_no] of the question. *)
Definition parsed_answer (grade : Q) (n : nat) (ans : str) : list Answer :=
  match ans with
  | [] => []
  | c :: _ =>
      if is_plus c then [mkAnswer (slice_from 2 ans) true grade]
      else if is_minus c then
        [mkAnswer (slice_from 2 ans) false
                  (if 1 <? n then (- grade)%Q else 0%Q)]
      else []
  end.

Definition parsed_answers (grade : Q) (n : nat) (q_ans : list str)
    : list Answer :=
  flat_map (parsed_answer grade n) q_ans.

(** A block whose answers section has a line that is not an answer. *)
Definition stray_line_block : str :=
  text_lines [$"# T"; $"## Question Text"; $"foo";
              $"## Question Answers"; $"+ a"; $"note"; $"- b"].

Definition stray_line_section : str :=
  text_lines [$"Question Answers"; $"+ a"; $"note"; $"- b"].

(** ** The shape of a serialised record *)

(** Lines each followed by a blank line, as [json_to_md] writes them, and
    lines each preceded by one newline, as normalisation leaves them. *)
Definition blocks (ls : list str) : str :=
  concat (map (fun l => l ++ [nl; nl]) ls).

Definition nl_lines (ls : list str) : str :=
  concat (map (fun l => nl :: l) ls).

Definition nonempty (l : str) : bool :=
  match l with
  | [] => false
  | _ :: _ => true
  end.

(** A text without newline. *)
Definition single_line (s : str) : Prop := has_char nl s = false.

(** What normalisation leaves of a list of lines written with blank lines
    between them: the lines of white space at the end are gone, the last
    line before them has lost its trailing white space, and the empty lines
    before it are gone. *)
Fixpoint tidy (ls : list str) : list str :=
  match ls with
  | [] => []
  | l :: rest =>
      match tidy rest with
      | [] => match rstrip l with [] => [] | _ :: _ => [rstrip l] end
      | _ :: _ => if nonempty l then l :: tidy rest else tidy rest
      end
  end.

(** A text in which the section marker does not occur. *)
Definition marker_free (s : str) : Prop := occurs $"## " s = false.

(** A line is a heading, a marker followed by a marker-free name, or is
    marker-free. *)
Definition line_ok (l : str) : Prop :=
  if startswith $"## " l then marker_free (slice_from 3 l) else marker_free l.

(** The pieces [split('## ')] cuts a text into, read off its lines: [cur]
    is the piece being read. *)
Fixpoint fields_of (cur : str) (ls : list str) : list str :=
  match ls with
  | [] => [cur]
  | l :: rest =>
      if startswith $"## " l
      then (cur ++ [nl]) :: fields_of (slice_from 3 l) rest
      else fields_of (cur ++ nl :: l) rest
  end.

(** A section after the answers that [md_to_json] reads without raising:
    a feedback section, or a metadata section whose lines all have an
    equals sign. *)
Definition tail_ok (field : str) : Prop :=
  first_line field = $"Feedback"
  \/ (first_line field = $"Metadata"
      /\ Forall (fun m => has_char equals_sign m = true)
                (rest_lines (rstrip_by is_nl field))).

(** The question with more answers. *)
Definition with_answers (q : Question) (l : list Answer) : Question :=
  mkQuestion (name q) (statement q) (feedback q) (metadata q)
             (answers q ++ l) (correct_answers_no q).

(** A section of a normalised text: its name and its lines.  Its heading
    line is the marker followed by the name. *)
Definition section_lines (s : str * list str) : list str :=
  ($"## " ++ fst s) :: snd s.

Definition sections_lines (secs : list (str * list str)) : list str :=
  flat_map section_lines secs.

(** The pieces [split('## ')] cuts a text into, read off its sections. *)
Fixpoint fields_from (cur : str) (secs : list (str * list str)) : list str :=
  match secs with
  | [] => [cur]
  | s :: rest => (cur ++ [nl]) :: fields_from (fst s ++ nl_lines (snd s)) rest
  end.

(** The newline that ends a field when another section follows. *)
Definition next_suffix (secs : list (str * list str)) : str :=
  match secs with
  | [] => []
  | _ :: _ => [nl]
  end.

(** A line of a section: not empty, no newline, no marker. *)
Definition content_line (l : str) : Prop :=
  single_line l /\ marker_free l /\ l <> [].

(** A section after the answers. *)
Definition section_ok (s : str * list str) : Prop :=
  (fst s = $"Feedback"
   \/ (fst s = $"Metadata"
       /\ Forall (fun m => has_char equals_sign m = true) (snd s)))
  /\ Forall content_line (snd s).

(** The normalised text of a question: title, text, answers, and the
    sections after them. *)
Definition normal_text (nm : str) (text_lines' answer_lines : list str)
    (secs : list (str * list str)) : str :=
  ($"# " ++ nm)
  ++ nl_lines (sections_lines (($"Question Text", text_lines')
                               :: ($"Question Answers", answer_lines)
                               :: secs)).

(** ** Well-formed records *)

(** The line [json_to_md] writes for an answer. *)
Definition answer_line (a : Answer) : str :=
  (if correct a then $"+" else $"-") ++ $" " ++ a_statement a.

(** The text [json_to_md] writes after a tag: [str(get_meta(json_q, tag))],
    and the whole metadata line. *)
Definition meta_text (str_of_list : list str -> str) (json_q : Question)
    (json_tag : str) : str :=
  match get_meta json_q json_tag with
  | Ok v => str_of_meta str_of_list (fst v)
  | Raise _ => []
  end.

Definition meta_line (str_of_list : list str -> str) (json_q : Question)
    (json_tag : str) : str :=
  json_tag ++ $"=" ++ meta_text str_of_list json_q json_tag.

(** The lines of a serialised record after its title. *)
Definition head_lines (r : Question) : list str :=
  [$"## Question Text"; statement r; $"## Question Answers"]
  ++ map answer_line (answers r).

Definition feedback_lines (r : Question) : list str :=
  match feedback r with
  | Some fb => [$"## Feedback"; fb]
  | None => []
  end.

Definition metadata_lines (str_of_list : list str -> str) (r : Question)
    : list str :=
  match metadata r with
  | Some md => $"## Metadata" :: map (meta_line str_of_list r) (map fst md)
  | None => []
  end.

Definition body_lines (str_of_list : list str -> str) (r : Question)
    : list str :=
  head_lines r ++ feedback_lines r ++ metadata_lines str_of_list r.

(** A text of one line in which the section marker does not occur. *)
Definition plain (s : str) : Prop := single_line s /\ marker_free s.

(** A text that does not end in white space. *)
Definition no_trailing_space (s : str) : Prop := rstrip s = s.

Definition last_statement (l : list Answer) : str :=
  match rev l with
  | a :: _ => a_statement a
  | [] => []
  end.

(** The records the round trip is proved for.  The name, the statement, the
    feedback, the answer statements and the metadata lines as written hold
    no newline and no section marker; the count is the number of answers
    marked correct and is at least one; the grades follow the count; and
    when the record has no metadata, the text written last, the feedback or
    else the last answer statement, does not end in white space. *)
Record well_formed (str_of_list : list str -> str) (r : Question) : Prop := {
  wf_name : plain (name r);
  wf_statement : plain (statement r);
  wf_feedback : forall fb, feedback r = Some fb -> plain fb;
  wf_answers : Forall (fun a => plain (a_statement a)) (answers r);
  wf_metadata :
    forall md, metadata r = Some md ->
    Forall (fun tag => plain (meta_line str_of_list r tag)) (map fst md);
  wf_count : correct_answers_no r = correct_count (answers r);
  wf_correct : 1 <= correct_answers_no r;
  wf_grades : Forall (grade_rule (correct_answers_no r)) (answers r);
  wf_end :
    metadata r = None ->
    match feedback r with
    | Some fb => no_trailing_space fb
    | None => no_trailing_space (last_statement (answers r))
    end
}.

(** Well-formedness as the round-trip claim words it: the name, the
    statement, the feedback and the answer statements are single lines that
    do not begin with a title or section marker, the count is the number of
    answers marked correct and is at least one, and the grades follow it. *)
Definition stated_line (s : str) : Prop :=
  single_line s
  /\ startswith $"# " s = false /\ startswith $"## " s = false.

Definition stated_well_formed (r : Question) : Prop :=
  stated_line (name r)
  /\ stated_line (statement r)
  /\ (forall fb, feedback r = Some fb -> stated_line fb)
  /\ Forall (fun a => stated_line (a_statement a)) (answers r)
  /\ correct_answers_no r = correct_count (answers r)
  /\ 1 <= correct_answers_no r
  /\ Forall (grade_rule (correct_answers_no r)) (answers r).

Definition two_answers : list Answer :=
  [mkAnswer $"a" true 1%Q; mkAnswer $"b" false 0%Q].

(** A record that round-trips in name, answers and feedback. *)
Definition sample_record : Question :=
  mkQuestion $"Q" $"S" (Some $"F") None two_answers 1.

(** A record with a section marker inside its name. *)
Definition marker_in_name_record : Question :=
  mkQuestion $"x ## Question Answers" $"S" (Some $"F") None two_answers 1.

(** A record whose feedback ends in a space. *)
Definition trailing_space_record : Question :=
  mkQuestion $"Q" $"S" (Some $"F ") None two_answers 1.

(** A record with a metadata value that holds an equals sign. *)
Definition equals_in_value_record : Question :=
  mkQuestion $"Q" $"S" (Some $"F") (Some [($"url", [$"http://x/?a=b"])])
             two_answers 1.

(** [str] of a list is not needed by records without metadata. *)
Definition no_list_text (l : list str) : str := [].

(** ** Vocabulary of the further properties *)

(** The tags of a record, in the order of its metadata dictionary. *)
Definition meta_tags (q : Question) : list str :=
  match metadata q with
  | Some d => map fst d
  | None => []
  end.

(** The tags of [tags] that are not in [seen], each once, in the order of
    their first occurrence. *)
Fixpoint new_tags (seen tags : list str) : list str :=
  match tags with
  | [] => []
  | t :: ts =>
      if existsb (str_eqb t) seen then new_tags seen ts
      else t :: new_tags (seen ++ [t]) ts
  end.

(** A document whose second block has no title and whose third block has
    no sections. *)
Definition bad_blocks_document : str :=
  join [nl; nl; nl] [question_block $"A"; $"oops"; $"# no sections"].

(** The text [json_to_md] writes for a record. *)
Definition serialised (str_of_list : list str -> str) (r : Question) : str :=
  ($"# " ++ name r) ++ nl :: nl :: blocks (body_lines str_of_list r) ++ [nl].

(** What every section leaves in place: the name, and the presence of the
    feedback and of the metadata. *)
Definition shape_kept (nm : str) (q : Question) : Prop :=
  name q = nm
  /\ (exists fb, feedback q = Some fb)
  /\ (exists md, metadata q = Some md).

(** [field] is the last of [fields] whose first line is [nm]. *)
Definition last_section (nm : str) (fields : list str) (field : str) : Prop :=
  exists pre post,
    fields = pre ++ field :: post
    /\ first_line field = nm
    /\ Forall (fun f => first_line f <> nm) post.

(** * Properties *)

(** ** Strings *)

Lemma str_eqb_eq (a b : str) : str_eqb a b = true <-> a = b.
Proof.
  unfold str_eqb. destruct (list_eq_dec ascii_dec a b); split; congruence.
Qed.

Lemma str_eqb_refl (a : str) : str_eqb a a = true.
Proof. now apply str_eqb_eq. Qed.

Lemma str_eqb_neq (a b : str) : str_eqb a b = false <-> a <> b.
Proof.
  unfold str_eqb. destruct (list_eq_dec ascii_dec a b); split; congruence.
Qed.

Lemma startswith_app (p r : str) : startswith p (p ++ r) = true.
Proof.
  induction p as [|a p IH]; simpl; [reflexivity|].
  now rewrite Ascii.eqb_refl, IH.
Qed.

Lemma startswith_inv (p s : str) :
  startswith p s = true -> s = p ++ skipn (length p) s.
Proof.
  revert s. induction p as [|a p IH]; intros s H; simpl in *; [reflexivity|].
  destruct s as [|b s]; [discriminate|].
  apply andb_true_iff in H as [Hab Hps].
  apply Ascii.eqb_eq in Hab. subst b. simpl. f_equal. now apply IH.
Qed.

(** A separator cannot begin before a character it does not contain and end
    after it. *)
Lemma startswith_app_notin (sep x y : str) (c : ascii) :
  ~ In c sep -> sep <> [] ->
  startswith sep (x ++ c :: y) = startswith sep x.
Proof.
  revert x. induction sep as [|a sep IH]; intros x Hc Hne; [congruence|].
  destruct x as [|b x]; simpl.
  - destruct (Ascii.eqb a c) eqn:E; [|reflexivity].
    apply Ascii.eqb_eq in E. subst. exfalso. apply Hc. now left.
  - destruct (Ascii.eqb a b); simpl; [|reflexivity].
    destruct sep as [|a' sep]; [reflexivity|].
    apply IH; [|discriminate]. intros Hin. apply Hc. now right.
Qed.

Lemma occurs_app_notin (sep x y : str) (c : ascii) :
  ~ In c sep -> sep <> [] ->
  occurs sep (x ++ c :: y) = occurs sep x || occurs sep y.
Proof.
  intros Hc Hne. induction x as [|b x IH]; simpl.
  - destruct sep as [|a sep]; [congruence|]. simpl.
    destruct (Ascii.eqb a c) eqn:E; [|reflexivity].
    apply Ascii.eqb_eq in E. subst. exfalso. apply Hc. now left.
  - rewrite IH.
    change (b :: x ++ c :: y) with ((b :: x) ++ c :: y).
    rewrite startswith_app_notin by assumption.
    now rewrite orb_assoc.
Qed.

Lemma occurs_app_false (sep x y : str) :
  occurs sep (x ++ y) = false -> occurs sep x = false /\ occurs sep y = false.
Proof.
  induction x as [|b x IH]; simpl; intros H.
  - split; [|assumption]. destruct sep; [|reflexivity].
    destruct y; simpl in H; discriminate.
  - apply orb_false_iff in H as [H1 H2]. destruct (IH H2) as [Hx Hy].
    split; [|assumption]. apply orb_false_iff. split; [|assumption].
    destruct (startswith sep (b :: x)) eqn:E; [|reflexivity].
    pose proof (startswith_inv _ _ E) as Eq.
    change (b :: x ++ y) with ((b :: x) ++ y) in H1.
    rewrite Eq, <- app_assoc, startswith_app in H1. discriminate.
Qed.

(** ** [split] *)

Lemma cons_head_nonempty (c : ascii) (ps : list str) : cons_head c ps <> [].
Proof. destruct ps; discriminate. Qed.

Lemma split_skip_nonempty (sep : str) (k : nat) (s : str) :
  split_skip sep k s <> [].
Proof.
  revert k. induction s as [|c s IH]; intros k; simpl; [discriminate|].
  destruct k; [|apply IH].
  destruct (startswith sep (c :: s)); [discriminate|apply cons_head_nonempty].
Qed.

Lemma split_nonempty (sep s : str) : split sep s <> [].
Proof. apply split_skip_nonempty. Qed.

Lemma split_skip_skipn (sep : str) (k : nat) (s : str) :
  k <= length s -> split_skip sep k s = split_skip sep 0 (skipn k s).
Proof.
  revert k. induction s as [|c s IH]; intros k Hk; simpl in Hk.
  - assert (k = 0) by lia. now subst.
  - destruct k; [reflexivity|]. simpl. apply IH. lia.
Qed.

Lemma split_sep_app (sep r : str) :
  sep <> [] -> split sep (sep ++ r) = [] :: split sep r.
Proof.
  intros Hne. destruct sep as [|a sep]; [congruence|].
  unfold split. simpl app.
  change (split_skip (a :: sep) 0 (a :: sep ++ r))
    with (if startswith (a :: sep) (a :: sep ++ r)
          then [] :: split_skip (a :: sep) (length (a :: sep) - 1) (sep ++ r)
          else cons_head a (split_skip (a :: sep) 0 (sep ++ r))).
  change (a :: sep ++ r) with ((a :: sep) ++ r). rewrite startswith_app.
  f_equal. replace (length (a :: sep) - 1) with (length sep) by (simpl; lia).
  rewrite split_skip_skipn by (rewrite length_app; lia).
  now rewrite skipn_app, skipn_all, Nat.sub_diag.
Qed.

Lemma split_cons_nomatch (sep : str) (c : ascii) (s : str) :
  startswith sep (c :: s) = false ->
  split sep (c :: s) = cons_head c (split sep s).
Proof. intros H. unfold split. simpl. now rewrite H. Qed.

(** A text in which the separator does not occur is one piece. *)
Lemma split_no_occurrence (sep a : str) :
  occurs sep a = false -> split sep a = [a].
Proof.
  induction a as [|c a IH]; intros H; [reflexivity|].
  simpl in H. apply orb_false_iff in H as [H1 H2].
  rewrite split_cons_nomatch by assumption. now rewrite IH.
Qed.

(** The first cut is at the first occurrence of the separator: no
    occurrence may begin inside [a], not even one that runs into the
    separator that follows. *)
Lemma split_app_sep (sep a r : str) :
  sep <> [] ->
  occurs sep (a ++ removelast sep) = false ->
  split sep (a ++ sep ++ r) = a :: split sep r.
Proof.
  intros Hne. induction a as [|c a IH]; intros H.
  - simpl. now apply split_sep_app.
  - simpl in H. apply orb_false_iff in H as [H1 H2].
    change ((c :: a) ++ sep ++ r) with (c :: a ++ sep ++ r).
    rewrite split_cons_nomatch.
    + now rewrite IH.
    + destruct (startswith sep (c :: a ++ sep ++ r)) eqn:E; [|reflexivity].
      exfalso.
      assert (Hl : length sep <= length (c :: a ++ removelast sep) \/
                   length (c :: a ++ removelast sep) < length sep) by lia.
      destruct Hl as [Hl|Hl].
      * (* the occurrence lies within [c :: a ++ removelast sep] *)
        pose proof (startswith_inv _ _ E) as Eq.
        assert (Hp : firstn (length sep) (c :: a ++ sep ++ r) = sep).
        { rewrite Eq at 1. rewrite firstn_app, Nat.sub_diag, firstn_all.
          simpl. apply app_nil_r. }
        assert (Hq : firstn (length sep) (c :: a ++ sep ++ r)
                     = firstn (length sep) (c :: a ++ removelast sep)).
        { rewrite (app_removelast_last c Hne) at 2.
          change (c :: a ++ (removelast sep ++ [last sep c]) ++ r)
            with ((c :: a) ++ (removelast sep ++ [last sep c]) ++ r).
          rewrite <- app_assoc, app_assoc.
          rewrite firstn_app.
          replace (length sep - length ((c :: a) ++ removelast sep)) with 0
            by (simpl in *; lia).
          simpl firstn at 2. now rewrite app_nil_r. }
        rewrite Hq in Hp.
        assert (Hs : startswith sep (c :: a ++ removelast sep) = true).
        { rewrite <- (firstn_skipn (length sep) (c :: a ++ removelast sep)).
          rewrite Hp. apply startswith_app. }
        congruence.
      * (* too short to hold the separator: only [a = []] is left *)
        simpl in Hl. rewrite length_app in Hl.
        assert (Hr : length (removelast sep) = length sep - 1).
        { rewrite (app_removelast_last c Hne) at 2.
          rewrite length_app. simpl. lia. }
        lia.
Qed.

Lemma join_cons (sep p : str) (ps : list str) :
  ps <> [] -> join sep (p :: ps) = p ++ sep ++ join sep ps.
Proof. destruct ps; [congruence|reflexivity]. Qed.

Lemma join_cons_head (sep : str) (c : ascii) (ps : list str) :
  ps <> [] -> join sep (cons_head c ps) = c :: join sep ps.
Proof.
  destruct ps as [|p ps]; [congruence|]. intros _. simpl.
  destruct ps; reflexivity.
Qed.

(** Rejoining the pieces of a split gives the text back: [split] loses
    nothing and keeps the order. *)
Lemma join_split (sep s : str) : sep <> [] -> join sep (split sep s) = s.
Proof.
  intros Hne.
  assert (H : forall n s, length s <= n -> join sep (split sep s) = s).
  { clear s. induction n as [|n IH]; intros s Hn.
    - destruct s; [reflexivity|simpl in Hn; lia].
    - destruct s as [|c s]; [reflexivity|].
      destruct (startswith sep (c :: s)) eqn:E.
      + pose proof (startswith_inv _ _ E) as Eq. rewrite Eq at 1.
        rewrite split_sep_app by assumption.
        rewrite join_cons by apply split_nonempty. simpl app.
        rewrite IH.
        * now rewrite <- Eq.
        * rewrite length_skipn. destruct sep; [congruence|]. simpl in *. lia.
      + rewrite split_cons_nomatch by assumption.
        rewrite join_cons_head by apply split_nonempty.
        f_equal. apply IH. simpl in Hn. lia. }
  now apply (H (length s)).
Qed.

(** ** Exceptions and loops *)

Lemma map_result_Forall2 {A B : Type} (f : A -> result B) (xs : list A)
    (ys : list B) :
  map_result f xs = Ok ys <-> Forall2 (fun x y => f x = Ok y) xs ys.
Proof.
  revert ys. induction xs as [|x xs IH]; intros ys; simpl.
  - split; intros H.
    + injection H as <-. constructor.
    + now inversion H.
  - destruct (f x) as [y|e] eqn:Ef; simpl.
    + destruct (map_result f xs) as [ys'|e] eqn:Em; simpl.
      * split; intros H.
        -- injection H as <-. constructor; [assumption|]. now apply IH.
        -- inversion H; subst. f_equal.
           assert (y0 = y) by congruence. subst. f_equal.
           apply IH in H4. congruence.
      * split; intros H; [discriminate|]. inversion H; subst.
        apply IH in H4. discriminate.
    + split; intros H; [discriminate|]. inversion H; subst. congruence.
Qed.

(** A block that raises makes the whole list raise: nothing is returned. *)
Lemma map_result_raises {A B : Type} (f : A -> result B) (xs : list A)
    (x : A) (e : exn) :
  In x xs -> f x = Raise e -> exists e', map_result f xs = Raise e'.
Proof.
  induction xs as [|y xs IH]; intros Hin Hf; [destruct Hin|].
  simpl. destruct Hin as [->|Hin].
  - rewrite Hf. now exists e.
  - destruct (f y); simpl; [|now eexists].
    destruct (IH Hin Hf) as [e' ->]. now exists e'.
Qed.

(** ** The metadata dictionary *)

Lemma dict_get_set_same (d : meta_dict) (key : str) (v : list str) :
  dict_get (dict_set d key v) key = Some v.
Proof.
  induction d as [|[k w] d IH]; simpl.
  - now rewrite str_eqb_refl.
  - destruct (str_eqb k key) eqn:E; simpl; now rewrite E.
Qed.

Lemma dict_get_set_other (d : meta_dict) (key key' : str) (v : list str) :
  key <> key' -> dict_get (dict_set d key v) key' = dict_get d key'.
Proof.
  intros Hne. induction d as [|[k w] d IH]; simpl.
  - destruct (str_eqb key key') eqn:E; [|reflexivity].
    apply str_eqb_eq in E. congruence.
  - destruct (str_eqb k key) eqn:E; simpl.
    + apply str_eqb_eq in E. subst k.
      destruct (str_eqb key key') eqn:E'; [|reflexivity].
      apply str_eqb_eq in E'. congruence.
    + now rewrite IH.
Qed.

Lemma dict_set_set (d : meta_dict) (key : str) (v w : list str) :
  dict_set (dict_set d key v) key w = dict_set d key w.
Proof.
  induction d as [|[k u] d IH]; simpl.
  - now rewrite str_eqb_refl.
  - destruct (str_eqb k key) eqn:E; simpl; rewrite E; [reflexivity|].
    now rewrite IH.
Qed.

Lemma dict_set_Forall (P : list str -> Prop) (d : meta_dict) (key : str)
    (v : list str) :
  Forall (fun kv => P (snd kv)) d -> P v ->
  Forall (fun kv => P (snd kv)) (dict_set d key v).
Proof.
  intros Hd Hv. induction Hd as [|[k w] d Hk Hd IH]; simpl.
  - now repeat constructor.
  - destruct (str_eqb k key); constructor; assumption.
Qed.

Lemma dict_get_Forall (P : list str -> Prop) (d : meta_dict) (key : str)
    (vs : list str) :
  Forall (fun kv => P (snd kv)) d -> dict_get d key = Some vs -> P vs.
Proof.
  intros Hd. induction Hd as [|[k w] d Hk Hd IH]; simpl; [discriminate|].
  destruct (str_eqb k key); [|assumption]. intros H. injection H as <-.
  exact Hk.
Qed.

(** [set_meta] in one step: the value goes last under its tag. *)
Lemma set_meta_eq (q : Question) (md : meta_dict) (key value : str) :
  metadata q = Some md ->
  set_meta q key value
  = Ok (set_metadata q (dict_set md key (dict_values md key ++ [value]))).
Proof.
  intros Hmd. unfold set_meta, dict_mem, dict_values. rewrite Hmd.
  destruct (dict_get md key) as [vs|] eqn:E.
  - now rewrite E.
  - now rewrite dict_get_set_same, dict_set_set.
Qed.

Lemma populated_values_nonempty (q : Question) :
  populated q ->
  exists md, metadata q = Some md /\ Forall (fun kv => snd kv <> []) md.
Proof.
  induction 1 as [q Hq|q q' key value Hp [md [Hmd Hall]] Hset].
  - exists []. now split.
  - rewrite (set_meta_eq _ _ key value Hmd) in Hset. injection Hset as <-.
    eexists. split; [reflexivity|].
    apply (dict_set_Forall (fun vs => vs <> [])); [assumption|].
    now destruct (dict_values md key).
Qed.

(** ** The block validator *)

Lemma check_md_q_missing_title (md_q : str) :
  startswith $"# " (first_line md_q) = false ->
  check_md_q md_q = Raise (MissingTitle (first_line md_q)).
Proof. intros H. unfold check_md_q. now rewrite H. Qed.

Lemma check_md_q_missing_section (md_q : str) :
  startswith $"# " (first_line md_q) = true ->
  ~ (In $"Question Text" (section_names md_q)
     /\ In $"Question Answers" (section_names md_q)) ->
  check_md_q md_q
  = Raise (MissingRequiredSection (slice_from 2 (first_line md_q))).
Proof.
  intros Ht Hs. unfold check_md_q. rewrite Ht.
  change (negb true) with false. cbv iota. fold (section_names md_q).
  destruct (existsb (str_eqb $"Question Text") (section_names md_q)) eqn:E1;
    [|reflexivity].
  destruct (existsb (str_eqb $"Question Answers") (section_names md_q)) eqn:E2;
    [|reflexivity].
  exfalso. apply Hs.
  apply existsb_exists in E1 as [x [Hx Ex]].
  apply existsb_exists in E2 as [y [Hy Ey]].
  apply str_eqb_eq in Ex, Ey. subst. now split.
Qed.

(** A validation failure in any block aborts the conversion of the whole
    document: no output is returned. *)
Lemma quiz_md_to_json_aborts (json_dumps : Question -> str)
    (file_content block : str) (e : exn) :
  In block (split [nl; nl; nl] file_content) ->
  check_md_q (normalise block) = Raise e ->
  exists e', quiz_md_to_json json_dumps file_content = Raise e'.
Proof.
  intros Hin He. unfold quiz_md_to_json.
  destruct (map_result_raises (md_to_json json_dumps) _ block e Hin)
    as [e' ->]; [|now exists e'].
  unfold md_to_json, md_to_json_dict. now rewrite He.
Qed.

(** C10: the empty document does not convert to an empty result; its only
    block is the empty text, which has no title, and the run stops with
    the missing-title error quoting the empty first line. *)
Theorem quiz_md_to_json_empty_document (json_dumps : Question -> str) :
  split [nl; nl; nl] [] = [[]]
  /\ startswith $"# " (first_line (normalise [])) = false
  /\ check_md_q (normalise []) = Raise (MissingTitle [])
  /\ quiz_md_to_json json_dumps [] = Raise (MissingTitle []).
Proof. repeat split. Qed.

(** C3: on [prefix_section_block] the validator counts the [+] lines of the
    first section whose text starts with [Question Answers] and accepts;
    the parser then reaches the section named exactly [Question Answers],
    which has no [+] line, and the division [1 / 0.0] raises. *)
Theorem md_to_json_divides_by_zero (json_dumps : Question -> str) :
  normalise prefix_section_block = prefix_section_block
  /\ check_md_q prefix_section_block = Ok tt
  /\ md_to_json_dict prefix_section_block = Raise ZeroDivisionError
  /\ md_to_json json_dumps prefix_section_block = Raise ZeroDivisionError.
Proof. repeat split. Qed.

(** The same happens when the section named [Question Answers] comes
    twice: the validator looks at the first one only. *)
Example md_to_json_divides_by_zero_second_section :
  check_md_q second_section_block = Ok tt
  /\ md_to_json_dict second_section_block = Raise ZeroDivisionError.
Proof. split; reflexivity. Qed.

(** C4: [prefix_section_block] has a title and both required sections, and
    no line of its [Question Answers] section begins with [+]; all the
    same [check_md_q] accepts it instead of failing with the
    no-correct-answer error. *)
Theorem check_md_q_accepts_no_correct_answer :
  startswith $"# " (first_line prefix_section_block) = true
  /\ In $"Question Text" (section_names prefix_section_block)
  /\ In $"Question Answers" (section_names prefix_section_block)
  /\ map (fun field => rest_lines (rstrip_by is_nl field))
         (filter (fun field => str_eqb (first_line field) $"Question Answers")
                 (split $"## " prefix_section_block))
     = [[$"- b"]]
  /\ check_md_q prefix_section_block = Ok tt
  /\ check_md_q prefix_section_block <> Raise (NoCorrectAnswer $"T").
Proof.
  split; [reflexivity|].
  split; [vm_compute; tauto|].
  split; [vm_compute; tauto|].
  split; [reflexivity|].
  split; [reflexivity|]. vm_compute. discriminate.
Qed.

(** A property kept by every round of a loop holds when the loop ends. *)
Lemma for_each_invariant {A S : Type} (P : S -> Prop)
    (body : S -> A -> result S) (xs : list A) :
  (forall st x st', P st -> body st x = Ok st' -> P st') ->
  forall st st', P st -> for_each body xs st = Ok st' -> P st'.
Proof.
  intros Hbody. induction xs as [|x xs IH]; intros st st' HP H; simpl in H.
  - now injection H as <-.
  - destruct (body st x) as [st1|e] eqn:E; simpl in H; [|discriminate].
    eapply IH; [|exact H]. eapply Hbody; eassumption.
Qed.

Lemma add_answer_keeps (grade : Q) (q q' : Question) (ans : str) :
  add_answer grade q ans = Ok q' ->
  name q' = name q /\ statement q' = statement q /\ feedback q' = feedback q
  /\ metadata q' = metadata q /\ correct_answers_no q' = correct_answers_no q.
Proof.
  unfold add_answer. destruct ans as [|c ans]; simpl; [discriminate|].
  destruct (is_plus c); [|destruct (is_minus c);
                           [destruct (1 <? correct_answers_no q)|]];
    intros H; injection H as <-; repeat split.
Qed.

Lemma populated_ext (q q' : Question) :
  populated q -> metadata q' = metadata q -> populated q'.
Proof.
  intros Hp. revert q'.
  induction Hp as [q Hq|q0 q1 key value Hp IH Hset]; intros q' Hm.
  - apply populated_new. congruence.
  - destruct (populated_values_nonempty q0 Hp) as [md [Hmd _]].
    rewrite (set_meta_eq _ _ key value Hmd) in Hset. injection Hset as <-.
    apply populated_set
      with (q := mkQuestion (name q') (statement q') (feedback q') (Some md)
                            (answers q') (correct_answers_no q'))
           (key := key) (value := value).
    + apply IH. simpl. now rewrite Hmd.
    + rewrite (set_meta_eq (mkQuestion (name q') (statement q') (feedback q')
                              (Some md) (answers q') (correct_answers_no q'))
                 md key value eq_refl).
      destruct q'. simpl in *. unfold set_metadata. simpl. now rewrite Hm.
Qed.

Lemma parse_field_populated (q q' : Question) (field : str) :
  populated q -> parse_field q field = Ok q' -> populated q'.
Proof.
  intros Hp. unfold parse_field.
  destruct (str_eqb (first_line field) $"Question Text").
  { intros H. injection H as <-. now apply (populated_ext q). }
  destruct (str_eqb (first_line field) $"Question Answers").
  { destruct (count_correct _) as [n|e]; simpl; [|discriminate].
    destruct (one_over n) as [g|e]; simpl; [|discriminate].
    intros H. apply (populated_ext q); [assumption|].
    revert H.
    apply (for_each_invariant (fun q' => metadata q' = metadata q)
             (add_answer g)).
    - intros st x st' Hst Hx. apply add_answer_keeps in Hx.
      destruct Hx as (_ & _ & _ & Hm & _). congruence.
    - reflexivity. }
  destruct (str_eqb (first_line field) $"Feedback").
  { intros H. injection H as <-. now apply (populated_ext q). }
  destruct (str_eqb (first_line field) $"Metadata").
  { apply (for_each_invariant populated add_meta); [|assumption].
    intros st x st' Hst. unfold add_meta.
    destruct (list_index (split $"=" x) 0) as [tag|e]; simpl; [|discriminate].
    destruct (list_index (split $"=" x) 1) as [value|e]; simpl;
      [|discriminate].
    apply populated_set. assumption. }
  intros H. now injection H as <-.
Qed.

(** The record [md_to_json] builds has its metadata from [set_meta] only. *)
Lemma md_to_json_dict_populated (md_q : str) (q : Question) :
  md_to_json_dict md_q = Ok q -> populated q.
Proof.
  unfold md_to_json_dict.
  destruct (check_md_q (normalise md_q)); simpl; [|discriminate].
  apply (for_each_invariant populated parse_field).
  - intros st x st' Hst Hx. eapply parse_field_populated; eassumption.
  - now apply populated_new.
Qed.

(** ** The metadata accessor *)

(** C7: on a record filled through [set_meta] only, [get_meta] returns the
    empty string for an absent key, the value itself when the key holds
    exactly one, and the whole list, which then has at least two values,
    otherwise; the record is left as it was.  Parsing [tag=a] then [tag=b]
    gives the list of both, a single [tag=x] gives the string. *)
Theorem get_meta_populated :
  (forall q key, populated q ->
     exists md, metadata q = Some md
       /\ (dict_get md key = None -> get_meta q key = Ok (MetaStr [], q))
       /\ (forall v, dict_get md key = Some [v] ->
             get_meta q key = Ok (MetaStr v, q))
       /\ (forall vs, dict_get md key = Some vs -> length vs <> 1 ->
             2 <= length vs /\ get_meta q key = Ok (MetaList vs, q)))
  /\ (exists q, md_to_json_dict repeated_tag_block = Ok q
        /\ populated q
        /\ get_meta q $"tag" = Ok (MetaList [$"a"; $"b"], q))
  /\ (exists q, md_to_json_dict single_tag_block = Ok q
        /\ populated q
        /\ get_meta q $"tag" = Ok (MetaStr $"x", q)).
Proof.
  split; [|split].
  - intros q key Hp.
    destruct (populated_values_nonempty q Hp) as [md [Hmd Hall]].
    exists md. split; [assumption|]. unfold get_meta. rewrite Hmd.
    split; [|split].
    + now intros ->.
    + now intros v ->.
    + intros vs Hget Hlen. rewrite Hget.
      pose proof (dict_get_Forall (fun vs => vs <> []) md key vs Hall Hget)
        as Hne.
      destruct vs as [|v [|w vs]]; simpl in *; try congruence.
      split; [lia|reflexivity].
  - destruct (md_to_json_dict repeated_tag_block) as [q|e] eqn:E;
      [|vm_compute in E; discriminate].
    exists q. split; [reflexivity|].
    split; [now apply (md_to_json_dict_populated repeated_tag_block)|].
    vm_compute in E. injection E as <-. reflexivity.
  - destruct (md_to_json_dict single_tag_block) as [q|e] eqn:E;
      [|vm_compute in E; discriminate].
    exists q. split; [reflexivity|].
    split; [now apply (md_to_json_dict_populated single_tag_block)|].
    vm_compute in E. injection E as <-. reflexivity.
Qed.

Lemma get_meta_populated_witness :
  populated two_values_record
  /\ 2 <= length [$"a"; $"b"]
  /\ get_meta two_values_record $"tag"
     = Ok (MetaList [$"a"; $"b"], two_values_record).
Proof.
  assert (Hp : populated two_values_record).
  { apply populated_set
      with (q := set_metadata new_question [($"tag", [$"a"])])
           (key := $"tag") (value := $"b"); [|reflexivity].
    apply populated_set
      with (q := new_question) (key := $"tag") (value := $"a");
      [|reflexivity].
    apply populated_new. reflexivity. }
  split; [exact Hp|].
  destruct (proj1 get_meta_populated two_values_record $"tag" Hp)
    as [md [Hmd [_ [_ H]]]].
  injection Hmd as <-.
  apply (H [$"a"; $"b"]); [reflexivity|discriminate].
Defined.

(** ** The pipeline drivers *)

(** C8: the document is cut at the triple newlines into blocks that, joined
    again, are the document; the result holds the conversion of each block,
    one per block and in the order of the blocks, and exists only when every
    block converts.  Three blocks give three results in their order.  The
    reverse driver maps each record to its text, in order. *)
Theorem quiz_conversion_keeps_order (json_dumps : Question -> str)
    (str_of_list : list str -> str) :
  (forall file_content,
     join [nl; nl; nl] (split [nl; nl; nl] file_content) = file_content)
  /\ (forall file_content out,
        quiz_md_to_json json_dumps file_content = Ok out <->
        exists jsons,
          Forall2 (fun block j => md_to_json json_dumps block = Ok j)
                  (split [nl; nl; nl] file_content) jsons
          /\ out = $"[" ++ join $"," jsons ++ $"]")
  /\ (forall file_content b1 b2 b3 j1 j2 j3,
        split [nl; nl; nl] file_content = [b1; b2; b3] ->
        md_to_json json_dumps b1 = Ok j1 ->
        md_to_json json_dumps b2 = Ok j2 ->
        md_to_json json_dumps b3 = Ok j3 ->
        quiz_md_to_json json_dumps file_content
        = Ok ($"[" ++ join $"," [j1; j2; j3] ++ $"]"))
  /\ (forall json_arr mds,
        quiz_json_to_md str_of_list json_arr = Ok mds <->
        Forall2 (fun json_obj md => json_to_md str_of_list json_obj = Ok md)
                json_arr mds).
Proof.
  split; [|split; [|split]].
  - intros file_content. apply join_split. discriminate.
  - intros file_content out. unfold quiz_md_to_json. split.
    + destruct (map_result (md_to_json json_dumps)
                  (split [nl; nl; nl] file_content)) as [jsons|e] eqn:E;
        simpl; [|discriminate].
      intros H. injection H as <-. exists jsons.
      split; [|reflexivity]. now apply map_result_Forall2.
    + intros [jsons [HF ->]]. apply map_result_Forall2 in HF.
      now rewrite HF.
  - intros file_content b1 b2 b3 j1 j2 j3 Hs H1 H2 H3.
    unfold quiz_md_to_json. rewrite Hs. cbn [map_result].
    rewrite H1, H2, H3. reflexivity.
  - intros json_arr mds. apply map_result_Forall2.
Qed.

Lemma quiz_conversion_keeps_order_witness :
  split [nl; nl; nl] three_question_document
  = [question_block $"A"; question_block $"B"; question_block $"C"]
  /\ quiz_md_to_json name three_question_document = Ok $"[A,B,C]".
Proof.
  split; [reflexivity|].
  apply (proj1 (proj2 (proj2 (quiz_conversion_keeps_order name (fun _ => []))))
           three_question_document
           (question_block $"A") (question_block $"B") (question_block $"C")
           $"A" $"B" $"C");
    reflexivity.
Defined.

(** ** Metadata lines *)

Lemma split_char (c : ascii) (s : str) :
  split [c] s
  = before_char c s
      :: (if has_char c s then split [c] (after_char c s) else []).
Proof.
  induction s as [|d s IH]; [reflexivity|].
  unfold split in *. simpl. destruct (Ascii.eqb c d); simpl.
  - reflexivity.
  - rewrite IH. reflexivity.
Qed.

Lemma add_meta_with_equals (q : Question) (line : str) :
  has_char equals_sign line = true ->
  add_meta q line = set_meta q (meta_tag_of line) (meta_value_of line).
Proof.
  intros H. unfold add_meta.
  change $"=" with [equals_sign].
  rewrite split_char, H.
  rewrite (split_char equals_sign (after_char equals_sign line)).
  reflexivity.
Qed.

Lemma add_meta_without_equals (q : Question) (line : str) :
  has_char equals_sign line = false -> add_meta q line = Raise IndexError.
Proof.
  intros H. unfold add_meta.
  change $"=" with [equals_sign].
  rewrite split_char, H. reflexivity.
Qed.

Lemma meta_values_set_meta (q q' : Question) (md : meta_dict)
    (tag value key : str) :
  metadata q = Some md -> set_meta q tag value = Ok q' ->
  (exists md', metadata q' = Some md')
  /\ meta_values q' key
     = meta_values q key ++ (if str_eqb tag key then [value] else []).
Proof.
  intros Hmd Hset. rewrite (set_meta_eq q md tag value Hmd) in Hset.
  injection Hset as <-. split; [eexists; reflexivity|].
  unfold meta_values. rewrite Hmd. simpl. unfold dict_values.
  destruct (str_eqb tag key) eqn:E.
  - apply str_eqb_eq in E. subst key. now rewrite dict_get_set_same.
  - apply str_eqb_neq in E. rewrite dict_get_set_other by assumption.
    now rewrite app_nil_r.
Qed.

Lemma for_each_add_meta (metas : list str) :
  forall (q : Question) (md : meta_dict),
  metadata q = Some md ->
  Forall (fun m => has_char equals_sign m = true) metas ->
  exists q', for_each add_meta metas q = Ok q'
    /\ forall key,
         meta_values q' key
         = meta_values q key
           ++ map meta_value_of
                  (filter (fun m => str_eqb (meta_tag_of m) key) metas).
Proof.
  induction metas as [|m metas IH]; intros q md Hmd Hall.
  - exists q. split; [reflexivity|]. intros key. simpl. now rewrite app_nil_r.
  - inversion Hall as [|? ? Hm Hrest]; subst. simpl.
    rewrite (add_meta_with_equals q m Hm).
    rewrite (set_meta_eq q md _ _ Hmd). simpl.
    pose proof (set_meta_eq q md (meta_tag_of m) (meta_value_of m) Hmd)
      as Hset.
    set (q1 := set_metadata q _) in *.
    destruct (IH q1 _ eq_refl Hrest) as [q' [Hq' Hvals]].
    exists q'. split; [assumption|]. intros key. rewrite Hvals.
    destruct (meta_values_set_meta q q1 md _ _ key Hmd Hset) as [_ ->].
    rewrite <- app_assoc. f_equal.
    now destruct (str_eqb (meta_tag_of m) key).
Qed.

Lemma for_each_add_meta_raises (metas : list str) :
  forall (q : Question) (md : meta_dict),
  metadata q = Some md ->
  Exists (fun m => has_char equals_sign m = false) metas ->
  for_each add_meta metas q = Raise IndexError.
Proof.
  induction metas as [|m metas IH]; intros q md Hmd Hex.
  - inversion Hex.
  - simpl. destruct (has_char equals_sign m) eqn:Hm.
    + rewrite (add_meta_with_equals q m Hm).
      rewrite (set_meta_eq q md _ _ Hmd). simpl.
      eapply IH; [reflexivity|].
      inversion Hex; subst; [congruence|assumption].
    + now rewrite (add_meta_without_equals q m Hm).
Qed.

Lemma before_char_absent (c : ascii) (s : str) :
  has_char c s = false -> before_char c s = s.
Proof.
  induction s as [|d s IH]; simpl; [reflexivity|].
  destruct (Ascii.eqb c d); simpl; [discriminate|].
  intros H. now rewrite IH.
Qed.

Lemma parse_field_metadata (question : Question) (field : str) :
  first_line field = $"Metadata" ->
  parse_field question field
  = for_each add_meta (rest_lines (rstrip_by is_nl field)) question.
Proof. intros H. unfold parse_field. now rewrite H. Qed.

(** What the code does with the lines of a Metadata section.  Every line
    is cut at each [=]; the tag is the text before the first [=] and the
    value stored is the text between the first [=] and the second, which is
    the whole remainder of the line only when the remainder holds no
    further [=].  The pairs go through [set_meta] in line order, so the
    values of a tag are those it had followed by the values of its lines,
    in order.  A line with no [=] raises [IndexError]. *)
Theorem metadata_lines_accumulate (question : Question) (field : str)
    (md : meta_dict) :
  first_line field = $"Metadata" ->
  metadata question = Some md ->
  (Forall (fun m => has_char equals_sign m = true)
          (rest_lines (rstrip_by is_nl field)) ->
   exists q', parse_field question field = Ok q'
     /\ forall key,
          meta_values q' key
          = meta_values question key
            ++ map meta_value_of
                   (filter (fun m => str_eqb (meta_tag_of m) key)
                           (rest_lines (rstrip_by is_nl field))))
  /\ (Exists (fun m => has_char equals_sign m = false)
             (rest_lines (rstrip_by is_nl field)) ->
      parse_field question field = Raise IndexError)
  /\ (forall m, has_char equals_sign (after_char equals_sign m) = false ->
                meta_value_of m = after_char equals_sign m).
Proof.
  intros Hname Hmd. rewrite (parse_field_metadata question field Hname).
  split; [|split].
  - now apply for_each_add_meta with (md := md).
  - now apply for_each_add_meta_raises with (md := md).
  - intros m Hm. now apply before_char_absent.
Qed.

Lemma metadata_lines_accumulate_witness :
  first_line ($"Metadata" ++ [nl] ++ $"tag=a" ++ [nl] ++ $"tag=b" ++ [nl])
  = $"Metadata"
  /\ metadata new_question = Some []
  /\ exists q',
       parse_field new_question
         ($"Metadata" ++ [nl] ++ $"tag=a" ++ [nl] ++ $"tag=b" ++ [nl]) = Ok q'
       /\ meta_values q' $"tag" = [$"a"; $"b"].
Proof.
  split; [reflexivity|]. split; [reflexivity|].
  destruct (proj1 (metadata_lines_accumulate new_question
                     ($"Metadata" ++ [nl] ++ $"tag=a" ++ [nl] ++ $"tag=b"
                      ++ [nl]) [] eq_refl eq_refl)) as [q' [Hq' Hvals]].
  - vm_compute. repeat constructor.
  - exists q'. split; [assumption|]. rewrite Hvals. reflexivity.
Defined.

(** C6 fails in the code.  The line [a=b=c] of a Metadata section is cut at
    every [=] and the second piece is taken: the value stored under [a] is
    [b], not the remainder [b=c] of the line after its first [=].  The
    program's own output shows it: [json_to_md] writes the tag, [=] and the
    whole value, and a value that holds [=] comes back cut. *)
Theorem metadata_value_cut_at_second_equals :
  (exists q,
     md_to_json_dict value_with_equals_block = Ok q
     /\ after_char equals_sign $"a=b=c" = $"b=c"
     /\ meta_values q $"a" = [$"b"]
     /\ meta_values q $"a" <> [after_char equals_sign $"a=b=c"])
  /\ (exists md_q q,
        json_to_md no_list_text equals_in_value_record = Ok md_q
        /\ md_to_json_dict md_q = Ok q
        /\ meta_values equals_in_value_record $"url" = [$"http://x/?a=b"]
        /\ meta_values q $"url" = [$"http://x/?a"]).
Proof.
  split.
  - eexists. split; [vm_compute; reflexivity|].
    split; [reflexivity|]. split; [reflexivity|]. vm_compute. discriminate.
  - eexists. eexists. split; [vm_compute; reflexivity|].
    split; [vm_compute; reflexivity|]. split; reflexivity.
Qed.

(** ** The answers section *)

Lemma add_answer_eq (g : Q) (q q' : Question) (ans : str) :
  add_answer g q ans = Ok q' ->
  answers q' = answers q ++ parsed_answer g (correct_answers_no q) ans.
Proof.
  unfold add_answer, parsed_answer.
  destruct ans as [|c ans]; simpl; [discriminate|].
  destruct (is_plus c); [|destruct (is_minus c);
                           [destruct (1 <? correct_answers_no q)|]];
    intros H; injection H as <-; simpl; try reflexivity.
  now rewrite app_nil_r.
Qed.

Lemma for_each_add_answer (g : Q) (q_ans : list str) :
  forall q q',
  for_each (add_answer g) q_ans q = Ok q' ->
  correct_answers_no q' = correct_answers_no q
  /\ answers q'
     = answers q ++ parsed_answers g (correct_answers_no q) q_ans.
Proof.
  induction q_ans as [|ans q_ans IH]; intros q q' H; simpl in H.
  - injection H as <-. split; [reflexivity|]. simpl. now rewrite app_nil_r.
  - destruct (add_answer g q ans) as [q1|e] eqn:E; simpl in H; [|discriminate].
    destruct (IH q1 q' H) as [Hn Ha].
    pose proof (add_answer_eq g q q1 ans E) as Ha1.
    apply add_answer_keeps in E. destruct E as (_ & _ & _ & _ & Hn1).
    split; [congruence|].
    rewrite Ha, Ha1, Hn1, <- app_assoc. reflexivity.
Qed.

Lemma correct_count_app (l1 l2 : list Answer) :
  correct_count (l1 ++ l2) = correct_count l1 + correct_count l2.
Proof. unfold correct_count. now rewrite filter_app, length_app. Qed.

(** The lines counted as correct are those that yield a correct answer. *)
Lemma count_correct_parsed (g : Q) (m : nat) (q_ans : list str) (n : nat) :
  count_correct q_ans = Ok n ->
  correct_count (parsed_answers g m q_ans) = n.
Proof.
  revert n. induction q_ans as [|ans q_ans IH]; intros n H; simpl in H.
  - now injection H as <-.
  - destruct ans as [|c ans]; simpl in H; [discriminate|].
    destruct (count_correct q_ans) as [k|e]; simpl in H; [|discriminate].
    injection H as <-. unfold parsed_answers. simpl.
    rewrite correct_count_app. fold (parsed_answers g m q_ans).
    rewrite (IH k eq_refl).
    destruct (is_plus c); [reflexivity|].
    destruct (is_minus c); reflexivity.
Qed.

Lemma parsed_answers_grade_rule (n : nat) (q_ans : list str) :
  Forall (grade_rule n) (parsed_answers (1 # Pos.of_nat n) n q_ans).
Proof.
  unfold parsed_answers. induction q_ans as [|ans q_ans IH]; simpl.
  - constructor.
  - apply Forall_app. split; [|assumption].
    destruct ans as [|c ans]; simpl; [constructor|].
    destruct (is_plus c).
    + repeat constructor; simpl; intros; congruence.
    + destruct (is_minus c); [|constructor].
      repeat constructor; simpl; intros; try congruence.
      * assert (Hn : (1 <? n) = true) by now apply Nat.ltb_lt.
        now rewrite Hn.
      * subst n. reflexivity.
Qed.

Lemma set_meta_keeps (q q' : Question) (key value : str) :
  set_meta q key value = Ok q' ->
  answers q' = answers q /\ correct_answers_no q' = correct_answers_no q.
Proof.
  unfold set_meta. destruct (metadata q) as [md|]; [|discriminate].
  destruct (dict_get _ key); [|discriminate].
  intros H. injection H as <-. now split.
Qed.

Lemma add_meta_keeps (q q' : Question) (meta : str) :
  add_meta q meta = Ok q' ->
  answers q' = answers q /\ correct_answers_no q' = correct_answers_no q.
Proof.
  unfold add_meta.
  destruct (list_index (split $"=" meta) 0) as [tag|e]; simpl; [|discriminate].
  destruct (list_index (split $"=" meta) 1) as [value|e]; simpl;
    [|discriminate].
  apply set_meta_keeps.
Qed.

(** A section not named [Question Answers] leaves the answers alone. *)
Lemma parse_field_other (q q' : Question) (field : str) :
  is_answers_section field = false ->
  parse_field q field = Ok q' ->
  answers q' = answers q /\ correct_answers_no q' = correct_answers_no q.
Proof.
  unfold is_answers_section, parse_field. intros Hf. rewrite Hf.
  destruct (str_eqb (first_line field) $"Question Text").
  { intros H. injection H as <-. now split. }
  destruct (str_eqb (first_line field) $"Feedback").
  { intros H. injection H as <-. now split. }
  destruct (str_eqb (first_line field) $"Metadata").
  { apply (for_each_invariant
             (fun q' => answers q' = answers q
                        /\ correct_answers_no q' = correct_answers_no q)
             add_meta); [|now split].
    intros st x st' [Ha Hn] Hx. apply add_meta_keeps in Hx.
    destruct Hx. split; congruence. }
  intros H. injection H as <-. now split.
Qed.

(** A section named [Question Answers] sets the count to the number of its
    [+] lines, which is not zero, and appends its answers. *)
Lemma parse_field_answers (q q' : Question) (field : str) :
  is_answers_section field = true ->
  parse_field q field = Ok q' ->
  exists n,
    count_correct (rest_lines (rstrip_by is_nl field)) = Ok n
    /\ 1 <= n
    /\ correct_answers_no q' = n
    /\ answers q'
       = answers q
         ++ parsed_answers (1 # Pos.of_nat n) n
                           (rest_lines (rstrip_by is_nl field)).
Proof.
  unfold is_answers_section, parse_field. intros Hf.
  destruct (str_eqb (first_line field) $"Question Text") eqn:Ht.
  { apply str_eqb_eq in Ht, Hf. rewrite Ht in Hf. discriminate. }
  rewrite Hf.
  destruct (count_correct _) as [n|e]; simpl; [|discriminate].
  destruct n as [|n]; simpl; [discriminate|].
  intros H. apply for_each_add_answer in H. simpl in H. destruct H as [Hn Ha].
  exists (S n). split; [reflexivity|]. split; [lia|]. now split.
Qed.

Lemma for_each_parse_field_other (fields : list str) :
  forall q q',
  filter is_answers_section fields = [] ->
  for_each parse_field fields q = Ok q' ->
  answers q' = answers q /\ correct_answers_no q' = correct_answers_no q.
Proof.
  induction fields as [|f fields IH]; intros q q' Hnone H; simpl in *.
  - injection H as <-. now split.
  - destruct (is_answers_section f) eqn:Ef; [discriminate|].
    destruct (parse_field q f) as [q1|e] eqn:E; simpl in H; [|discriminate].
    destruct (parse_field_other q q1 f Ef E) as [Ha Hn].
    destruct (IH q1 q' Hnone H) as [Ha' Hn']. split; congruence.
Qed.

(** With at most one section named [Question Answers], the answers of the
    record are those of that section. *)
Lemma for_each_parse_field_answers (fields : list str) :
  forall q q',
  length (filter is_answers_section fields) <= 1 ->
  answers q = [] -> correct_answers_no q = 0 ->
  for_each parse_field fields q = Ok q' ->
  (answers q' = [] /\ correct_answers_no q' = 0)
  \/ exists n q_ans,
       count_correct q_ans = Ok n /\ 1 <= n
       /\ correct_answers_no q' = n
       /\ answers q' = parsed_answers (1 # Pos.of_nat n) n q_ans.
Proof.
  induction fields as [|f fields IH]; intros q q' Hone Ha Hn H; simpl in *.
  - injection H as <-. now left.
  - destruct (parse_field q f) as [q1|e] eqn:E; simpl in H; [|discriminate].
    destruct (is_answers_section f) eqn:Ef.
    + right. simpl in Hone.
      assert (Hnone : filter is_answers_section fields = []).
      { destruct (filter is_answers_section fields); [reflexivity|].
        simpl in Hone. lia. }
      destruct (parse_field_answers q q1 f Ef E) as [n [Hc [Hpos [Hn1 Ha1]]]].
      destruct (for_each_parse_field_other fields q1 q' Hnone H) as [Ha' Hn'].
      exists n, (rest_lines (rstrip_by is_nl f)).
      rewrite Ha in Ha1. simpl in Ha1.
      repeat split; try assumption; congruence.
    + destruct (parse_field_other q q1 f Ef E) as [Ha1 Hn1].
      apply (IH q1 q'); try assumption; congruence.
Qed.

Lemma md_to_json_dict_answers (md_q : str) (q : Question) :
  md_to_json_dict md_q = Ok q ->
  length (answer_sections md_q) <= 1 ->
  (answers q = [] /\ correct_answers_no q = 0)
  \/ exists n q_ans,
       count_correct q_ans = Ok n /\ 1 <= n
       /\ correct_answers_no q = n
       /\ answers q = parsed_answers (1 # Pos.of_nat n) n q_ans.
Proof.
  unfold md_to_json_dict, answer_sections.
  destruct (check_md_q (normalise md_q)); simpl; [|discriminate].
  intros H Hone.
  apply (for_each_parse_field_answers
           (split $"## " (normalise md_q))
           (set_name new_question (slice_from 2 (first_line (normalise md_q))))
           q Hone); [reflexivity|reflexivity|exact H].
Qed.

(** C5, as the code has it: when the block has no more than one section
    named [Question Answers], the count the record carries is the number of
    its answers marked correct. *)
Theorem correct_answers_no_counts_correct (md_q : str) (q : Question) :
  md_to_json_dict md_q = Ok q ->
  length (answer_sections md_q) <= 1 ->
  correct_answers_no q = correct_count (answers q).
Proof.
  intros H Hone.
  destruct (md_to_json_dict_answers md_q q H Hone)
    as [[Ha Hn]|[n [q_ans [Hc [_ [Hn Ha]]]]]].
  - now rewrite Ha, Hn.
  - rewrite Ha, Hn. symmetry. now apply count_correct_parsed.
Qed.

Lemma correct_answers_no_counts_correct_witness :
  length (answer_sections (question_block $"A")) <= 1
  /\ exists q, md_to_json_dict (question_block $"A") = Ok q
       /\ correct_answers_no q = correct_count (answers q).
Proof.
  split; [vm_compute; lia|].
  destruct (md_to_json_dict (question_block $"A")) as [q|e] eqn:E;
    [|vm_compute in E; discriminate].
  exists q. split; [reflexivity|].
  apply (correct_answers_no_counts_correct (question_block $"A") q E).
  vm_compute. lia.
Defined.

(** C5 as stated fails on [two_answer_sections_block]: each section named
    [Question Answers] appends its answers and overwrites the count, so the
    record has three answers marked correct and a count of one. *)
Lemma correct_answers_no_overwritten :
  exists q, md_to_json_dict two_answer_sections_block = Ok q
    /\ correct_answers_no q = 1
    /\ correct_count (answers q) = 3.
Proof. eexists. split; [vm_compute; reflexivity|]. now split. Qed.

(** C2, as the code has it: when the block has no more than one section
    named [Question Answers], the count [n] of the record is at least one,
    every answer marked correct has grade [1/n], and every other answer has
    grade [-1/n] when [n > 1] and [0] when [n = 1]. *)
Theorem grades_follow_correct_answers_no (md_q : str) (q : Question) :
  md_to_json_dict md_q = Ok q ->
  length (answer_sections md_q) <= 1 ->
  Forall (grade_rule (correct_answers_no q)) (answers q).
Proof.
  intros H Hone.
  destruct (md_to_json_dict_answers md_q q H Hone)
    as [[Ha Hn]|[n [q_ans [Hc [_ [Hn Ha]]]]]].
  - rewrite Ha. constructor.
  - rewrite Ha, Hn. apply parsed_answers_grade_rule.
Qed.

Lemma grades_follow_correct_answers_no_witness :
  length (answer_sections (question_block $"A")) <= 1
  /\ exists q, md_to_json_dict (question_block $"A") = Ok q
       /\ Forall (grade_rule (correct_answers_no q)) (answers q).
Proof.
  split; [vm_compute; lia|].
  destruct (md_to_json_dict (question_block $"A")) as [q|e] eqn:E;
    [|vm_compute in E; discriminate].
  exists q. split; [reflexivity|].
  apply (grades_follow_correct_answers_no (question_block $"A") q E).
  vm_compute. lia.
Defined.

(** C2 as stated fails on [two_answer_sections_block]: the record's count
    is [1], yet its first answer, marked correct, has the grade [1/2] of the
    section it came from. *)
Lemma grades_of_two_sections :
  exists q a rest, md_to_json_dict two_answer_sections_block = Ok q
    /\ correct_answers_no q = 1
    /\ answers q = a :: rest
    /\ correct a = true
    /\ grade a = (1 # 2)%Q
    /\ ~ grade_rule (correct_answers_no q) a.
Proof.
  eexists. eexists. eexists. split; [vm_compute; reflexivity|].
  repeat (split; [reflexivity|]).
  intros [H _]. specialize (H eq_refl). vm_compute in H. discriminate.
Qed.

(** ** Lines of a normalised block *)

Lemma lstrip_by_suffix (f : ascii -> bool) (s : str) :
  exists a, s = a ++ lstrip_by f s.
Proof.
  induction s as [|c s [a IH]]; simpl.
  - now exists [].
  - destruct (f c).
    + exists (c :: a). simpl. now f_equal.
    + now exists [].
Qed.

Lemma lstrip_by_head (f : ascii -> bool) (s : str) (c : ascii) (r : str) :
  lstrip_by f s = c :: r -> f c = false.
Proof.
  induction s as [|d s IH]; simpl; [discriminate|].
  destruct (f d) eqn:E; [assumption|].
  intros H. injection H as <- _. exact E.
Qed.

Lemma rstrip_by_prefix (f : ascii -> bool) (s : str) :
  exists b, s = rstrip_by f s ++ b.
Proof.
  unfold rstrip_by. destruct (lstrip_by_suffix f (rev s)) as [a Ha].
  exists (rev a). rewrite <- rev_app_distr, <- Ha. now rewrite rev_involutive.
Qed.

(** What [rstrip] leaves does not end in a stripped character. *)
Lemma rstrip_by_last (f : ascii -> bool) (s t : str) (c : ascii) :
  rstrip_by f s = t ++ [c] -> f c = false.
Proof.
  unfold rstrip_by. intros H.
  apply (f_equal (@rev ascii)) in H.
  rewrite rev_involutive, rev_app_distr in H. simpl in H.
  now apply lstrip_by_head in H.
Qed.

Lemma occurs_infix (sep a p b : str) :
  occurs sep (a ++ p ++ b) = false -> occurs sep p = false.
Proof.
  intros H. apply occurs_app_false in H as [_ H].
  now apply occurs_app_false in H as [H _].
Qed.

Lemma join_infix (sep p : str) (ps : list str) :
  In p ps -> exists a b, join sep ps = a ++ p ++ b.
Proof.
  induction ps as [|p0 ps IH]; intros Hin; [destruct Hin|].
  destruct ps as [|p1 ps].
  - destruct Hin as [->|[]]. exists [], []. simpl. now rewrite app_nil_r.
  - rewrite join_cons by discriminate. destruct Hin as [->|Hin].
    + now exists [], (sep ++ join sep (p1 :: ps)).
    + destruct (IH Hin) as [a [b ->]]. exists (p0 ++ sep ++ a), b.
      now rewrite <- !app_assoc.
Qed.

(** Every piece of a split is a part of the text. *)
Lemma split_infix (sep s p : str) :
  sep <> [] -> In p (split sep s) -> exists a b, s = a ++ p ++ b.
Proof.
  intros Hne Hin. destruct (join_infix sep p _ Hin) as [a [b H]].
  rewrite join_split in H by assumption. now exists a, b.
Qed.

Lemma collapse_newlines_cons (c : ascii) (s : str) :
  is_nl c = false ->
  collapse_newlines (c :: s) = c :: collapse_newlines s.
Proof. intros H. simpl. now rewrite H. Qed.

Lemma occurs_run_cons (c : ascii) (s : str) :
  occurs [nl; nl] (c :: s)
  = (Ascii.eqb nl c
     && match s with d :: _ => Ascii.eqb nl d | [] => false end)
    || occurs [nl; nl] s.
Proof.
  destruct s as [|d s]; simpl; [reflexivity|]. now rewrite andb_true_r.
Qed.

Lemma collapse_newlines_nl (c d : ascii) (s : str) :
  is_nl c = true ->
  collapse_newlines (c :: d :: s)
  = if is_nl d then collapse_newlines (d :: s)
    else c :: collapse_newlines (d :: s).
Proof.
  intros H.
  change (collapse_newlines (c :: d :: s))
    with (if is_nl c && is_nl d then collapse_newlines (d :: s)
          else c :: collapse_newlines (d :: s)).
  now rewrite H.
Qed.

(** After [re.sub] no two newlines are adjacent. *)
Lemma collapse_newlines_no_run (s : str) :
  occurs [nl; nl] (collapse_newlines s) = false.
Proof.
  induction s as [|c s IH]; [reflexivity|].
  destruct (is_nl c) eqn:Ec.
  - destruct s as [|d s].
    + simpl. rewrite !andb_false_r. simpl. now rewrite andb_false_r.
    + rewrite (collapse_newlines_nl c d s Ec).
      destruct (is_nl d) eqn:Ed; [assumption|].
      rewrite (collapse_newlines_cons d s Ed) in *.
      rewrite occurs_run_cons, IH.
      unfold is_nl in Ed. rewrite Ascii.eqb_sym in Ed. rewrite Ed.
      now rewrite andb_false_r.
  - rewrite (collapse_newlines_cons c s Ec).
    rewrite occurs_run_cons, IH.
    unfold is_nl in Ec. rewrite Ascii.eqb_sym in Ec. now rewrite Ec.
Qed.

Lemma normalise_no_run (md_q : str) :
  occurs [nl; nl] (normalise md_q) = false.
Proof.
  unfold normalise, strip_by.
  set (t := collapse_newlines (rstrip md_q)).
  destruct (lstrip_by_suffix is_nl t) as [a Ha].
  destruct (rstrip_by_prefix is_nl (lstrip_by is_nl t)) as [b Hb].
  apply (occurs_infix [nl; nl] a _ b). rewrite <- Hb, <- Ha.
  apply collapse_newlines_no_run.
Qed.

Lemma startswith_single (c d : ascii) (s : str) :
  startswith [c] (d :: s) = Ascii.eqb c d.
Proof. simpl. apply andb_true_r. Qed.

Lemma tl_cons_head (c : ascii) (ps : list str) :
  ps <> [] -> tl (cons_head c ps) = tl ps.
Proof. destruct ps; [congruence|reflexivity]. Qed.

(** In a text without adjacent newlines that does not end in one, every
    line after the first is non-empty. *)
Lemma rest_lines_nonempty (t : str) :
  occurs [nl; nl] t = false ->
  (forall t', t <> t' ++ [nl]) ->
  Forall (fun l => l <> []) (rest_lines t).
Proof.
  unfold rest_lines. induction t as [|c t IH]; intros Hrun Hend.
  - constructor.
  - assert (Hrun' : occurs [nl; nl] t = false).
    { simpl in Hrun. now apply orb_false_iff in Hrun as [_ H]. }
    assert (Hend' : forall t', t <> t' ++ [nl]).
    { intros t' ->. now apply (Hend (c :: t')). }
    specialize (IH Hrun' Hend').
    destruct (Ascii.eqb nl c) eqn:Ec.
    + apply Ascii.eqb_eq in Ec. subst c.
      change (nl :: t) with ([nl] ++ t).
      rewrite split_sep_app by discriminate. simpl tl.
      destruct t as [|d t]; [exfalso; now apply (Hend [])|].
      assert (Ed : Ascii.eqb nl d = false).
      { rewrite occurs_run_cons in Hrun.
        apply orb_false_iff in Hrun as [H _].
        now rewrite Ascii.eqb_refl in H. }
      assert (Hd : startswith [nl] (d :: t) = false)
        by now rewrite startswith_single.
      rewrite (split_cons_nomatch [nl] d t Hd) in *.
      rewrite tl_cons_head in IH by apply split_nonempty.
      pose proof (split_nonempty [nl] t) as Hs.
      destruct (split [nl] t) as [|p ps]; [congruence|]. simpl in *.
      constructor; [discriminate|assumption].
    + rewrite split_cons_nomatch by now rewrite startswith_single.
      now rewrite tl_cons_head by apply split_nonempty.
Qed.

(** The lines [md_to_json] reads from a section are never empty, so [ans[0]]
    always exists. *)
Lemma section_lines_nonempty (md_q field : str) :
  In field (split $"## " (normalise md_q)) ->
  Forall (fun l => l <> []) (rest_lines (rstrip_by is_nl field)).
Proof.
  intros Hin. apply rest_lines_nonempty.
  - destruct (split_infix $"## " _ field ltac:(discriminate) Hin)
      as [a [b Hab]].
    destruct (rstrip_by_prefix is_nl field) as [r Hr].
    pose proof (normalise_no_run md_q) as Hrun.
    rewrite Hab, Hr, <- app_assoc in Hrun.
    now apply occurs_infix in Hrun.
  - intros t' H. apply rstrip_by_last in H. discriminate.
Qed.

(** ** Lines that are not answers *)

Lemma count_correct_skip (l1 l2 : list str) (c : ascii) (x : str) :
  is_plus c = false ->
  count_correct (l1 ++ (c :: x) :: l2) = count_correct (l1 ++ l2).
Proof.
  intros Hc. induction l1 as [|l l1 IH]; simpl.
  - rewrite Hc. now destruct (count_correct l2).
  - now rewrite IH.
Qed.

Lemma for_each_add_answer_skip (g : Q) (l1 l2 : list str) (c : ascii)
    (x : str) :
  is_plus c = false -> is_minus c = false ->
  forall q,
  for_each (add_answer g) (l1 ++ (c :: x) :: l2) q
  = for_each (add_answer g) (l1 ++ l2) q.
Proof.
  intros Hp Hm. induction l1 as [|l l1 IH]; intros q; simpl.
  - unfold add_answer at 1. simpl. now rewrite Hp, Hm.
  - destruct (add_answer g q l); simpl; [apply IH|reflexivity].
Qed.

Lemma count_correct_total (lines : list str) :
  Forall (fun l => l <> []) lines -> exists n, count_correct lines = Ok n.
Proof.
  induction 1 as [|l lines Hl Hls [n IH]]; simpl.
  - now exists 0.
  - destruct l as [|c l]; [congruence|]. simpl. rewrite IH. simpl.
    eexists. reflexivity.
Qed.

(** The loop over answer lines that are not empty raises nothing. *)
Lemma for_each_add_answer_total (g : Q) (lines : list str) :
  Forall (fun l => l <> []) lines ->
  forall q, exists q', for_each (add_answer g) lines q = Ok q'.
Proof.
  induction 1 as [|l lines Hl Hls IH]; intros q.
  - now exists q.
  - destruct l as [|c l]; [congruence|]. cbn [for_each].
    assert (H : exists q1, add_answer g q (c :: l) = Ok q1).
    { unfold add_answer. simpl.
      destruct (is_plus c); [eexists; reflexivity|].
      destruct (is_minus c); [|eexists; reflexivity].
      destruct (1 <? correct_answers_no q); eexists; reflexivity. }
    destruct H as [q1 ->]. cbn [bind]. apply IH.
Qed.

(** C9: in a section named [Question Answers] of the normalised block, a
    line that begins with neither [+] nor [-] is not empty, so reading its
    first character raises nothing, and it yields no answer.  [md_to_json]
    reads the section as it reads the same section without the line: the
    count is that of the other lines; when it is at least one the section
    is read without error, the record gets this count and the answers of
    the other lines, in order; when it is zero the division raises, as it
    does without the line. *)
Theorem non_answer_line_is_skipped (md_q field : str) (l1 l2 : list str)
    (x : str) (question : Question) :
  In field (split $"## " (normalise md_q)) ->
  first_line field = $"Question Answers" ->
  rest_lines (rstrip_by is_nl field) = l1 ++ x :: l2 ->
  startswith $"+" x = false ->
  startswith $"-" x = false ->
  x <> []
  /\ (forall grade n, parsed_answer grade n x = [])
  /\ (forall field',
        first_line field' = $"Question Answers" ->
        rest_lines (rstrip_by is_nl field') = l1 ++ l2 ->
        parse_field question field = parse_field question field')
  /\ exists n,
       count_correct (l1 ++ x :: l2) = Ok n
       /\ count_correct (l1 ++ l2) = Ok n
       /\ (1 <= n ->
           exists q',
             parse_field question field = Ok q'
             /\ correct_answers_no q' = n
             /\ answers q'
                = answers question
                  ++ parsed_answers (1 # Pos.of_nat n) n (l1 ++ l2))
       /\ (n = 0 -> parse_field question field = Raise ZeroDivisionError).
Proof.
  intros Hin Hname Hlines Hplus Hminus.
  pose proof (section_lines_nonempty md_q field Hin) as Hne.
  rewrite Hlines in Hne.
  assert (Hne' : Forall (fun l => l <> []) (l1 ++ l2)).
  { apply Forall_app in Hne. destruct Hne as [H1 H2].
    apply Forall_app. split; [assumption|]. now inversion H2. }
  apply Forall_elt in Hne.
  destruct x as [|c x]; [congruence|].
  assert (Hp : is_plus c = false).
  { unfold is_plus. rewrite Ascii.eqb_sym. simpl in Hplus.
    now rewrite andb_true_r in Hplus. }
  assert (Hm : is_minus c = false).
  { unfold is_minus. rewrite Ascii.eqb_sym. simpl in Hminus.
    now rewrite andb_true_r in Hminus. }
  assert (Heq : forall f,
            first_line f = $"Question Answers" ->
            parse_field question f
            = (n <- count_correct (rest_lines (rstrip_by is_nl f)) ;;
               grade <- one_over n ;;
               for_each (add_answer grade) (rest_lines (rstrip_by is_nl f))
                        (set_correct_answers_no question n)))
    by (intros f H; unfold parse_field; now rewrite H).
  pose proof (count_correct_skip l1 l2 c x Hp) as Hcs.
  pose proof (fun g => for_each_add_answer_skip g l1 l2 c x Hp Hm) as Hfs.
  assert (Hpf : parse_field question field
                = (n <- count_correct (l1 ++ l2) ;;
                   grade <- one_over n ;;
                   for_each (add_answer grade) (l1 ++ l2)
                            (set_correct_answers_no question n))).
  { rewrite (Heq field Hname), Hlines. unfold str in *. rewrite Hcs.
    destruct (count_correct (l1 ++ l2)) as [n|e]; [|reflexivity].
    cbn [bind]. destruct (one_over n) as [g|e]; [|reflexivity].
    cbn [bind]. apply Hfs. }
  split; [discriminate|].
  split; [intros grade n; unfold parsed_answer; now rewrite Hp, Hm|].
  split.
  - intros field' Hname' Hlines'.
    now rewrite Hpf, (Heq field' Hname'), Hlines'.
  - destruct (count_correct_total (l1 ++ l2) Hne') as [n Hn].
    exists n. split; [rewrite <- Hn; exact Hcs|]. split; [exact Hn|].
    rewrite Hpf, Hn. cbn [bind]. split.
    + intros Hpos. destruct n as [|n]; [lia|]. cbn [one_over bind].
      destruct (for_each_add_answer_total (1 # Pos.of_nat (S n)) (l1 ++ l2)
                  Hne' (set_correct_answers_no question (S n))) as [q' Hq'].
      exists q'. split; [exact Hq'|].
      apply for_each_add_answer in Hq'. exact Hq'.
    + intros ->. reflexivity.
Qed.

Lemma non_answer_line_is_skipped_witness :
  In stray_line_section (split $"## " (normalise stray_line_block))
  /\ first_line stray_line_section = $"Question Answers"
  /\ rest_lines (rstrip_by is_nl stray_line_section)
     = [$"+ a"] ++ $"note" :: [$"- b"]
  /\ exists q',
       parse_field new_question stray_line_section = Ok q'
       /\ correct_answers_no q' = 1
       /\ answers q' = [mkAnswer $"a" true 1%Q; mkAnswer $"b" false 0%Q].
Proof.
  assert (Hin : In stray_line_section
                   (split $"## " (normalise stray_line_block)))
    by (vm_compute; tauto).
  destruct (non_answer_line_is_skipped stray_line_block stray_line_section
              [$"+ a"] [$"- b"] $"note" new_question Hin eq_refl eq_refl
              eq_refl eq_refl)
    as [_ [_ [_ [n [_ [Hn [Hok _]]]]]]].
  vm_compute in Hn. injection Hn as <-.
  destruct (Hok (le_n 1)) as [q' [Hq' [Hc Ha]]].
  split; [exact Hin|]. split; [reflexivity|]. split; [reflexivity|].
  exists q'. split; [exact Hq'|]. split; [exact Hc|]. exact Ha.
Defined.

(** The same, end to end: the stray line leaves no trace in the record. *)
Example stray_line_block_parses :
  exists q, md_to_json_dict stray_line_block = Ok q
    /\ correct_answers_no q = 1
    /\ answers q = [mkAnswer $"a" true 1%Q; mkAnswer $"b" false 0%Q].
Proof. eexists. split; [vm_compute; reflexivity|]. now split. Qed.

(** ** Normalising a serialised record *)

Lemma lstrip_by_app_all (f : ascii -> bool) (w s : str) :
  Forall (fun c => f c = true) w -> lstrip_by f (w ++ s) = lstrip_by f s.
Proof.
  induction 1 as [|c w Hc Hw IH]; simpl; [reflexivity|]. now rewrite Hc.
Qed.

Lemma lstrip_by_app_keep (f : ascii -> bool) (a b : str) :
  lstrip_by f a <> [] -> lstrip_by f (a ++ b) = lstrip_by f a ++ b.
Proof.
  induction a as [|c a IH]; simpl; [congruence|].
  destruct (f c); [exact IH|reflexivity].
Qed.

Lemma rstrip_by_app_all (f : ascii -> bool) (s w : str) :
  Forall (fun c => f c = true) w -> rstrip_by f (s ++ w) = rstrip_by f s.
Proof.
  intros Hw. unfold rstrip_by. rewrite rev_app_distr.
  rewrite lstrip_by_app_all; [reflexivity|]. now apply Forall_rev.
Qed.

Lemma rstrip_by_app_keep (f : ascii -> bool) (x y : str) :
  rstrip_by f y <> [] -> rstrip_by f (x ++ y) = x ++ rstrip_by f y.
Proof.
  unfold rstrip_by. intros Hy. rewrite rev_app_distr.
  rewrite lstrip_by_app_keep.
  - now rewrite rev_app_distr, rev_involutive.
  - intros H. apply Hy. now rewrite H.
Qed.

Lemma rstrip_by_fixed (f : ascii -> bool) (t : str) (c : ascii) :
  f c = false -> rstrip_by f (t ++ [c]) = t ++ [c].
Proof.
  intros Hc. unfold rstrip_by. rewrite rev_app_distr. simpl.
  rewrite Hc. simpl. now rewrite rev_involutive.
Qed.

Lemma is_nl_is_space (c : ascii) : is_nl c = true -> is_space c = true.
Proof. intros H. apply Ascii.eqb_eq in H. now subst. Qed.

Lemma is_nl_nl : is_nl nl = true.
Proof. reflexivity. Qed.

Lemma single_line_cons (c : ascii) (s : str) :
  single_line (c :: s) <-> is_nl c = false /\ single_line s.
Proof.
  unfold single_line, is_nl.
  change (has_char nl (c :: s)) with (Ascii.eqb nl c || has_char nl s).
  rewrite orb_false_iff. now rewrite (Ascii.eqb_sym nl c).
Qed.

Lemma single_line_app (a b : str) :
  single_line (a ++ b) <-> single_line a /\ single_line b.
Proof.
  unfold single_line, has_char. rewrite existsb_app. apply orb_false_iff.
Qed.

(** [re.sub] leaves a text without newline as it is. *)
Lemma collapse_newlines_line (l r : str) :
  single_line l ->
  collapse_newlines (l ++ r) = l ++ collapse_newlines r.
Proof.
  induction l as [|c l IH]; intros Hl; [reflexivity|].
  apply single_line_cons in Hl as [Hc Hl].
  change ((c :: l) ++ r) with (c :: l ++ r).
  rewrite collapse_newlines_cons by assumption. simpl. now rewrite IH.
Qed.

Lemma collapse_newlines_nl_nl (r : str) :
  collapse_newlines (nl :: nl :: r) = collapse_newlines (nl :: r).
Proof. now rewrite (collapse_newlines_nl nl nl r is_nl_nl), is_nl_nl. Qed.

Lemma collapse_newlines_nl_char (d : ascii) (r : str) :
  is_nl d = false ->
  collapse_newlines (nl :: d :: r) = nl :: collapse_newlines (d :: r).
Proof. intros H. now rewrite (collapse_newlines_nl nl d r is_nl_nl), H. Qed.

Lemma blocks_cons (l : str) (ls : list str) :
  blocks (l :: ls) = l ++ nl :: nl :: blocks ls.
Proof. unfold blocks. simpl. now rewrite <- app_assoc. Qed.

Lemma blocks_app (ls1 ls2 : list str) :
  blocks (ls1 ++ ls2) = blocks ls1 ++ blocks ls2.
Proof. unfold blocks. now rewrite map_app, concat_app. Qed.

Lemma nl_lines_cons (l : str) (ls : list str) :
  nl_lines (l :: ls) = nl :: l ++ nl_lines ls.
Proof. reflexivity. Qed.

Lemma nl_lines_app (ls1 ls2 : list str) :
  nl_lines (ls1 ++ ls2) = nl_lines ls1 ++ nl_lines ls2.
Proof. unfold nl_lines. now rewrite map_app, concat_app. Qed.

(** Blank-line separated lines collapse to newline separated lines, the
    empty ones vanishing. *)
Lemma collapse_newlines_blocks (raw : list str) (last : str) :
  Forall single_line raw -> single_line last -> last <> [] ->
  collapse_newlines (nl :: blocks raw ++ last)
  = nl_lines (filter nonempty raw) ++ nl :: last.
Proof.
  intros Hraw Hlast Hne. induction Hraw as [|l raw Hl Hraw IH].
  - change (blocks [] ++ last) with last.
    change (nl_lines (filter nonempty []) ++ nl :: last) with (nl :: last).
    destruct last as [|d last]; [congruence|].
    pose proof Hlast as Hd. apply single_line_cons in Hd as [Hd _].
    rewrite collapse_newlines_nl_char by assumption.
    rewrite <- (app_nil_r (d :: last)) at 1.
    rewrite collapse_newlines_line by assumption.
    change (collapse_newlines []) with (@nil ascii). now rewrite app_nil_r.
  - rewrite blocks_cons. destruct l as [|d l].
    + simpl app. rewrite !collapse_newlines_nl_nl. exact IH.
    + pose proof Hl as Hd. apply single_line_cons in Hd as [Hd _].
      simpl filter. rewrite nl_lines_cons.
      change (nl :: ((d :: l) ++ nl :: nl :: blocks raw) ++ last)
        with (nl :: d :: (l ++ nl :: nl :: blocks raw) ++ last).
      rewrite collapse_newlines_nl_char by assumption.
      change (d :: (l ++ nl :: nl :: blocks raw) ++ last)
        with (((d :: l) ++ nl :: nl :: blocks raw) ++ last).
      rewrite <- app_assoc.
      rewrite collapse_newlines_line by assumption.
      simpl app at 2. rewrite collapse_newlines_nl_nl, IH.
      change ((nl :: (d :: l) ++ nl_lines (filter nonempty raw)) ++ nl :: last)
        with (nl :: ((d :: l) ++ nl_lines (filter nonempty raw)) ++ nl :: last).
      now rewrite <- app_assoc.
Qed.

Lemma strip_by_fixed (f : ascii -> bool) (c d : ascii) (s t : str) :
  f c = false -> f d = false -> c :: s = t ++ [d] ->
  strip_by f (c :: s) = c :: s.
Proof.
  intros Hc Hd Heq. unfold strip_by. simpl. rewrite Hc, Heq.
  now apply rstrip_by_fixed.
Qed.

Lemma rstrip_by_single_line (f : ascii -> bool) (l : str) :
  single_line l -> single_line (rstrip_by f l).
Proof.
  intros Hl. destruct (rstrip_by_prefix f l) as [b Hb].
  rewrite Hb in Hl. now apply single_line_app in Hl as [H _].
Qed.

(** The normal form of a serialised text: its title, then its non-empty
    lines each after one newline, the last one without its trailing white
    space.  [raw] are the lines between the title and the last line that
    is not blank, [blank] the lines of white space after it. *)
Lemma normalise_document (c0 : ascii) (title : str) (raw : list str)
    (l : str) (blank : list str) :
  single_line (c0 :: title) ->
  Forall single_line raw -> single_line l -> rstrip l <> [] ->
  Forall (fun e => Forall (fun c => is_space c = true) e) blank ->
  normalise ((c0 :: title) ++ nl :: nl :: blocks (raw ++ l :: blank) ++ [nl])
  = (c0 :: title) ++ nl_lines (filter nonempty raw) ++ nl :: rstrip l.
Proof.
  intros Ht Hraw Hl Hr Hblank. unfold normalise.
  assert (Hw : Forall (fun c => is_space c = true)
                      (nl :: nl :: blocks blank ++ [nl])).
  { repeat constructor. apply Forall_app. split; [|repeat constructor].
    induction Hblank as [|e blank He Hb IH]; [constructor|].
    rewrite blocks_cons. apply Forall_app. split; [assumption|].
    now repeat constructor. }
  assert (Hstrip :
    rstrip ((c0 :: title) ++ nl :: nl :: blocks (raw ++ l :: blank) ++ [nl])
    = ((c0 :: title) ++ nl :: nl :: blocks raw) ++ rstrip l).
  { rewrite blocks_app, blocks_cons.
    replace ((c0 :: title) ++ nl :: nl
               :: (blocks raw ++ l ++ nl :: nl :: blocks blank) ++ [nl])
      with (((c0 :: title) ++ nl :: nl :: blocks raw)
              ++ (l ++ nl :: nl :: blocks blank ++ [nl])).
    2:{ repeat (rewrite <- app_assoc || rewrite <- app_comm_cons).
        reflexivity. }
    unfold rstrip in *.
    rewrite rstrip_by_app_keep; rewrite rstrip_by_app_all by assumption;
      [reflexivity|assumption]. }
  rewrite Hstrip. clear Hstrip Hw.
  pose proof (rstrip_by_single_line is_space l Hl) as Hl'. fold (rstrip l) in Hl'.
  rewrite <- app_assoc.
  rewrite collapse_newlines_line by assumption.
  change ((nl :: nl :: blocks raw) ++ rstrip l)
    with (nl :: nl :: blocks raw ++ rstrip l).
  rewrite collapse_newlines_nl_nl.
  rewrite collapse_newlines_blocks by assumption.
  destruct (exists_last Hr) as [t [d Hd]].
  apply single_line_cons in Ht as [Hc0 _].
  change ((c0 :: title) ++ nl_lines (filter nonempty raw) ++ nl :: rstrip l)
    with (c0 :: title ++ nl_lines (filter nonempty raw) ++ nl :: rstrip l).
  apply strip_by_fixed
    with (d := d) (t := c0 :: title ++ nl_lines (filter nonempty raw) ++ nl :: t).
  - assumption.
  - pose proof (rstrip_by_last is_space l t d Hd) as Hsp.
    destruct (is_nl d) eqn:E; [|reflexivity].
    apply is_nl_is_space in E. congruence.
  - rewrite Hd. simpl. rewrite <- !app_assoc. reflexivity.
Qed.

Lemma lstrip_by_nil (f : ascii -> bool) (s : str) :
  lstrip_by f s = [] -> Forall (fun c => f c = true) s.
Proof.
  induction s as [|c s IH]; simpl; [constructor|].
  destruct (f c) eqn:E; [|discriminate]. intros H. constructor; auto.
Qed.

Lemma rstrip_by_nil (f : ascii -> bool) (s : str) :
  rstrip_by f s = [] -> Forall (fun c => f c = true) s.
Proof.
  unfold rstrip_by. intros H.
  apply (f_equal (@rev ascii)) in H. rewrite rev_involutive in H. simpl in H.
  apply lstrip_by_nil in H. apply Forall_rev in H.
  now rewrite rev_involutive in H.
Qed.

Lemma tidy_nil (ls : list str) :
  tidy ls = [] -> Forall (fun e => Forall (fun c => is_space c = true) e) ls.
Proof.
  induction ls as [|l ls IH]; simpl; [constructor|].
  destruct (tidy ls) as [|t ts].
  - destruct (rstrip l) eqn:E; [|discriminate]. intros _.
    constructor; [|now apply IH]. now apply rstrip_by_nil.
  - destruct (nonempty l); discriminate.
Qed.

Lemma tidy_decompose (ls : list str) :
  tidy ls <> [] ->
  exists raw l blank,
    ls = raw ++ l :: blank
    /\ rstrip l <> []
    /\ Forall (fun e => Forall (fun c => is_space c = true) e) blank
    /\ tidy ls = filter nonempty raw ++ [rstrip l].
Proof.
  induction ls as [|l0 ls IH]; simpl; [congruence|].
  destruct (tidy ls) as [|t ts] eqn:Et.
  - destruct (rstrip l0) as [|c r] eqn:Er; [congruence|]. intros _.
    exists [], l0, ls. repeat split.
    + rewrite Er. discriminate.
    + now apply tidy_nil.
    + now rewrite Er.
  - intros _.
    destruct IH as [raw [l [blank [Hls [Hr [Hb Ht]]]]]]; [discriminate|].
    exists (l0 :: raw), l, blank. subst ls. repeat split; try assumption.
    simpl. destruct (nonempty l0); simpl; now rewrite Ht.
Qed.

Lemma tidy_app (a b : list str) :
  tidy b <> [] -> tidy (a ++ b) = filter nonempty a ++ tidy b.
Proof.
  intros Hb. induction a as [|l a IH]; [reflexivity|].
  simpl. rewrite IH.
  destruct (filter nonempty a ++ tidy b) as [|t ts] eqn:E.
  - apply app_eq_nil in E as [_ E]. congruence.
  - destruct (nonempty l); simpl; now rewrite E.
Qed.

(** The normal form of a serialised text, by [tidy]. *)
Lemma normalise_tidy (c0 : ascii) (title : str) (ls : list str) :
  single_line (c0 :: title) -> Forall single_line ls -> tidy ls <> [] ->
  normalise ((c0 :: title) ++ nl :: nl :: blocks ls ++ [nl])
  = (c0 :: title) ++ nl_lines (tidy ls).
Proof.
  intros Ht Hls Hne.
  destruct (tidy_decompose ls Hne) as [raw [l [blank [Hl [Hr [Hb Htidy]]]]]].
  rewrite Htidy, nl_lines_app. subst ls.
  apply Forall_app in Hls as [Hraw Hl].
  inversion Hl as [|? ? Hl1 Hl2]; subst.
  rewrite (normalise_document c0 title raw l blank) by assumption.
  unfold nl_lines at 3. simpl. now rewrite app_nil_r.
Qed.

(** ** Cutting a normalised text into sections *)

Lemma marker_free_nl (a b : str) :
  marker_free (a ++ nl :: b) <-> marker_free a /\ marker_free b.
Proof.
  unfold marker_free. rewrite occurs_app_notin.
  - apply orb_false_iff.
  - intros H. cbv in H. intuition discriminate.
  - discriminate.
Qed.

Lemma fields_of_cons (cur l : str) (ls : list str) :
  fields_of cur (l :: ls)
  = if startswith $"## " l
    then (cur ++ [nl]) :: fields_of (slice_from 3 l) ls
    else fields_of (cur ++ nl :: l) ls.
Proof. reflexivity. Qed.

Lemma split_fields (ls : list str) :
  forall cur,
  marker_free cur -> Forall line_ok ls ->
  split $"## " (cur ++ nl_lines ls) = fields_of cur ls.
Proof.
  induction ls as [|l ls IH]; intros cur Hcur Hls.
  - unfold nl_lines. simpl. rewrite app_nil_r.
    now apply split_no_occurrence.
  - inversion Hls as [|? ? Hl Hrest]; subst.
    rewrite nl_lines_cons, fields_of_cons. unfold line_ok in Hl.
    destruct (startswith $"## " l) eqn:E.
    + apply startswith_inv in E. change (length $"## ") with 3 in E.
      fold (slice_from 3 l) in E. rewrite E at 1.
      replace (cur ++ nl :: ($"## " ++ slice_from 3 l) ++ nl_lines ls)
        with ((cur ++ [nl]) ++ $"## " ++ (slice_from 3 l ++ nl_lines ls))
        by (rewrite <- !app_assoc; reflexivity).
      rewrite split_app_sep.
      * now rewrite IH.
      * discriminate.
      * change (removelast $"## ") with $"##".
        rewrite <- app_assoc. simpl app.
        apply (proj2 (marker_free_nl cur $"##")). now split.
    + replace (cur ++ nl :: l ++ nl_lines ls)
        with ((cur ++ nl :: l) ++ nl_lines ls)
        by (rewrite <- app_assoc; reflexivity).
      apply IH; [|assumption]. apply marker_free_nl. now split.
Qed.

Lemma fields_of_content (cs rest : list str) :
  forall cur,
  Forall (fun c => startswith $"## " c = false) cs ->
  fields_of cur (cs ++ rest) = fields_of (cur ++ nl_lines cs) rest.
Proof.
  induction cs as [|c cs IH]; intros cur Hcs.
  - unfold nl_lines. simpl. now rewrite app_nil_r.
  - inversion Hcs as [|? ? Hc Hrest]; subst.
    change ((c :: cs) ++ rest) with (c :: cs ++ rest).
    rewrite fields_of_cons, Hc.
    rewrite IH by assumption. rewrite nl_lines_cons.
    now rewrite <- app_assoc.
Qed.

Lemma marker_free_startswith (l : str) :
  marker_free l -> startswith $"## " l = false.
Proof.
  unfold marker_free. destruct l as [|c l]; [reflexivity|].
  intros H. simpl in H. now apply orb_false_iff in H as [H _].
Qed.

(** ** Lines of a section *)

Lemma occurs_single (c : ascii) (s : str) : occurs [c] s = has_char c s.
Proof.
  induction s as [|d s IH]; [reflexivity|].
  change (occurs [c] (d :: s)) with (startswith [c] (d :: s) || occurs [c] s).
  now rewrite startswith_single, IH.
Qed.

Lemma split_nl_lines (ls : list str) :
  forall h,
  single_line h -> Forall single_line ls ->
  split [nl] (h ++ nl_lines ls) = h :: ls.
Proof.
  induction ls as [|l ls IH]; intros h Hh Hls.
  - unfold nl_lines. simpl. rewrite app_nil_r.
    apply split_no_occurrence. now rewrite occurs_single.
  - inversion Hls as [|? ? Hl Hrest]; subst. rewrite nl_lines_cons.
    change (h ++ nl :: l ++ nl_lines ls)
      with (h ++ [nl] ++ (l ++ nl_lines ls)).
    rewrite split_app_sep.
    + now rewrite IH.
    + discriminate.
    + simpl removelast. rewrite app_nil_r. now rewrite occurs_single.
Qed.

Lemma first_line_nl_lines (h : str) (ls : list str) :
  single_line h -> Forall single_line ls -> first_line (h ++ nl_lines ls) = h.
Proof. intros Hh Hls. unfold first_line. now rewrite split_nl_lines. Qed.

Lemma rest_lines_nl_lines (h : str) (ls : list str) :
  single_line h -> Forall single_line ls -> rest_lines (h ++ nl_lines ls) = ls.
Proof. intros Hh Hls. unfold rest_lines. now rewrite split_nl_lines. Qed.

Lemma first_line_nl_lines_nl (h : str) (ls : list str) :
  single_line h -> Forall single_line ls ->
  first_line ((h ++ nl_lines ls) ++ [nl]) = h.
Proof.
  intros Hh Hls.
  replace ((h ++ nl_lines ls) ++ [nl]) with (h ++ nl_lines (ls ++ [[]])).
  - apply first_line_nl_lines; [assumption|].
    apply Forall_app. split; [assumption|]. repeat constructor.
  - rewrite nl_lines_app, app_assoc. reflexivity.
Qed.

Lemma single_line_last (s t : str) (d : ascii) :
  single_line s -> s = t ++ [d] -> is_nl d = false.
Proof.
  intros Hs ->. apply single_line_app in Hs as [_ Hd].
  now apply single_line_cons in Hd as [Hd _].
Qed.

(** A heading and its non-empty lines do not end in a newline. *)
Lemma rstrip_nl_lines (h : str) (ls : list str) :
  single_line h -> h <> [] ->
  Forall (fun l => single_line l /\ l <> []) ls ->
  rstrip_by is_nl (h ++ nl_lines ls) = h ++ nl_lines ls.
Proof.
  intros Hh Hne Hls.
  destruct ls as [|l0 ls0].
  - unfold nl_lines. simpl. rewrite app_nil_r.
    destruct (exists_last Hne) as [t [d Hd]]. rewrite Hd.
    apply rstrip_by_fixed. now apply (single_line_last h t d).
  - destruct (@exists_last _ (l0 :: ls0)) as [ls' [l Hl]]; [discriminate|].
    rewrite Hl in *. apply Forall_app in Hls as [_ Hlast].
    inversion Hlast as [|? ? [Hl1 Hl2] _]; subst.
    destruct (exists_last Hl2) as [t [d Hd]]. subst l.
    rewrite nl_lines_app, (nl_lines_cons (t ++ [d]) []).
    change (nl_lines []) with (@nil ascii). rewrite app_nil_r.
    replace (h ++ nl_lines ls' ++ nl :: t ++ [d])
      with ((h ++ nl_lines ls' ++ nl :: t) ++ [d])
      by (rewrite <- !app_assoc; reflexivity).
    apply rstrip_by_fixed. now apply (single_line_last (t ++ [d]) t d).
Qed.

Lemma rstrip_nl_lines_nl (h : str) (ls : list str) :
  single_line h -> h <> [] ->
  Forall (fun l => single_line l /\ l <> []) ls ->
  rstrip_by is_nl ((h ++ nl_lines ls) ++ [nl]) = h ++ nl_lines ls.
Proof.
  intros Hh Hne Hls. rewrite rstrip_by_app_all by (repeat constructor).
  now apply rstrip_nl_lines.
Qed.

(** ** Reading the sections *)

Lemma parse_field_title (q : Question) (field : str) (t : str) :
  first_line field = "#"%char :: t -> parse_field q field = Ok q.
Proof.
  intros H. unfold parse_field. rewrite H.
  replace (str_eqb ("#"%char :: t) $"Question Text") with false
    by (symmetry; apply str_eqb_neq; discriminate).
  replace (str_eqb ("#"%char :: t) $"Question Answers") with false
    by (symmetry; apply str_eqb_neq; discriminate).
  replace (str_eqb ("#"%char :: t) $"Feedback") with false
    by (symmetry; apply str_eqb_neq; discriminate).
  replace (str_eqb ("#"%char :: t) $"Metadata") with false
    by (symmetry; apply str_eqb_neq; discriminate).
  reflexivity.
Qed.

Lemma parse_field_text (q : Question) (field : str) :
  first_line field = $"Question Text" ->
  parse_field q field
  = Ok (set_statement q (join [nl] (rest_lines field))).
Proof. intros H. unfold parse_field. now rewrite H. Qed.

Lemma parse_field_feedback (q : Question) (field : str) :
  first_line field = $"Feedback" ->
  parse_field q field
  = Ok (set_feedback q (join [nl] (rest_lines field))).
Proof. intros H. unfold parse_field. now rewrite H. Qed.

Lemma parse_field_answers_eq (q : Question) (field : str) :
  first_line field = $"Question Answers" ->
  parse_field q field
  = (n <- count_correct (rest_lines (rstrip_by is_nl field)) ;;
     grade <- one_over n ;;
     for_each (add_answer grade) (rest_lines (rstrip_by is_nl field))
              (set_correct_answers_no q n)).
Proof. intros H. unfold parse_field. now rewrite H. Qed.

Lemma with_answers_nil (q : Question) : with_answers q [] = q.
Proof. destruct q. unfold with_answers. simpl. now rewrite app_nil_r. Qed.

Lemma with_answers_app (q : Question) (l1 l2 : list Answer) :
  with_answers (with_answers q l1) l2 = with_answers q (l1 ++ l2).
Proof. unfold with_answers. simpl. now rewrite app_assoc. Qed.

Lemma add_answer_ok (g : Q) (q : Question) (c : ascii) (x : str) :
  add_answer g q (c :: x)
  = Ok (with_answers q (parsed_answer g (correct_answers_no q) (c :: x))).
Proof.
  unfold add_answer, parsed_answer. simpl.
  destruct (is_plus c); [reflexivity|].
  destruct (is_minus c); [|now rewrite with_answers_nil].
  now destruct (1 <? correct_answers_no q).
Qed.

(** The loop over answer lines that are not empty never raises. *)
Lemma for_each_add_answer_ok (g : Q) (lines : list str) :
  forall q n,
  count_correct lines = Ok n ->
  for_each (add_answer g) lines q
  = Ok (with_answers q (parsed_answers g (correct_answers_no q) lines)).
Proof.
  induction lines as [|l lines IH]; intros q n Hn.
  - simpl. now rewrite with_answers_nil.
  - simpl in Hn. destruct l as [|c x]; [discriminate|]. simpl in Hn.
    destruct (count_correct lines) as [k|e] eqn:Ek; [|discriminate].
    change (for_each (add_answer g) ((c :: x) :: lines) q)
      with (st' <- add_answer g q (c :: x) ;;
            for_each (add_answer g) lines st').
    rewrite add_answer_ok. simpl bind.
    rewrite (IH _ k eq_refl). rewrite with_answers_app. reflexivity.
Qed.

Lemma set_meta_keeps_all (q q' : Question) (key value : str) :
  set_meta q key value = Ok q' ->
  name q' = name q /\ answers q' = answers q
  /\ correct_answers_no q' = correct_answers_no q
  /\ exists md', metadata q' = Some md'.
Proof.
  unfold set_meta. destruct (metadata q) as [md|]; [|discriminate].
  destruct (dict_get _ key); [|discriminate].
  intros H. injection H as <-. repeat split. eexists. reflexivity.
Qed.

Lemma add_meta_keeps_all (q q' : Question) (meta : str) :
  add_meta q meta = Ok q' ->
  name q' = name q /\ answers q' = answers q
  /\ correct_answers_no q' = correct_answers_no q
  /\ exists md', metadata q' = Some md'.
Proof.
  unfold add_meta.
  destruct (list_index (split $"=" meta) 0) as [tag|e]; simpl; [|discriminate].
  destruct (list_index (split $"=" meta) 1) as [value|e]; simpl;
    [|discriminate].
  apply set_meta_keeps_all.
Qed.

(** The sections after the answers are read without raising and leave the
    name, the answers and their count as they are. *)
Lemma parse_tail (tail : list str) :
  forall q md,
  metadata q = Some md -> Forall tail_ok tail ->
  exists q', for_each parse_field tail q = Ok q'
    /\ name q' = name q /\ answers q' = answers q
    /\ correct_answers_no q' = correct_answers_no q.
Proof.
  induction tail as [|f tail IH]; intros q md Hmd Htail.
  - exists q. now repeat split.
  - inversion Htail as [|? ? Hf Hrest]; subst. simpl.
    destruct Hf as [Hf|[Hf Hlines]].
    + rewrite (parse_field_feedback q f Hf). simpl.
      destruct (IH (set_feedback q (join [nl] (rest_lines f))) md Hmd Hrest)
        as [q' [Hq' [H1 [H2 H3]]]].
      exists q'. now repeat split.
    + rewrite (parse_field_metadata q f Hf).
      destruct (for_each_add_meta _ q md Hmd Hlines) as [q1 [Hq1 _]].
      rewrite Hq1. simpl.
      assert (Hkeep : (name q1 = name q /\ answers q1 = answers q
                       /\ correct_answers_no q1 = correct_answers_no q)
                      /\ exists md1, metadata q1 = Some md1).
      { revert Hq1.
        apply (for_each_invariant
                 (fun q1 => (name q1 = name q /\ answers q1 = answers q
                             /\ correct_answers_no q1 = correct_answers_no q)
                            /\ exists md1, metadata q1 = Some md1)
                 add_meta).
        - intros st x st' [[H1 [H2 H3]] _] Hx.
          apply add_meta_keeps_all in Hx. destruct Hx as [K1 [K2 [K3 K4]]].
          split; [|assumption]. repeat split; congruence.
        - split; [now repeat split|]. now exists md. }
      destruct Hkeep as [[K1 [K2 K3]] [md1 Hmd1]].
      destruct (IH q1 md1 Hmd1 Hrest) as [q' [Hq' [H1 [H2 H3]]]].
      exists q'. repeat split; congruence.
Qed.

(** ** Sections of a normalised text *)

Lemma content_line_startswith (l : str) :
  content_line l -> startswith $"## " l = false.
Proof. intros [_ [H _]]. now apply marker_free_startswith. Qed.

Lemma fields_of_sections (secs : list (str * list str)) :
  forall cur,
  Forall (fun s => Forall content_line (snd s)) secs ->
  fields_of cur (sections_lines secs) = fields_from cur secs.
Proof.
  induction secs as [|[h ls] secs IH]; intros cur Hsecs; [reflexivity|].
  inversion Hsecs as [|? ? Hls Hrest]; subst. simpl in Hls.
  change (sections_lines ((h, ls) :: secs))
    with (($"## " ++ h) :: ls ++ sections_lines secs).
  rewrite fields_of_cons, startswith_app.
  change (slice_from 3 ($"## " ++ h)) with h.
  rewrite fields_of_content.
  - simpl fields_from. now rewrite IH.
  - eapply Forall_impl; [|exact Hls]. apply content_line_startswith.
Qed.

Lemma line_ok_content (l : str) : content_line l -> line_ok l.
Proof.
  intros Hl. unfold line_ok. rewrite content_line_startswith by assumption.
  now destruct Hl as [_ [H _]].
Qed.

Lemma sections_lines_ok (secs : list (str * list str)) :
  Forall (fun s => marker_free (fst s) /\ single_line (fst s)
                   /\ Forall content_line (snd s)) secs ->
  Forall line_ok (sections_lines secs)
  /\ Forall single_line (sections_lines secs).
Proof.
  induction 1 as [|[h ls] secs [Hm [Hs Hls]] Hsecs [IH1 IH2]].
  - split; constructor.
  - cbn [fst snd] in *.
    change (sections_lines ((h, ls) :: secs))
      with (($"## " ++ h) :: ls ++ sections_lines secs).
    split.
    + constructor.
      * unfold line_ok. rewrite startswith_app.
        change (slice_from 3 ($"## " ++ h)) with h. exact Hm.
      * apply Forall_app. split; [|assumption].
        eapply Forall_impl; [|exact Hls]. apply line_ok_content.
    + constructor.
      * apply single_line_app. now split.
      * apply Forall_app. split; [|assumption].
        eapply Forall_impl; [|exact Hls]. now intros l [H _].
Qed.

Lemma content_lines_single (ls : list str) :
  Forall content_line ls -> Forall single_line ls.
Proof. apply Forall_impl. now intros l [H _]. Qed.

Lemma content_lines_nonempty (ls : list str) :
  Forall content_line ls -> Forall (fun l => single_line l /\ l <> []) ls.
Proof. apply Forall_impl. now intros l [H [_ H']]. Qed.

(** The field of a section, with or without the newline before the next
    heading, gives back the name and the lines of the section. *)
Lemma section_field (h : str) (ls : list str) (sfx : str) :
  single_line h -> h <> [] -> Forall content_line ls ->
  sfx = [] \/ sfx = [nl] ->
  first_line ((h ++ nl_lines ls) ++ sfx) = h
  /\ rest_lines (rstrip_by is_nl ((h ++ nl_lines ls) ++ sfx)) = ls.
Proof.
  intros Hh Hne Hls [->| ->].
  - rewrite app_nil_r. split.
    + apply first_line_nl_lines; [assumption|].
      now apply content_lines_single.
    + rewrite rstrip_nl_lines;
        [apply rest_lines_nl_lines| | |]; try assumption;
        (now apply content_lines_single) || now apply content_lines_nonempty.
  - split.
    + apply first_line_nl_lines_nl; [assumption|].
      now apply content_lines_single.
    + rewrite rstrip_nl_lines_nl;
        [apply rest_lines_nl_lines| | |]; try assumption;
        (now apply content_lines_single) || now apply content_lines_nonempty.
Qed.

Lemma next_suffix_cases (secs : list (str * list str)) :
  next_suffix secs = [] \/ next_suffix secs = [nl].
Proof. destruct secs; [now left|now right]. Qed.

Lemma fields_from_tail (secs : list (str * list str)) :
  forall cur,
  Forall section_ok secs ->
  exists tf,
    fields_from cur secs = (cur ++ next_suffix secs) :: tf
    /\ Forall tail_ok tf
    /\ (secs = [] -> tf = [])
    /\ (forall F, secs = [($"Feedback", F)] ->
                  tf = [$"Feedback" ++ nl_lines F]).
Proof.
  induction secs as [|[h ls] secs IH]; intros cur Hsecs.
  - exists []. simpl. rewrite app_nil_r. repeat split.
    + constructor.
    + intros F H. discriminate.
  - inversion Hsecs as [|? ? [Hh Hls] Hrest]; subst. simpl in Hh, Hls.
    destruct (IH (h ++ nl_lines ls) Hrest) as [tf [Hf [Htf [Hnil Hfb]]]].
    exists (((h ++ nl_lines ls) ++ next_suffix secs) :: tf).
    cbn [fields_from fst snd]. rewrite Hf. repeat split.
    + constructor; [|assumption].
      assert (Hname : single_line h /\ h <> []).
      { destruct Hh as [->|[-> _]]; split; (reflexivity || discriminate). }
      destruct Hname as [Hs Hne].
      destruct (section_field h ls (next_suffix secs) Hs Hne Hls
                  (next_suffix_cases secs)) as [H1 H2].
      unfold tail_ok. rewrite H1, H2.
      destruct Hh as [Hh|[Hh Heq]]; [now left|now right].
    + discriminate.
    + intros F H. injection H as -> -> ->. rewrite (Hnil eq_refl).
      simpl. now rewrite app_nil_r.
Qed.

(** ** The validator on a normalised text *)

Lemma check_md_q_ok (md_q nm f0 fQT fQA : str) (tail : list str)
    (lines : list str) (n : nat) :
  first_line md_q = $"# " ++ nm ->
  split $"## " md_q = f0 :: fQT :: fQA :: tail ->
  startswith $"Question Answers" f0 = false ->
  first_line fQT = $"Question Text" ->
  startswith $"Question Answers" fQT = false ->
  first_line fQA = $"Question Answers" ->
  startswith $"Question Answers" fQA = true ->
  rest_lines (rstrip_by is_nl fQA) = lines ->
  count_correct lines = Ok n -> 1 <= n ->
  check_md_q md_q = Ok tt.
Proof.
  intros Ht Hs H0 H1 H1' H2 H2' Hl Hc Hn. unfold check_md_q.
  rewrite Ht, startswith_app, Hs.
  change (negb true) with false. cbv iota.
  cbn [tl map existsb filter]. rewrite H1, H2, H0, H1', H2'.
  rewrite !str_eqb_refl. rewrite orb_true_r.
  change (negb true) with false.
  change (false || false) with false. cbv iota.
  cbn [map]. unfold list_index at 1. cbn [nth_error bind].
  rewrite Hl, Hc. cbn [bind].
  destruct n as [|n]; [lia|]. reflexivity.
Qed.

(** ** Reading a normalised question *)

Lemma marker_free_title (nm : str) :
  marker_free nm -> marker_free ($"# " ++ nm).
Proof.
  unfold marker_free. intros H.
  change ($"# " ++ nm) with ("#"%char :: " "%char :: nm).
  change (occurs $"## " ("#"%char :: " "%char :: nm))
    with (startswith $"## " ("#"%char :: " "%char :: nm)
          || (startswith $"## " (" "%char :: nm) || occurs $"## " nm)).
  now rewrite H.
Qed.

Lemma section_name_ok (s : str * list str) :
  section_ok s ->
  marker_free (fst s) /\ single_line (fst s) /\ Forall content_line (snd s).
Proof.
  intros [[H|[H _]] Hls]; rewrite H; repeat split; assumption.
Qed.

Lemma one_over_pos (n : nat) :
  1 <= n -> one_over n = Ok (1 # Pos.of_nat n)%Q.
Proof. destruct n; [lia|reflexivity]. Qed.

(** A normalised question passes the validator and is read into a record
    with its title as name and the answers of its answer lines. *)
Lemma parse_normal_form (nm : str) (tlines alines : list str)
    (secs : list (str * list str)) (n : nat) :
  single_line nm -> marker_free nm ->
  Forall content_line tlines -> Forall content_line alines ->
  Forall section_ok secs ->
  count_correct alines = Ok n -> 1 <= n ->
  exists q,
    check_md_q (normal_text nm tlines alines secs) = Ok tt
    /\ for_each parse_field
         (split $"## " (normal_text nm tlines alines secs))
         (set_name new_question
            (slice_from 2 (first_line (normal_text nm tlines alines secs))))
       = Ok q
    /\ name q = nm
    /\ answers q = parsed_answers (1 # Pos.of_nat n) n alines
    /\ correct_answers_no q = n
    /\ (secs = [] -> feedback q = Some [])
    /\ (forall F, secs = [($"Feedback", F)] -> feedback q = Some (join [nl] F)).
Proof.
  intros Hnm1 Hnm2 Ht Ha Hsecs Hcount Hn.
  set (all := ($"Question Text", tlines) :: ($"Question Answers", alines)
              :: secs).
  assert (Hall : Forall (fun s => marker_free (fst s) /\ single_line (fst s)
                                  /\ Forall content_line (snd s)) all).
  { repeat constructor; try assumption.
    eapply Forall_impl; [|exact Hsecs]. apply section_name_ok. }
  destruct (sections_lines_ok all Hall) as [Hok Hsingle].
  assert (Htitle1 : single_line ($"# " ++ nm))
    by (apply single_line_app; now split).
  pose proof (marker_free_title nm Hnm2) as Htitle2.
  assert (Hfirst : first_line (normal_text nm tlines alines secs)
                   = $"# " ++ nm)
    by now apply first_line_nl_lines.
  destruct (fields_from_tail secs ($"Question Answers" ++ nl_lines alines)
              Hsecs) as [tf [Htf [Htail [Hnil Hfb]]]].
  assert (Hsplit : split $"## " (normal_text nm tlines alines secs)
                   = ((($"# " ++ nm) ++ nl_lines []) ++ [nl])
                     :: (($"Question Text" ++ nl_lines tlines) ++ [nl])
                     :: (($"Question Answers" ++ nl_lines alines)
                           ++ next_suffix secs)
                     :: tf).
  { unfold normal_text. fold all.
    rewrite split_fields by assumption.
    rewrite fields_of_sections
      by (eapply Forall_impl; [|exact Hall]; now intros s [_ [_ H]]).
    unfold all. cbn [fields_from fst snd]. rewrite Htf.
    change (nl_lines []) with (@nil ascii). now rewrite app_nil_r. }
  destruct (section_field ($"# " ++ nm) [] [nl] Htitle1 ltac:(discriminate)
              (Forall_nil _) (or_intror eq_refl)) as [H0 _].
  destruct (section_field $"Question Text" tlines [nl] eq_refl
              ltac:(discriminate) Ht (or_intror eq_refl)) as [H1 _].
  destruct (section_field $"Question Answers" alines (next_suffix secs)
              eq_refl ltac:(discriminate) Ha (next_suffix_cases secs))
    as [H2 H2'].
  set (f0 := (($"# " ++ nm) ++ nl_lines []) ++ [nl]) in *.
  set (fQT := ($"Question Text" ++ nl_lines tlines) ++ [nl]) in *.
  set (fQA := ($"Question Answers" ++ nl_lines alines) ++ next_suffix secs)
    in *.
  assert (Hcheck : check_md_q (normal_text nm tlines alines secs) = Ok tt).
  { apply (check_md_q_ok _ nm f0 fQT fQA tf alines n); try assumption.
    - reflexivity.
    - reflexivity.
    - unfold fQA. rewrite <- app_assoc. apply startswith_app. }
  rewrite Hsplit, Hfirst.
  change (slice_from 2 ($"# " ++ nm)) with nm.
  cbn [for_each].
  rewrite (parse_field_title _ f0 (" "%char :: nm) H0). cbn [bind].
  rewrite (parse_field_text _ fQT H1). cbn [bind].
  rewrite (parse_field_answers_eq _ fQA H2), H2', Hcount. cbn [bind].
  cbn [correct_answers_no set_correct_answers_no].
  rewrite (one_over_pos n Hn). cbn [bind].
  rewrite (for_each_add_answer_ok _ alines _ n Hcount). cbn [bind].
  set (q2 := with_answers _ _).
  destruct (parse_tail tf q2 [] eq_refl Htail) as [q [Hq [K1 [K2 K3]]]].
  exists q. split; [exact Hcheck|]. split; [exact Hq|].
  split; [now rewrite K1|]. split; [now rewrite K2|]. split; [now rewrite K3|].
  split.
  - intros Hs. rewrite (Hnil Hs) in Hq. simpl in Hq. now injection Hq as <-.
  - intros F Hs. rewrite (Hfb F Hs) in Hq.
    assert (HF : Forall single_line F).
    { rewrite Hs in Hsecs. inversion Hsecs as [|? ? [_ HF] _].
      now apply content_lines_single. }
    cbn [for_each] in Hq.
    rewrite parse_field_feedback in Hq
      by (apply first_line_nl_lines; [reflexivity|assumption]).
    rewrite rest_lines_nl_lines in Hq by (reflexivity || assumption).
    cbn [bind] in Hq. injection Hq as <-. reflexivity.
Qed.

(** ** The text of a serialised record *)

Lemma fold_left_append {A : Type} (f : A -> str) (l : list A) (acc : str) :
  fold_left (fun acc a => acc ++ f a) l acc = acc ++ concat (map f l).
Proof.
  revert acc. induction l as [|a l IH]; intros acc; simpl.
  - now rewrite app_nil_r.
  - now rewrite IH, <- app_assoc.
Qed.

Lemma get_meta_total (q : Question) (md : meta_dict) (key : str) :
  metadata q = Some md -> exists v, get_meta q key = Ok (v, q).
Proof.
  intros H. unfold get_meta. rewrite H.
  destruct (dict_get md key) as [[|v [|w vs]]|]; eexists; reflexivity.
Qed.

Lemma for_each_meta_lines (str_of_list : list str -> str) (r : Question)
    (md : meta_dict) (tags : list str) :
  metadata r = Some md ->
  forall acc,
  for_each
    (fun md_q json_tag =>
       v <- get_meta r json_tag ;;
       Ok (md_q ++ (json_tag ++ $"="
                    ++ str_of_meta str_of_list (fst v) ++ [nl; nl])))
    tags acc
  = Ok (acc ++ blocks (map (meta_line str_of_list r) tags)).
Proof.
  intros Hmd. induction tags as [|tag tags IH]; intros acc.
  - simpl. now rewrite app_nil_r.
  - cbn [for_each map]. rewrite blocks_cons.
    destruct (get_meta_total r md tag Hmd) as [v Hv].
    unfold meta_line at 1, meta_text. rewrite Hv. cbn [bind fst].
    rewrite IH. f_equal. rewrite <- !app_assoc. reflexivity.
Qed.

Lemma answers_blocks (l : list Answer) :
  concat (map (fun a => (if correct a then $"+" else $"-")
                        ++ $" " ++ a_statement a ++ [nl; nl]) l)
  = blocks (map answer_line l).
Proof.
  induction l as [|a l IH]; [reflexivity|].
  cbn [map concat]. rewrite blocks_cons, IH. unfold answer_line.
  repeat (rewrite <- app_assoc || rewrite <- app_comm_cons). reflexivity.
Qed.

(** [json_to_md] writes the title and the lines of the record, each
    followed by a blank line, and one more newline. *)
Lemma json_to_md_eq (str_of_list : list str -> str) (r : Question) :
  json_to_md str_of_list r
  = Ok (($"# " ++ name r) ++ nl :: nl
        :: blocks (body_lines str_of_list r) ++ [nl]).
Proof.
  unfold json_to_md, body_lines, head_lines, feedback_lines, metadata_lines.
  rewrite fold_left_append, answers_blocks.
  destruct (metadata r) as [md|] eqn:Hmd.
  - rewrite (for_each_meta_lines str_of_list r md (map fst md) Hmd).
    cbn [bind]. f_equal.
    destruct (feedback r) as [fb|];
      rewrite !blocks_app, ?blocks_cons;
      change (blocks []) with (@nil ascii);
      repeat (rewrite <- app_assoc || rewrite <- app_comm_cons);
      reflexivity.
  - cbn [bind]. f_equal.
    destruct (feedback r) as [fb|];
      rewrite !blocks_app, ?blocks_cons;
      change (blocks []) with (@nil ascii);
      repeat (rewrite <- app_assoc || rewrite <- app_comm_cons);
      reflexivity.
Qed.

(** ** Lines of a well-formed record *)

Lemma lstrip_by_split (f : ascii -> bool) (s : str) :
  exists w, s = w ++ lstrip_by f s /\ Forall (fun c => f c = true) w.
Proof.
  induction s as [|c s [w [Hw Hall]]]; simpl.
  - exists []. now split.
  - destruct (f c) eqn:E.
    + exists (c :: w). split; [simpl; now f_equal|now constructor].
    + exists []. now split.
Qed.

Lemma rstrip_by_split (f : ascii -> bool) (s : str) :
  exists w, s = rstrip_by f s ++ w /\ Forall (fun c => f c = true) w.
Proof.
  unfold rstrip_by. destruct (lstrip_by_split f (rev s)) as [w [Hw Hall]].
  exists (rev w). split; [|now apply Forall_rev].
  rewrite <- rev_app_distr, <- Hw. now rewrite rev_involutive.
Qed.

(** [rstrip] keeps a character that is not white space. *)
Lemma has_char_rstrip (c : ascii) (l : str) :
  is_space c = false -> has_char c l = true -> has_char c (rstrip l) = true.
Proof.
  intros Hc Hl. destruct (rstrip_by_split is_space l) as [w [Hw Hall]].
  fold (rstrip l) in Hw. rewrite Hw in Hl. unfold has_char in *.
  rewrite existsb_app in Hl. apply orb_true_iff in Hl as [Hl|Hl];
    [assumption|].
  apply existsb_exists in Hl as [d [Hd Hcd]]. apply Ascii.eqb_eq in Hcd.
  subst d. rewrite Forall_forall in Hall. specialize (Hall c Hd). congruence.
Qed.

Lemma has_char_nonempty (c : ascii) (l : str) :
  has_char c l = true -> l <> [].
Proof. now destruct l. Qed.

Lemma marker_free_rstrip (l : str) : marker_free l -> marker_free (rstrip l).
Proof.
  unfold marker_free. intros H.
  destruct (rstrip_by_prefix is_space l) as [b Hb]. fold (rstrip l) in Hb.
  rewrite Hb in H. now apply occurs_app_false in H as [H _].
Qed.

Lemma tidy_cons_fixed (l : str) (rest : list str) :
  rstrip l = l -> l <> [] -> tidy (l :: rest) = l :: tidy rest.
Proof.
  intros Hr Hne. simpl. rewrite Hr.
  destruct (tidy rest); destruct l; congruence || reflexivity.
Qed.

Lemma tidy_single (l : str) :
  rstrip l <> [] -> tidy [l] = [rstrip l].
Proof. intros H. simpl. destruct (rstrip l); [congruence|reflexivity]. Qed.

Lemma tidy_Forall (P : str -> Prop) (ls : list str) :
  (forall l, P l -> P (rstrip l)) ->
  Forall P ls -> Forall P (tidy ls).
Proof.
  intros HP. induction 1 as [|l ls Hl Hls IH]; simpl; [constructor|].
  destruct (tidy ls) as [|t ts].
  - destruct (rstrip l) eqn:E; [constructor|].
    rewrite <- E. constructor; [now apply HP|constructor].
  - destruct (nonempty l); [now constructor|assumption].
Qed.

Lemma filter_nonempty_id (ls : list str) :
  Forall (fun l => l <> []) ls -> filter nonempty ls = ls.
Proof.
  induction 1 as [|l ls Hl Hls IH]; [reflexivity|].
  simpl. rewrite IH. now destruct l.
Qed.

Lemma filter_nonempty_content (l : str) :
  plain l -> Forall content_line (filter nonempty [l]).
Proof.
  intros [H1 H2]. destruct l as [|c l]; simpl; [constructor|].
  repeat constructor; try assumption. discriminate.
Qed.

Lemma join_filter_nonempty (l : str) : join [nl] (filter nonempty [l]) = l.
Proof. now destruct l. Qed.

Lemma marker_free_cons2 (c d : ascii) (s : str) :
  startswith $"## " (c :: d :: s) = false ->
  startswith $"## " (d :: s) = false ->
  marker_free s -> marker_free (c :: d :: s).
Proof.
  unfold marker_free. intros H1 H2 H3.
  change (occurs $"## " (c :: d :: s))
    with (startswith $"## " (c :: d :: s)
          || (startswith $"## " (d :: s) || occurs $"## " s)).
  now rewrite H1, H2, H3.
Qed.

Lemma answer_line_cons (a : Answer) :
  answer_line a
  = (if correct a then "+"%char else "-"%char) :: " "%char :: a_statement a.
Proof. unfold answer_line. now destruct (correct a). Qed.

Lemma answer_line_content (a : Answer) :
  plain (a_statement a) -> content_line (answer_line a).
Proof.
  intros [H1 H2]. rewrite answer_line_cons. repeat split.
  - apply single_line_cons. split; [now destruct (correct a)|].
    apply single_line_cons. now split.
  - apply marker_free_cons2; [now destruct (correct a)|reflexivity|assumption].
  - discriminate.
Qed.

Lemma answer_line_rstrip_content (a : Answer) :
  plain (a_statement a) -> content_line (rstrip (answer_line a)).
Proof.
  intros H. destruct (answer_line_content a H) as [H1 [H2 _]].
  repeat split.
  - now apply rstrip_by_single_line.
  - now apply marker_free_rstrip.
  - apply (has_char_nonempty (if correct a then "+"%char else "-"%char)).
    apply has_char_rstrip; [now destruct (correct a)|].
    rewrite answer_line_cons. unfold has_char. simpl.
    now rewrite Ascii.eqb_refl.
Qed.

(** The first line of an answer, stripped or not, begins with its sign. *)
Lemma rstrip_answer_line (a : Answer) :
  no_trailing_space (a_statement a) ->
  rstrip (answer_line a)
  = match a_statement a with
    | [] => [if correct a then "+"%char else "-"%char]
    | _ :: _ => answer_line a
    end.
Proof.
  unfold no_trailing_space. intros H. rewrite answer_line_cons.
  destruct (a_statement a) as [|c s] eqn:E.
  - now destruct (correct a).
  - destruct (@exists_last _ (c :: s)) as [t [d Hd]]; [discriminate|].
    rewrite Hd in *.
    pose proof (rstrip_by_last is_space _ t d H) as Hsp.
    change ((if correct a then "+"%char else "-"%char)
              :: " "%char :: t ++ [d])
      with (((if correct a then "+"%char else "-"%char)
               :: " "%char :: t) ++ [d]).
    now apply rstrip_by_fixed.
Qed.

Lemma parsed_answer_line (n : nat) (a : Answer) :
  1 <= n -> grade_rule n a ->
  parsed_answer (1 # Pos.of_nat n) n (answer_line a) = [a].
Proof.
  intros Hn [G1 [G2 G3]]. rewrite answer_line_cons.
  destruct a as [stmt c g]. simpl in *. destruct c; simpl.
  - now rewrite (G1 eq_refl).
  - destruct (1 <? n) eqn:E.
    + apply Nat.ltb_lt in E. now rewrite (G2 eq_refl E).
    + apply Nat.ltb_ge in E. assert (n = 1) by lia.
      now rewrite (G3 eq_refl H).
Qed.

Lemma parsed_answer_rstrip (g : Q) (n : nat) (a : Answer) :
  no_trailing_space (a_statement a) ->
  parsed_answer g n (rstrip (answer_line a))
  = parsed_answer g n (answer_line a)
  /\ char0 (rstrip (answer_line a)) = char0 (answer_line a).
Proof.
  intros H. rewrite (rstrip_answer_line a H), answer_line_cons.
  destruct (a_statement a); [|now split].
  now destruct (correct a).
Qed.

Lemma parsed_answers_lines (n : nat) (l : list Answer) :
  1 <= n -> Forall (grade_rule n) l ->
  parsed_answers (1 # Pos.of_nat n) n (map answer_line l) = l.
Proof.
  intros Hn. induction 1 as [|a l Ha Hl IH]; [reflexivity|].
  unfold parsed_answers in *. cbn [map flat_map].
  now rewrite IH, (parsed_answer_line n a Hn Ha).
Qed.

Lemma count_correct_lines (l : list Answer) :
  count_correct (map answer_line l) = Ok (correct_count l).
Proof.
  induction l as [|a l IH]; [reflexivity|].
  cbn [map count_correct]. rewrite IH, answer_line_cons. cbn [char0 bind].
  unfold correct_count. simpl. now destruct (correct a).
Qed.

Lemma count_correct_last (l : list str) (x y : str) :
  char0 x = char0 y -> count_correct (l ++ [x]) = count_correct (l ++ [y]).
Proof.
  intros H. induction l as [|z l IH]; simpl; [now rewrite H|].
  now rewrite IH.
Qed.

Lemma parsed_answers_app (g : Q) (n : nat) (l1 l2 : list str) :
  parsed_answers g n (l1 ++ l2)
  = parsed_answers g n l1 ++ parsed_answers g n l2.
Proof. unfold parsed_answers. apply flat_map_app. Qed.

Lemma sections_lines_app (a b : list (str * list str)) :
  sections_lines (a ++ b) = sections_lines a ++ sections_lines b.
Proof. apply flat_map_app. Qed.

Lemma sections_lines_cons (s : str * list str) (rest : list (str * list str)) :
  sections_lines (s :: rest)
  = (($"## " ++ fst s) :: snd s) ++ sections_lines rest.
Proof. reflexivity. Qed.

Lemma sections_lines_single (h : str) (ls : list str) :
  sections_lines [(h, ls)] = ($"## " ++ h) :: ls.
Proof.
  rewrite sections_lines_cons. cbn [fst snd].
  change (sections_lines []) with (@nil str). now rewrite app_nil_r.
Qed.

Lemma sections_lines_two (a b : str * list str)
    (c : list (str * list str)) :
  sections_lines (a :: b :: c) = sections_lines [a; b] ++ sections_lines c.
Proof. apply (sections_lines_app [a; b] c). Qed.

Lemma sections_lines_snoc (a : str * list str) (h : str) (ls more : list str) :
  sections_lines [a; (h, ls ++ more)] = sections_lines [a; (h, ls)] ++ more.
Proof.
  rewrite !sections_lines_cons. cbn [fst snd].
  change (sections_lines []) with (@nil str). rewrite !app_nil_r.
  now rewrite <- app_assoc.
Qed.

Lemma answer_lines_nonempty (l : list Answer) :
  Forall (fun x => x <> []) (map answer_line l).
Proof.
  apply Forall_map. apply Forall_forall. intros a _.
  rewrite answer_line_cons. discriminate.
Qed.

Lemma answer_lines_content (l : list Answer) :
  Forall (fun a => plain (a_statement a)) l ->
  Forall content_line (map answer_line l).
Proof.
  intros H. apply Forall_map. eapply Forall_impl; [|exact H].
  apply answer_line_content.
Qed.

(** The first lines of a serialised record, without the empty ones, are
    the text section and the answers section. *)
Lemma head_lines_sections (r : Question) (alines : list str) :
  Forall (fun x => x <> []) alines ->
  filter nonempty ([$"## Question Text"; statement r; $"## Question Answers"]
                   ++ alines)
  = sections_lines [($"Question Text", filter nonempty [statement r]);
                    ($"Question Answers", alines)].
Proof.
  intros Ha. rewrite filter_app, (filter_nonempty_id alines Ha).
  rewrite !sections_lines_cons. cbn [fst snd].
  change (sections_lines []) with (@nil str). rewrite app_nil_r.
  now destruct (statement r).
Qed.

Lemma feedback_lines_sections (r : Question) :
  filter nonempty (feedback_lines r)
  = sections_lines
      match feedback r with
      | Some fb => [($"Feedback", filter nonempty [fb])]
      | None => []
      end.
Proof.
  unfold feedback_lines. destruct (feedback r) as [fb|]; [|reflexivity].
  rewrite sections_lines_cons. cbn [fst snd].
  change (sections_lines []) with (@nil str). rewrite app_nil_r.
  now destruct fb.
Qed.

Lemma meta_line_has_equals (str_of_list : list str -> str) (r : Question)
    (tag : str) :
  has_char equals_sign (meta_line str_of_list r tag) = true.
Proof.
  unfold meta_line, has_char. rewrite existsb_app. apply orb_true_iff. right.
  reflexivity.
Qed.

Lemma body_lines_single (str_of_list : list str -> str) (r : Question) :
  well_formed str_of_list r -> Forall single_line (body_lines str_of_list r).
Proof.
  intros W. unfold body_lines, head_lines, feedback_lines, metadata_lines.
  apply Forall_app. split; [apply Forall_app; split|apply Forall_app; split].
  - constructor; [reflexivity|].
    constructor; [apply (wf_statement _ _ W)|].
    constructor; [reflexivity|constructor].
  - apply content_lines_single. apply answer_lines_content.
    apply (wf_answers _ _ W).
  - destruct (feedback r) as [fb|] eqn:E; [|constructor].
    constructor; [reflexivity|].
    constructor; [apply (wf_feedback _ _ W fb E)|constructor].
  - destruct (metadata r) as [md|] eqn:E; [|constructor].
    constructor; [reflexivity|].
    apply Forall_map. eapply Forall_impl; [|exact (wf_metadata _ _ W md E)].
    intros tag H. exact (proj1 H).
Qed.

Lemma split_last_answer (l : list Answer) :
  1 <= correct_count l -> exists l' a, l = l' ++ [a].
Proof.
  intros H. destruct l as [|a0 l0]; [unfold correct_count in H; simpl in H; lia|].
  destruct (@exists_last _ (a0 :: l0)) as [l' [a Ha]]; [discriminate|].
  now exists l', a.
Qed.

(** What normalisation leaves of the lines of a well-formed record: the
    text section, the answers section and the sections after them. *)
Lemma tidy_body (str_of_list : list str -> str) (r : Question) :
  well_formed str_of_list r ->
  exists alines secs,
    tidy (body_lines str_of_list r)
    = sections_lines (($"Question Text", filter nonempty [statement r])
                      :: ($"Question Answers", alines) :: secs)
    /\ Forall content_line alines
    /\ Forall section_ok secs
    /\ count_correct alines = Ok (correct_answers_no r)
    /\ parsed_answers (1 # Pos.of_nat (correct_answers_no r))
                      (correct_answers_no r) alines
       = answers r
    /\ (metadata r = None ->
        secs = match feedback r with
               | Some fb => [($"Feedback", filter nonempty [fb])]
               | None => []
               end).
Proof.
  intros W.
  pose proof (wf_answers _ _ W) as Hans.
  pose proof (wf_correct _ _ W) as Hpos.
  pose proof (wf_grades _ _ W) as Hgr.
  pose proof (wf_count _ _ W) as Hcnt.
  assert (Hfbs : Forall section_ok
                   match feedback r with
                   | Some fb => [($"Feedback", filter nonempty [fb])]
                   | None => []
                   end).
  { destruct (feedback r) as [fb|] eqn:E; [|constructor].
    constructor; [|constructor]. split; [now left|]. cbn [snd].
    apply filter_nonempty_content. apply (wf_feedback _ _ W fb E). }
  unfold body_lines.
  destruct (metadata r) as [md|] eqn:Hmd.
  - (* a metadata section ends the text *)
    exists (map answer_line (answers r)),
           (match feedback r with
            | Some fb => [($"Feedback", filter nonempty [fb])]
            | None => []
            end
            ++ [($"Metadata",
                 tidy (map (meta_line str_of_list r) (map fst md)))]).
    split; [|split; [|split; [|split; [|split]]]].
    + unfold metadata_lines. rewrite Hmd.
      rewrite app_assoc, tidy_app;
        rewrite tidy_cons_fixed by (reflexivity || discriminate);
        [|discriminate].
      rewrite filter_app. unfold head_lines.
      rewrite head_lines_sections by apply answer_lines_nonempty.
      rewrite feedback_lines_sections.
      rewrite (sections_lines_two _ _ (_ ++ [_])).
      rewrite sections_lines_app, sections_lines_single.
      rewrite <- app_assoc. reflexivity.
    + now apply answer_lines_content.
    + apply Forall_app. split; [assumption|].
      assert (HP : Forall (fun l => content_line l
                                    /\ has_char equals_sign l = true)
                     (tidy (map (meta_line str_of_list r) (map fst md)))).
      { apply tidy_Forall.
        - intros l [[H1 [H2 H3]] H4]. repeat split.
          + now apply rstrip_by_single_line.
          + now apply marker_free_rstrip.
          + apply (has_char_nonempty equals_sign).
            now apply has_char_rstrip.
          + now apply has_char_rstrip.
        - apply Forall_map.
          eapply Forall_impl; [|exact (wf_metadata _ _ W md Hmd)].
          intros tag [H1 H2].
          pose proof (meta_line_has_equals str_of_list r tag) as H3.
          repeat split; try assumption.
          now apply (has_char_nonempty equals_sign). }
      constructor; [|constructor]. split; cbn [fst snd].
      * right. split; [reflexivity|].
        eapply Forall_impl; [|exact HP]. now intros l [_ H].
      * eapply Forall_impl; [|exact HP]. now intros l [H _].
    + rewrite Hcnt. apply count_correct_lines.
    + now apply parsed_answers_lines.
    + discriminate.
  - pose proof (wf_end _ _ W Hmd) as Hend.
    unfold metadata_lines. rewrite Hmd, app_nil_r.
    destruct (feedback r) as [fb|] eqn:Hfb.
    + (* the feedback section ends the text *)
      exists (map answer_line (answers r)),
             [($"Feedback", filter nonempty [fb])].
      split; [|split; [|split; [|split; [|split]]]].
      * unfold feedback_lines. rewrite Hfb.
        assert (Ht : tidy [$"## Feedback"; fb]
                     = $"## Feedback" :: filter nonempty [fb]).
        { rewrite tidy_cons_fixed by (reflexivity || discriminate).
          f_equal. unfold no_trailing_space in Hend. simpl.
          rewrite Hend. now destruct fb. }
        rewrite tidy_app; rewrite Ht; [|discriminate].
        unfold head_lines.
        rewrite head_lines_sections by apply answer_lines_nonempty.
        rewrite (sections_lines_two _ _ [_]), sections_lines_single.
        reflexivity.
      * now apply answer_lines_content.
      * assumption.
      * rewrite Hcnt. apply count_correct_lines.
      * now apply parsed_answers_lines.
      * reflexivity.
    + (* the last answer ends the text *)
      rewrite Hcnt in Hpos.
      destruct (split_last_answer (answers r) Hpos) as [l' [a Hla]].
      rewrite Hla in *. unfold last_statement in Hend.
      rewrite rev_app_distr in Hend. simpl in Hend.
      apply Forall_app in Hans as [Hans' Ha].
      inversion Ha as [|? ? Hplain _]; subst.
      destruct (answer_line_rstrip_content a Hplain) as [C1 [C2 C3]].
      destruct (parsed_answer_rstrip
                  (1 # Pos.of_nat (correct_answers_no r))
                  (correct_answers_no r) a Hend) as [P1 P2].
      exists (map answer_line l' ++ [rstrip (answer_line a)]), [].
      split; [|split; [|split; [|split; [|split]]]].
      * unfold feedback_lines, head_lines.
        rewrite Hfb, Hla, app_nil_r, map_app.
        cbn [map]. rewrite !app_assoc.
        rewrite tidy_app; rewrite tidy_single by assumption; [|discriminate].
        rewrite head_lines_sections by apply answer_lines_nonempty.
        now rewrite sections_lines_snoc.
      * apply Forall_app. split; [now apply answer_lines_content|].
        now repeat constructor.
      * constructor.
      * rewrite (count_correct_last _ _ (answer_line a) P2).
        change [answer_line a] with (map answer_line [a]).
        rewrite <- map_app, Hcnt. apply count_correct_lines.
      * rewrite parsed_answers_app.
        assert (Hlast :
          parsed_answers (1 # Pos.of_nat (correct_answers_no r))
                         (correct_answers_no r) [rstrip (answer_line a)]
          = parsed_answers (1 # Pos.of_nat (correct_answers_no r))
                           (correct_answers_no r) (map answer_line [a])).
        { unfold parsed_answers. cbn [map flat_map]. now rewrite P1. }
        rewrite Hlast, <- parsed_answers_app, <- map_app.
        apply parsed_answers_lines; [|assumption].
        rewrite Hcnt. exact Hpos.
      * reflexivity.
Qed.

(** ** The round trip *)

(** C1, as the code has it: a well-formed record is serialised to a text
    that parses, and the record read back has the same name, the same
    answers in the same order, each with its statement, correct flag and
    grade, and the same count; when the record has no metadata it also has
    the same feedback, the empty string standing for a missing one. *)
Theorem json_to_md_then_md_to_json (str_of_list : list str -> str)
    (r : Question) :
  well_formed str_of_list r ->
  exists md_q q,
    json_to_md str_of_list r = Ok md_q
    /\ md_to_json_dict md_q = Ok q
    /\ name q = name r
    /\ answers q = answers r
    /\ correct_answers_no q = correct_answers_no r
    /\ (metadata r = None ->
        feedback q = Some match feedback r with
                          | Some fb => fb
                          | None => []
                          end).
Proof.
  intros W.
  destruct (tidy_body str_of_list r W)
    as [alines [secs [Htidy [Ha [Hsecs [Hcount [Hparsed Hfb]]]]]]].
  destruct (wf_name _ _ W) as [Hn1 Hn2].
  destruct (parse_normal_form (name r) (filter nonempty [statement r]) alines
              secs (correct_answers_no r) Hn1 Hn2
              (filter_nonempty_content _ (wf_statement _ _ W)) Ha Hsecs
              Hcount (wf_correct _ _ W))
    as [q [Hcheck [Hfor [Q1 [Q2 [Q3 [Q4 Q5]]]]]]].
  assert (Hnorm :
    normalise (($"# " ++ name r) ++ nl :: nl
               :: blocks (body_lines str_of_list r) ++ [nl])
    = normal_text (name r) (filter nonempty [statement r]) alines secs).
  { unfold normal_text. rewrite <- Htidy.
    change ($"# " ++ name r) with ("#"%char :: " "%char :: name r).
    apply normalise_tidy.
    - apply single_line_cons. split; [reflexivity|].
      apply single_line_cons. now split.
    - now apply body_lines_single.
    - rewrite Htidy, sections_lines_cons. discriminate. }
  eexists. exists q.
  split; [apply json_to_md_eq|].
  split.
  { unfold md_to_json_dict. rewrite Hnorm, Hcheck. exact Hfor. }
  split; [exact Q1|]. split; [now rewrite Q2|]. split; [exact Q3|].
  intros Hmd. specialize (Hfb Hmd).
  destruct (feedback r) as [fb|].
  - rewrite (Q5 _ Hfb). now rewrite join_filter_nonempty.
  - now apply Q4.
Qed.

Lemma sample_record_well_formed : well_formed no_list_text sample_record.
Proof.
  constructor.
  - now split.
  - now split.
  - intros f H. injection H as <-. now split.
  - repeat constructor.
  - intros d H. discriminate.
  - reflexivity.
  - apply le_n.
  - repeat constructor; simpl; intros; (reflexivity || discriminate || lia).
  - intros _. reflexivity.
Defined.

Lemma json_to_md_then_md_to_json_witness :
  well_formed no_list_text sample_record
  /\ exists md_q q,
       json_to_md no_list_text sample_record = Ok md_q
       /\ md_to_json_dict md_q = Ok q
       /\ name q = $"Q"
       /\ answers q = two_answers
       /\ correct_answers_no q = 1
       /\ (metadata sample_record = None -> feedback q = Some $"F").
Proof.
  split; [exact sample_record_well_formed|].
  exact (json_to_md_then_md_to_json no_list_text sample_record
           sample_record_well_formed).
Defined.

(** C1 as stated fails.  A name with a section marker inside it is a single
    line that begins with no marker, yet its text is cut at the marker and
    rejected by the validator; a feedback ending in a space comes back
    without the space. *)
Lemma round_trip_fails_as_stated :
  stated_well_formed marker_in_name_record
  /\ (exists md_q,
        json_to_md no_list_text marker_in_name_record = Ok md_q
        /\ md_to_json_dict md_q
           = Raise (NoCorrectAnswer $"x ## Question Answers"))
  /\ stated_well_formed trailing_space_record
  /\ (exists md_q q,
        json_to_md no_list_text trailing_space_record = Ok md_q
        /\ md_to_json_dict md_q = Ok q
        /\ feedback q = Some $"F"
        /\ feedback q <> feedback trailing_space_record).
Proof.
  assert (Hg : Forall (grade_rule 1) two_answers).
  { repeat constructor; simpl; intros; (reflexivity || discriminate || lia). }
  split; [|split; [|split]].
  - unfold stated_well_formed.
    split; [now repeat split|]. split; [now repeat split|].
    split; [intros f H; injection H as <-; now repeat split|].
    split; [repeat constructor|]. split; [reflexivity|].
    split; [apply le_n|exact Hg].
  - eexists. split; [vm_compute; reflexivity|]. vm_compute. reflexivity.
  - unfold stated_well_formed.
    split; [now repeat split|]. split; [now repeat split|].
    split; [intros f H; injection H as <-; now repeat split|].
    split; [repeat constructor|]. split; [reflexivity|].
    split; [apply le_n|exact Hg].
  - eexists. eexists. split; [vm_compute; reflexivity|].
    split; [vm_compute; reflexivity|]. split; [reflexivity|].
    vm_compute. discriminate.
Qed.

(** The statement is not part of the round trip proved above: the text
    section is read with the newline that ends it, so a statement that is
    not empty comes back with a newline appended. *)
Example statement_gains_newline :
  exists md_q q,
    json_to_md no_list_text sample_record = Ok md_q
    /\ md_to_json_dict md_q = Ok q
    /\ statement sample_record = $"S"
    /\ statement q = $"S" ++ [nl].
Proof.
  eexists. eexists. split; [vm_compute; reflexivity|].
  split; [vm_compute; reflexivity|]. now split.
Qed.

(** * Further properties *)

(** ** The metadata accessor, continued *)

(** X1: on a record that has a metadata dictionary, [set_meta] never
    raises, and [get_meta] on the tag just set returns the value alone when
    the tag held nothing, and the list of the old values followed by the
    new one otherwise; what [get_meta] returns for any other tag is
    unchanged. *)
Theorem get_meta_after_set_meta (q : Question) (md : meta_dict)
    (key value : str) :
  metadata q = Some md ->
  exists q',
    set_meta q key value = Ok q'
    /\ get_meta q' key
       = Ok (match dict_values md key with
             | [] => MetaStr value
             | _ :: _ => MetaList (dict_values md key ++ [value])
             end, q')
    /\ (forall key' v,
          key' <> key -> get_meta q key' = Ok (v, q) ->
          get_meta q' key' = Ok (v, q')).
Proof.
  intros Hmd. eexists. split; [apply (set_meta_eq q md key value Hmd)|].
  split.
  - unfold get_meta. cbn [metadata set_metadata].
    rewrite dict_get_set_same.
    destruct (dict_values md key) as [|v [|w vs]]; reflexivity.
  - intros key' v Hne. unfold get_meta. rewrite Hmd.
    cbn [metadata set_metadata].
    rewrite dict_get_set_other by congruence.
    destruct (dict_get md key') as [[|a [|b vs]]|];
      intros H; injection H as <-; reflexivity.
Qed.

Lemma get_meta_after_set_meta_witness :
  metadata two_values_record = Some [($"tag", [$"a"; $"b"])]
  /\ exists q',
       set_meta two_values_record $"tag" $"c" = Ok q'
       /\ get_meta q' $"tag" = Ok (MetaList [$"a"; $"b"; $"c"], q').
Proof.
  split; [reflexivity|].
  destruct (get_meta_after_set_meta two_values_record
              [($"tag", [$"a"; $"b"])] $"tag" $"c" eq_refl)
    as [q' [Hset [Hget _]]].
  exists q'. split; [exact Hset|]. exact Hget.
Defined.

Lemma dict_mem_In (d : meta_dict) (key : str) :
  dict_mem d key = true <-> In key (map fst d).
Proof.
  unfold dict_mem. induction d as [|[k v] d IH]; simpl.
  - split; [discriminate|tauto].
  - destruct (str_eqb k key) eqn:E.
    + apply str_eqb_eq in E. subst. split; [now left|reflexivity].
    + apply str_eqb_neq in E. rewrite IH. split; [now right|].
      intros [H|H]; [congruence|assumption].
Qed.

Lemma dict_set_keys (d : meta_dict) (key : str) (v : list str) :
  map fst (dict_set d key v)
  = if dict_mem d key then map fst d else map fst d ++ [key].
Proof.
  unfold dict_mem. induction d as [|[k w] d IH]; simpl; [reflexivity|].
  destruct (str_eqb k key) eqn:E; simpl; [reflexivity|].
  rewrite IH. now destruct (dict_get d key).
Qed.

Lemma dict_set_NoDup (d : meta_dict) (key : str) (v : list str) :
  NoDup (map fst d) -> NoDup (map fst (dict_set d key v)).
Proof.
  intros H. rewrite dict_set_keys.
  destruct (dict_mem d key) eqn:E; [assumption|].
  apply NoDup_app; [assumption|repeat constructor; intros []|].
  intros x Hx [<-|[]]. apply dict_mem_In in Hx. congruence.
Qed.

Lemma populated_tags_unique (q : Question) :
  populated q -> exists md, metadata q = Some md /\ NoDup (map fst md).
Proof.
  induction 1 as [q Hq|q q' key value Hp [md [Hmd Hnd]] Hset].
  - exists []. split; [assumption|constructor].
  - rewrite (set_meta_eq _ _ key value Hmd) in Hset. injection Hset as <-.
    eexists. split; [reflexivity|]. now apply dict_set_NoDup.
Qed.

(** X2: in every record [md_to_json] builds, the metadata dictionary is
    present, no tag occurs twice in it, and every tag holds at least one
    value. *)
Theorem md_to_json_dict_tags_unique (md_q : str) (q : Question) :
  md_to_json_dict md_q = Ok q ->
  exists md,
    metadata q = Some md
    /\ NoDup (map fst md)
    /\ Forall (fun kv => snd kv <> []) md.
Proof.
  intros H. apply md_to_json_dict_populated in H.
  destruct (populated_tags_unique q H) as [md [Hmd Hnd]].
  destruct (populated_values_nonempty q H) as [md' [Hmd' Hne]].
  exists md. split; [assumption|]. split; [assumption|]. congruence.
Qed.

Lemma md_to_json_dict_tags_unique_witness :
  exists q md,
    md_to_json_dict repeated_tag_block = Ok q
    /\ metadata q = Some md
    /\ NoDup (map fst md)
    /\ Forall (fun kv => snd kv <> []) md.
Proof.
  destruct (md_to_json_dict repeated_tag_block) as [q|e] eqn:E;
    [|vm_compute in E; discriminate].
  destruct (md_to_json_dict_tags_unique repeated_tag_block q E)
    as [md [H1 [H2 H3]]].
  exists q, md. repeat split; assumption.
Defined.

Lemma existsb_str_eqb_In (t : str) (l : list str) :
  existsb (str_eqb t) l = true <-> In t l.
Proof.
  rewrite existsb_exists. split.
  - intros [x [Hx E]]. apply str_eqb_eq in E. now subst.
  - intros H. exists t. split; [assumption|apply str_eqb_refl].
Qed.

Lemma meta_tags_set_meta (q q' : Question) (key value : str) :
  set_meta q key value = Ok q' ->
  (exists md, metadata q = Some md)
  /\ meta_tags q' = meta_tags q ++ new_tags (meta_tags q) [key].
Proof.
  unfold set_meta, meta_tags.
  destruct (metadata q) as [md|] eqn:Hmd; [|discriminate].
  intros H. pose proof (set_meta_eq q md key value Hmd) as Heq.
  unfold set_meta in Heq. rewrite Hmd in Heq. rewrite Heq in H.
  injection H as <-. split; [now exists md|].
  cbn [metadata set_metadata new_tags]. rewrite dict_set_keys.
  destruct (dict_mem md key) eqn:E.
  - apply dict_mem_In in E. apply existsb_str_eqb_In in E. rewrite E.
    now rewrite app_nil_r.
  - destruct (existsb (str_eqb key) (map fst md)) eqn:E'; [|reflexivity].
    apply existsb_str_eqb_In in E'. apply dict_mem_In in E'. congruence.
Qed.

Lemma new_tags_app (seen a b : list str) :
  new_tags seen (a ++ b)
  = new_tags seen a ++ new_tags (seen ++ new_tags seen a) b.
Proof.
  revert seen. induction a as [|t a IH]; intros seen; simpl.
  - now rewrite app_nil_r.
  - destruct (existsb (str_eqb t) seen); [apply IH|].
    simpl. rewrite IH. now rewrite <- app_assoc.
Qed.

Lemma for_each_add_meta_tags (metas : list str) :
  Forall (fun m => has_char equals_sign m = true) metas ->
  forall q q',
  for_each add_meta metas q = Ok q' ->
  meta_tags q'
  = meta_tags q ++ new_tags (meta_tags q) (map meta_tag_of metas).
Proof.
  induction 1 as [|m metas Hm Hrest IH]; intros q q' H.
  - simpl in H. injection H as <-. simpl. now rewrite app_nil_r.
  - cbn [for_each] in H.
    rewrite (add_meta_with_equals q m Hm) in H.
    destruct (set_meta q (meta_tag_of m) (meta_value_of m))
      as [q1|e] eqn:E; [|discriminate].
    cbn [bind] in H.
    destruct (meta_tags_set_meta _ _ _ _ E) as [_ Ht].
    rewrite (IH q1 q' H), Ht, <- app_assoc. f_equal.
    change (map meta_tag_of (m :: metas))
      with ([meta_tag_of m] ++ map meta_tag_of metas).
    now rewrite new_tags_app.
Qed.

(** X3: the loop over the lines of a Metadata section keeps the tags in
    the order in which they first occur: the tags of the record afterwards
    are those it had, followed by the tags of the lines that are new, each
    once, in the order of their first line. *)
Theorem metadata_tags_in_first_line_order (question : Question) (field : str)
    (q' : Question) :
  first_line field = $"Metadata" ->
  Forall (fun m => has_char equals_sign m = true)
         (rest_lines (rstrip_by is_nl field)) ->
  parse_field question field = Ok q' ->
  meta_tags q'
  = meta_tags question
    ++ new_tags (meta_tags question)
                (map meta_tag_of (rest_lines (rstrip_by is_nl field))).
Proof.
  intros Hname Hall. rewrite (parse_field_metadata question field Hname).
  now apply for_each_add_meta_tags.
Qed.

Lemma metadata_tags_in_first_line_order_witness :
  exists q',
    parse_field new_question
      (text_lines [$"Metadata"; $"b=1"; $"a=2"; $"b=3"]) = Ok q'
    /\ meta_tags q' = [$"b"; $"a"].
Proof.
  destruct (parse_field new_question
              (text_lines [$"Metadata"; $"b=1"; $"a=2"; $"b=3"]))
    as [q'|e] eqn:E; [|vm_compute in E; discriminate].
  exists q'. split; [reflexivity|].
  rewrite (metadata_tags_in_first_line_order new_question
             (text_lines [$"Metadata"; $"b=1"; $"a=2"; $"b=3"]) q'
             eq_refl);
    [reflexivity| |exact E].
  vm_compute. repeat constructor.
Defined.

(** ** The pipeline drivers, continued *)

Lemma map_result_raise_iff {A B : Type} (f : A -> result B) (xs : list A)
    (e : exn) :
  map_result f xs = Raise e <->
  exists pre x post,
    xs = pre ++ x :: post
    /\ Forall (fun y => exists b, f y = Ok b) pre
    /\ f x = Raise e.
Proof.
  induction xs as [|y xs IH]; simpl.
  - split; [discriminate|]. intros [pre [x [post [H _]]]].
    now destruct pre.
  - destruct (f y) as [b|e'] eqn:Ey; simpl.
    + destruct (map_result f xs) as [bs|e''] eqn:Em; simpl.
      * split; [discriminate|].
        intros [pre [x [post [Hxs [Hpre Hx]]]]].
        destruct pre as [|p pre]; simpl in Hxs; injection Hxs as -> ->.
        -- congruence.
        -- inversion Hpre; subst.
           assert (@Ok (list B) bs = Raise e); [|discriminate].
           apply IH. now exists pre, x, post.
      * split.
        -- intros H. injection H as ->.
           destruct (proj1 IH eq_refl) as [pre [x [post [-> [Hpre Hx]]]]].
           exists (y :: pre), x, post. repeat split; [|assumption].
           constructor; [now exists b|assumption].
        -- intros [pre [x [post [Hxs [Hpre Hx]]]]].
           destruct pre as [|p pre]; simpl in Hxs; injection Hxs as -> ->.
           ++ congruence.
           ++ inversion Hpre; subst. apply IH. now exists pre, x, post.
    + split.
      * intros H. injection H as ->.
        exists [], y, xs. repeat split; [constructor|assumption].
      * intros [pre [x [post [Hxs [Hpre Hx]]]]].
        destruct pre as [|p pre]; simpl in Hxs; injection Hxs as -> ->.
        -- congruence.
        -- inversion Hpre as [|? ? [b Hb] _]; subst. congruence.
Qed.

(** X4: [quiz_md_to_json] raises exactly the exception of the first block
    that does not convert: it raises [e] if and only if some block raises
    [e] and every block before it converts. *)
Theorem quiz_md_to_json_first_failure (json_dumps : Question -> str)
    (file_content : str) (e : exn) :
  quiz_md_to_json json_dumps file_content = Raise e <->
  exists pre block post,
    split [nl; nl; nl] file_content = pre ++ block :: post
    /\ Forall (fun b => exists j, md_to_json json_dumps b = Ok j) pre
    /\ md_to_json json_dumps block = Raise e.
Proof.
  rewrite <- map_result_raise_iff. unfold quiz_md_to_json.
  destruct (map_result (md_to_json json_dumps)
              (split [nl; nl; nl] file_content)) as [js|e']; simpl.
  - split; discriminate.
  - split; intros H; injection H as ->; reflexivity.
Qed.

Lemma quiz_md_to_json_first_failure_witness :
  split [nl; nl; nl] bad_blocks_document
  = [question_block $"A"] ++ $"oops" :: [$"# no sections"]
  /\ quiz_md_to_json name bad_blocks_document = Raise (MissingTitle $"oops").
Proof.
  split; [reflexivity|].
  apply (proj2 (quiz_md_to_json_first_failure name bad_blocks_document
                  (MissingTitle $"oops"))).
  exists [question_block $"A"], $"oops", [$"# no sections"].
  split; [reflexivity|]. split; [|reflexivity].
  constructor; [|constructor]. eexists. vm_compute. reflexivity.
Defined.

Lemma blocks_end (ls : list str) :
  ls <> [] -> exists z, blocks ls = z ++ [nl; nl].
Proof.
  intros H. destruct (exists_last H) as [ls' [l ->]].
  exists (blocks ls' ++ l). rewrite blocks_app, blocks_cons.
  change (blocks []) with (@nil ascii). now rewrite <- app_assoc.
Qed.

Lemma serialised_end (str_of_list : list str -> str) (r : Question) :
  exists y, serialised str_of_list r = y ++ [nl; nl; nl].
Proof.
  unfold serialised.
  destruct (blocks_end (body_lines str_of_list r)) as [z Hz].
  { unfold body_lines, head_lines. discriminate. }
  rewrite Hz. exists (($"# " ++ name r) ++ nl :: nl :: z).
  repeat (rewrite <- app_assoc || rewrite <- app_comm_cons). reflexivity.
Qed.

(** X5: on records that have the fields of the data model,
    [quiz_json_to_md] never raises, with or without feedback and metadata
    ([get_meta] is called only when the metadata is there): it returns one
    text per record, in order, each being the title line and the lines of
    the record followed by blank lines, and each ending in three
    newlines. *)
Theorem quiz_json_to_md_total (str_of_list : list str -> str)
    (json_arr : list Question) :
  quiz_json_to_md str_of_list json_arr
  = Ok (map (serialised str_of_list) json_arr)
  /\ Forall (fun md_q => exists y, md_q = y ++ [nl; nl; nl])
            (map (serialised str_of_list) json_arr).
Proof.
  split.
  - unfold quiz_json_to_md. apply map_result_Forall2.
    induction json_arr as [|r rs IH]; simpl; constructor; [|assumption].
    apply json_to_md_eq.
  - apply Forall_map. apply Forall_forall. intros r _.
    apply serialised_end.
Qed.

(** ** The validator and the parser, continued *)

Lemma before_char_prefix (c : ascii) (s : str) :
  exists r, s = before_char c s ++ r.
Proof.
  induction s as [|d s [r IH]]; simpl.
  - now exists [].
  - destruct (Ascii.eqb c d).
    + now exists (d :: s).
    + exists r. simpl. now f_equal.
Qed.

Lemma first_line_before (s : str) : first_line s = before_char nl s.
Proof. unfold first_line. now rewrite split_char. Qed.

Lemma first_line_startswith (field p : str) :
  first_line field = p -> startswith p field = true.
Proof.
  intros <-. rewrite first_line_before.
  destruct (before_char_prefix nl field) as [r Hr].
  rewrite Hr at 2. apply startswith_app.
Qed.

(** The answer lines the validator counts, on a normalised text with a
    section named [Question Answers]. *)
Lemma validator_answer_lines (md_q : str) :
  In $"Question Answers" (section_names (normalise md_q)) ->
  exists field rest n,
    filter (startswith $"Question Answers") (split $"## " (normalise md_q))
    = field :: rest
    /\ count_correct (rest_lines (rstrip_by is_nl field)) = Ok n.
Proof.
  intros Hin. unfold section_names in Hin.
  apply in_map_iff in Hin as [f [Hf Hin]].
  assert (Hf' : In f (split $"## " (normalise md_q))).
  { destruct (split $"## " (normalise md_q)); [destruct Hin|now right]. }
  assert (Hfilter : In f (filter (startswith $"Question Answers")
                                 (split $"## " (normalise md_q)))).
  { apply filter_In. split; [assumption|now apply first_line_startswith]. }
  destruct (filter (startswith $"Question Answers")
                   (split $"## " (normalise md_q))) as [|g rest] eqn:E;
    [destruct Hfilter|].
  assert (Hg : In g (split $"## " (normalise md_q))).
  { assert (H : In g (g :: rest)) by now left.
    rewrite <- E in H. now apply filter_In in H as [H _]. }
  destruct (count_correct_total _ (section_lines_nonempty md_q g Hg))
    as [n Hn].
  now exists g, rest, n.
Qed.

Lemma check_md_q_normalised (md_q : str) :
  match check_md_q (normalise md_q) with
  | Ok _ =>
      startswith $"# " (first_line (normalise md_q)) = true
      /\ In $"Question Text" (section_names (normalise md_q))
      /\ In $"Question Answers" (section_names (normalise md_q))
  | Raise e =>
      e = MissingTitle (first_line (normalise md_q))
      \/ e = MissingRequiredSection
               (slice_from 2 (first_line (normalise md_q)))
      \/ e = NoCorrectAnswer (slice_from 2 (first_line (normalise md_q)))
  end.
Proof.
  unfold check_md_q.
  destruct (startswith $"# " (first_line (normalise md_q))) eqn:Et;
    [|now left].
  change (negb true) with false. cbv iota.
  fold (section_names (normalise md_q)).
  destruct (existsb (str_eqb $"Question Text")
                    (section_names (normalise md_q))) eqn:E1;
    [|right; now left].
  destruct (existsb (str_eqb $"Question Answers")
                    (section_names (normalise md_q))) eqn:E2;
    [|right; now left].
  change (negb true || negb true) with false. cbv iota.
  apply existsb_str_eqb_In in E1, E2.
  destruct (validator_answer_lines md_q E2) as [field [rest [n [Hf Hn]]]].
  rewrite Hf. cbn [map]. unfold list_index. cbn [nth_error bind].
  rewrite Hn. cbn [bind].
  destruct n as [|n]; [right; right; reflexivity|].
  now repeat split.
Qed.

(** X6: on the text [md_to_json] hands it, the validator never fails on an
    index: it returns, or exits with one of its three messages; and when it
    returns, the first line begins with the title marker and both required
    section names are present. *)
Theorem check_md_q_outcomes (md_q : str) :
  (check_md_q (normalise md_q) = Ok tt
   /\ startswith $"# " (first_line (normalise md_q)) = true
   /\ In $"Question Text" (section_names (normalise md_q))
   /\ In $"Question Answers" (section_names (normalise md_q)))
  \/ check_md_q (normalise md_q)
     = Raise (MissingTitle (first_line (normalise md_q)))
  \/ check_md_q (normalise md_q)
     = Raise (MissingRequiredSection
                (slice_from 2 (first_line (normalise md_q))))
  \/ check_md_q (normalise md_q)
     = Raise (NoCorrectAnswer (slice_from 2 (first_line (normalise md_q)))).
Proof.
  pose proof (check_md_q_normalised md_q) as H.
  destruct (check_md_q (normalise md_q)) as [u|e].
  - left. destruct u. now split.
  - destruct H as [ -> | [ -> | -> ] ]; [right; left|right; right; left|
                                  right; right; right]; reflexivity.
Qed.

Lemma for_each_raise {A S : Type} (P : S -> Prop)
    (body : S -> A -> result S) (xs : list A) (e : exn) :
  (forall st x st', P st -> body st x = Ok st' -> P st') ->
  forall st,
  P st -> for_each body xs st = Raise e ->
  exists x st', In x xs /\ P st' /\ body st' x = Raise e.
Proof.
  intros Hbody. induction xs as [|x xs IH]; intros st HP H; simpl in H;
    [discriminate|].
  destruct (body st x) as [st1|e1] eqn:E; simpl in H.
  - destruct (IH st1 (Hbody _ _ _ HP E) H) as [y [st' [Hy [HP' Hb]]]].
    exists y, st'. repeat split; [now right|assumption|assumption].
  - injection H as ->. exists x, st. repeat split; [now left|assumption|].
    assumption.
Qed.

Lemma Forall_or_Exists_bool {A : Type} (f : A -> bool) (l : list A) :
  Forall (fun x => f x = true) l \/ Exists (fun x => f x = false) l.
Proof.
  induction l as [|x l [IH|IH]].
  - left. constructor.
  - destruct (f x) eqn:E; [left; now constructor|right; now left].
  - right. now right.
Qed.

Lemma set_meta_feedback (q q' : Question) (key value : str) :
  set_meta q key value = Ok q' -> feedback q' = feedback q.
Proof.
  unfold set_meta. destruct (metadata q) as [md|]; [|discriminate].
  destruct (dict_get _ key); [|discriminate].
  intros H. now injection H as <-.
Qed.

Lemma add_meta_shape (nm : str) (q q' : Question) (meta : str) :
  shape_kept nm q -> add_meta q meta = Ok q' -> shape_kept nm q'.
Proof.
  intros [Hn [Hf Hm]]. unfold add_meta.
  destruct (list_index (split $"=" meta) 0) as [tag|e]; simpl; [|discriminate].
  destruct (list_index (split $"=" meta) 1) as [value|e]; simpl;
    [|discriminate].
  intros H. pose proof (set_meta_feedback _ _ _ _ H) as Hfb.
  apply set_meta_keeps_all in H. destruct H as [K1 [_ [_ K4]]].
  repeat split; [congruence| |assumption].
  destruct Hf as [fb Hf]. exists fb. congruence.
Qed.

Lemma parse_field_shape (nm : str) (q q' : Question) (field : str) :
  shape_kept nm q -> parse_field q field = Ok q' -> shape_kept nm q'.
Proof.
  intros Hs. pose proof Hs as [Hn [[fb Hf] [md Hm]]]. unfold parse_field.
  destruct (str_eqb (first_line field) $"Question Text").
  { intros H. injection H as <-. repeat split; eauto. }
  destruct (str_eqb (first_line field) $"Question Answers").
  { destruct (count_correct _) as [n|e]; simpl; [|discriminate].
    destruct (one_over n) as [g|e]; simpl; [|discriminate].
    apply (for_each_invariant (shape_kept nm) (add_answer g)).
    - intros st x st' [S1 [[f S2] [d S3]]] Hx. apply add_answer_keeps in Hx.
      destruct Hx as (K1 & _ & K3 & K4 & _).
      repeat split; [congruence|exists f; congruence|exists d; congruence].
    - repeat split; eauto. }
  destruct (str_eqb (first_line field) $"Feedback").
  { intros H. injection H as <-. repeat split; eauto.
    eexists. reflexivity. }
  destruct (str_eqb (first_line field) $"Metadata").
  { apply (for_each_invariant (shape_kept nm) add_meta); [|assumption].
    intros st x st'. apply add_meta_shape. }
  intros H. now injection H as <-.
Qed.

(** X7: in every record [md_to_json] builds, the name is the first line of
    the normalised block without its two-character title marker, and the
    feedback and the metadata are present. *)
Theorem md_to_json_dict_name_is_title (md_q : str) (q : Question) :
  md_to_json_dict md_q = Ok q ->
  first_line (normalise md_q) = $"# " ++ name q
  /\ (exists fb, feedback q = Some fb)
  /\ (exists md, metadata q = Some md).
Proof.
  unfold md_to_json_dict. intros H.
  pose proof (check_md_q_normalised md_q) as Hc.
  destruct (check_md_q (normalise md_q)) as [u|e]; [|discriminate].
  destruct Hc as [Ht _]. cbn [bind] in H.
  assert (Hs : shape_kept (slice_from 2 (first_line (normalise md_q))) q).
  { revert H. apply (for_each_invariant _ parse_field).
    - intros st x st'. apply parse_field_shape.
    - repeat split; eexists; reflexivity. }
  destruct Hs as [Hn [Hf Hm]]. repeat split; try assumption.
  rewrite Hn. apply startswith_inv in Ht. exact Ht.
Qed.

Lemma md_to_json_dict_name_is_title_witness :
  exists q,
    md_to_json_dict (question_block $"A") = Ok q
    /\ first_line (normalise (question_block $"A")) = $"# " ++ name q.
Proof.
  destruct (md_to_json_dict (question_block $"A")) as [q|e] eqn:E;
    [|vm_compute in E; discriminate].
  exists q. split; [reflexivity|].
  exact (proj1 (md_to_json_dict_name_is_title (question_block $"A") q E)).
Defined.

Lemma parse_field_raises (md_q field : str) (q : Question) (nm : str)
    (e : exn) :
  In field (split $"## " (normalise md_q)) ->
  shape_kept nm q ->
  parse_field q field = Raise e ->
  (e = ZeroDivisionError
   /\ first_line field = $"Question Answers"
   /\ count_correct (rest_lines (rstrip_by is_nl field)) = Ok 0)
  \/ (e = IndexError
      /\ first_line field = $"Metadata"
      /\ Exists (fun m => has_char equals_sign m = false)
                (rest_lines (rstrip_by is_nl field))).
Proof.
  intros Hin [_ [_ [md Hmd]]]. unfold parse_field.
  destruct (str_eqb (first_line field) $"Question Text"); [discriminate|].
  destruct (str_eqb (first_line field) $"Question Answers") eqn:Ea.
  { apply str_eqb_eq in Ea.
    destruct (count_correct_total _ (section_lines_nonempty md_q field Hin))
      as [n Hn].
    rewrite Hn. cbn [bind correct_answers_no set_correct_answers_no].
    destruct n as [|n].
    - simpl. intros H. injection H as <-. left. now repeat split.
    - cbn [one_over bind].
      now rewrite (for_each_add_answer_ok _ _ _ (S n) Hn). }
  destruct (str_eqb (first_line field) $"Feedback"); [discriminate|].
  destruct (str_eqb (first_line field) $"Metadata") eqn:Em; [|discriminate].
  apply str_eqb_eq in Em.
  destruct (Forall_or_Exists_bool (has_char equals_sign)
              (rest_lines (rstrip_by is_nl field))) as [Hall|Hex].
  - destruct (for_each_add_meta _ q md Hmd Hall) as [q' [Hq' _]].
    now rewrite Hq'.
  - rewrite (for_each_add_meta_raises _ q md Hmd Hex).
    intros H. injection H as <-. right. now repeat split.
Qed.

(** X8: the exceptions of [md_to_json].  When it raises, the exception is
    one of the validator's three exits, or [ZeroDivisionError], and then a
    section named [Question Answers] has no line beginning with [+], or
    [IndexError], and then a Metadata section has a line without an equals
    sign.  It never raises [KeyError], and reading [ans[0]] never fails. *)
Theorem md_to_json_dict_exceptions (md_q : str) (e : exn) :
  md_to_json_dict md_q = Raise e ->
  e = MissingTitle (first_line (normalise md_q))
  \/ e = MissingRequiredSection (slice_from 2 (first_line (normalise md_q)))
  \/ e = NoCorrectAnswer (slice_from 2 (first_line (normalise md_q)))
  \/ (e = ZeroDivisionError
      /\ exists field,
           In field (split $"## " (normalise md_q))
           /\ first_line field = $"Question Answers"
           /\ count_correct (rest_lines (rstrip_by is_nl field)) = Ok 0)
  \/ (e = IndexError
      /\ exists field,
           In field (split $"## " (normalise md_q))
           /\ first_line field = $"Metadata"
           /\ Exists (fun m => has_char equals_sign m = false)
                     (rest_lines (rstrip_by is_nl field))).
Proof.
  unfold md_to_json_dict. intros H.
  pose proof (check_md_q_normalised md_q) as Hc.
  destruct (check_md_q (normalise md_q)) as [u|e'].
  - cbn [bind] in H.
    set (nm := slice_from 2 (first_line (normalise md_q))) in *.
    assert (H0 : shape_kept nm (set_name new_question nm))
      by (repeat split; eexists; reflexivity).
    destruct (for_each_raise (shape_kept nm) parse_field
                (split $"## " (normalise md_q)) e
                (fun st x st' => parse_field_shape nm st st' x)
                (set_name new_question nm) H0 H)
      as [field [st [Hin [Hst Hraise]]]].
    destruct (parse_field_raises md_q field st _ e Hin Hst Hraise)
      as [ [ -> [H1 H2] ] | [ -> [H1 H2] ] ].
    + right. right. right. left. split; [reflexivity|]. now exists field.
    + right. right. right. right. split; [reflexivity|]. now exists field.
  - simpl in H. injection H as <-.
    destruct Hc as [ -> | [ -> | -> ] ]; [left|right; left|right; right; left];
      reflexivity.
Qed.

Lemma md_to_json_dict_exceptions_witness :
  md_to_json_dict prefix_section_block = Raise ZeroDivisionError
  /\ exists field,
       In field (split $"## " (normalise prefix_section_block))
       /\ first_line field = $"Question Answers"
       /\ count_correct (rest_lines (rstrip_by is_nl field)) = Ok 0.
Proof.
  split; [reflexivity|].
  destruct (md_to_json_dict_exceptions prefix_section_block
              ZeroDivisionError eq_refl)
    as [H|[H|[H|[[_ H]|[H _]]]]];
    try (vm_compute in H; discriminate).
  exact H.
Defined.

(** ** White space and blank lines *)

Lemma md_to_json_dict_normalise (s s' : str) :
  normalise s = normalise s' -> md_to_json_dict s = md_to_json_dict s'.
Proof. intros H. unfold md_to_json_dict. now rewrite H. Qed.

Lemma collapse_newlines_unfold (c : ascii) (s : str) :
  collapse_newlines (c :: s)
  = if is_nl c && match s with d :: _ => is_nl d | [] => false end
    then collapse_newlines s
    else c :: collapse_newlines s.
Proof. reflexivity. Qed.

(** [re.sub] gives the same text with and without a newline next to
    another. *)
Lemma collapse_newlines_double (a r : str) :
  collapse_newlines (a ++ nl :: nl :: r) = collapse_newlines (a ++ nl :: r).
Proof.
  induction a as [|c a IH].
  - apply collapse_newlines_nl_nl.
  - change ((c :: a) ++ nl :: nl :: r) with (c :: a ++ nl :: nl :: r).
    change ((c :: a) ++ nl :: r) with (c :: a ++ nl :: r).
    rewrite !collapse_newlines_unfold, IH.
    now destruct a.
Qed.

Lemma normalise_double_newline (a b : str) :
  normalise (a ++ nl :: nl :: b) = normalise (a ++ nl :: b).
Proof.
  unfold normalise, rstrip.
  destruct (rstrip_by is_space b) as [|c r] eqn:E.
  - apply rstrip_by_nil in E.
    rewrite !rstrip_by_app_all; [reflexivity| |];
      repeat (constructor; [reflexivity|]); assumption.
  - replace (a ++ nl :: nl :: b) with ((a ++ [nl; nl]) ++ b)
      by now rewrite <- app_assoc.
    replace (a ++ nl :: b) with ((a ++ [nl]) ++ b)
      by now rewrite <- app_assoc.
    rewrite !rstrip_by_app_keep by (rewrite E; discriminate).
    rewrite <- !app_assoc. simpl app.
    now rewrite collapse_newlines_double.
Qed.

(** X9: [md_to_json] does not see white space at the end of the block, nor
    blank lines: it gives the same result when white space is appended to
    the block, and when a newline that follows a newline is removed. *)
Theorem md_to_json_dict_ignores_blank (s w a b : str) :
  Forall (fun c => is_space c = true) w ->
  md_to_json_dict (s ++ w) = md_to_json_dict s
  /\ md_to_json_dict (a ++ nl :: nl :: b) = md_to_json_dict (a ++ nl :: b).
Proof.
  intros Hw. split; apply md_to_json_dict_normalise.
  - unfold normalise, rstrip. now rewrite rstrip_by_app_all.
  - apply normalise_double_newline.
Qed.

Lemma md_to_json_dict_ignores_blank_witness :
  Forall (fun c => is_space c = true) [" "%char; nl]
  /\ md_to_json_dict (question_block $"A" ++ [" "%char; nl])
     = md_to_json_dict (question_block $"A")
  /\ md_to_json_dict ($"# A" ++ nl :: nl :: $"## Question Text")
     = md_to_json_dict ($"# A" ++ nl :: $"## Question Text").
Proof.
  assert (Hw : Forall (fun c => is_space c = true) [" "%char; nl])
    by (repeat constructor).
  split; [exact Hw|].
  exact (md_to_json_dict_ignores_blank (question_block $"A")
           [" "%char; nl] $"# A" $"## Question Text" Hw).
Defined.

(** ** Reading back what was written *)

Lemma occurs_app_r (sep x : str) :
  sep <> [] -> occurs sep (x ++ sep) = true.
Proof.
  intros Hne. induction x as [|c x IH].
  - destruct sep as [|a sep]; [congruence|].
    change (occurs (a :: sep) ([] ++ a :: sep))
      with (startswith (a :: sep) (a :: sep) || occurs (a :: sep) sep).
    rewrite <- (app_nil_r (a :: sep)) at 2. now rewrite startswith_app.
  - change (occurs sep ((c :: x) ++ sep))
      with (startswith sep (c :: x ++ sep) || occurs sep (x ++ sep)).
    rewrite IH. apply orb_true_r.
Qed.

Lemma join_head_prefix (sep p : str) (ps : list str) :
  exists y, join sep (p :: ps) = p ++ y.
Proof.
  destruct ps as [|p' ps].
  - exists []. simpl. now rewrite app_nil_r.
  - exists (sep ++ join sep (p' :: ps)). reflexivity.
Qed.

Lemma join_last_suffix (sep : str) (ps : list str) :
  exists pre, join sep ps = pre ++ last ps [].
Proof.
  induction ps as [|p ps [pre IH]].
  - now exists [].
  - destruct ps as [|p' ps].
    + now exists [].
    + rewrite join_cons by discriminate. rewrite IH.
      exists (p ++ sep ++ pre).
      change (last (p :: p' :: ps) []) with (last (p' :: ps) []).
      now rewrite <- !app_assoc.
Qed.

(** No piece of a split holds the separator. *)
Lemma split_pieces_free (sep s : str) :
  sep <> [] -> Forall (fun p => occurs sep p = false) (split sep s).
Proof.
  intros Hne.
  assert (H : forall n s, length s <= n ->
                Forall (fun p => occurs sep p = false) (split sep s)).
  { clear s. induction n as [|n IH]; intros s Hn.
    - destruct s; [|simpl in Hn; lia].
      repeat constructor. destruct sep; [congruence|reflexivity].
    - destruct s as [|c s].
      { repeat constructor. destruct sep; [congruence|reflexivity]. }
      destruct (startswith sep (c :: s)) eqn:E.
      + pose proof (startswith_inv _ _ E) as Eq. rewrite Eq.
        rewrite split_sep_app by assumption.
        constructor; [destruct sep; [congruence|reflexivity]|].
        apply IH. rewrite length_skipn.
        destruct sep; [congruence|]. simpl in *. lia.
      + rewrite split_cons_nomatch by assumption.
        assert (Hs : Forall (fun p => occurs sep p = false) (split sep s))
          by (apply IH; simpl in Hn; lia).
        pose proof (join_split sep s Hne) as Hj.
        destruct (split sep s) as [|p0 ps] eqn:Es;
          [exfalso; exact (split_nonempty _ _ Es)|].
        apply Forall_cons_iff in Hs. destruct Hs as [Hp0 Hps].
        cbn [cons_head]. constructor; [|assumption].
        change (occurs sep (c :: p0))
          with (startswith sep (c :: p0) || occurs sep p0).
        rewrite Hp0, orb_false_r.
        destruct (startswith sep (c :: p0)) eqn:E0; [|reflexivity].
        destruct (join_head_prefix sep p0 ps) as [y Hy].
        rewrite Hy in Hj.
        pose proof (startswith_inv _ _ E0) as Eq0.
        assert (Hcs : c :: s = sep ++ skipn (length sep) (c :: p0) ++ y).
        { rewrite app_assoc, <- Eq0, <- Hj. reflexivity. }
        rewrite Hcs, startswith_app in E. discriminate. }
  now apply (H (length s)).
Qed.

(** A text that ends in three newlines has a last block of at most two
    newlines. *)
Lemma last_block_blank (y : str) :
  let p := last (split [nl; nl; nl] (y ++ [nl; nl; nl])) [] in
  In p (split [nl; nl; nl] (y ++ [nl; nl; nl]))
  /\ (p = [] \/ p = [nl] \/ p = [nl; nl]).
Proof.
  intros p.
  assert (Hne : split [nl; nl; nl] (y ++ [nl; nl; nl]) <> [])
    by apply split_nonempty.
  assert (Hin : In p (split [nl; nl; nl] (y ++ [nl; nl; nl]))).
  { unfold p. destruct (exists_last Hne) as [l' [a ->]].
    rewrite last_last. apply in_or_app. right. now left. }
  split; [exact Hin|].
  pose proof (split_pieces_free [nl; nl; nl] (y ++ [nl; nl; nl])
                ltac:(discriminate)) as Hfree.
  rewrite Forall_forall in Hfree. specialize (Hfree p Hin).
  destruct (join_last_suffix [nl; nl; nl]
              (split [nl; nl; nl] (y ++ [nl; nl; nl]))) as [pre Hpre].
  rewrite join_split in Hpre by discriminate. fold p in Hpre.
  apply (f_equal (@rev ascii)) in Hpre.
  rewrite !rev_app_distr in Hpre. simpl in Hpre.
  rewrite <- (rev_involutive p).
  destruct (rev p) as [|c1 [|c2 [|c3 r]]] eqn:Er.
  - now left.
  - right. left. simpl in Hpre. injection Hpre as <- _. reflexivity.
  - right. right. simpl in Hpre. injection Hpre as <- <- _. reflexivity.
  - exfalso. simpl in Hpre. injection Hpre as <- <- <- _.
    assert (Hp : p = rev r ++ [nl; nl; nl]).
    { rewrite <- (rev_involutive p), Er. simpl.
      now rewrite <- !app_assoc. }
    rewrite Hp, occurs_app_r in Hfree by discriminate. discriminate.
Qed.

(** X10: [quiz_md_to_json] cannot read back a text written by
    [json_to_md]: the text ends in three newlines, which is the block
    separator, so its last block is blank and has no title, and the
    conversion raises, whatever the record. *)
Theorem quiz_md_to_json_of_json_to_md (json_dumps : Question -> str)
    (str_of_list : list str -> str) (r : Question) :
  exists md_q e,
    json_to_md str_of_list r = Ok md_q
    /\ quiz_md_to_json json_dumps md_q = Raise e.
Proof.
  exists (serialised str_of_list r).
  destruct (serialised_end str_of_list r) as [y Hy].
  destruct (last_block_blank y) as [Hin Hp]. rewrite <- Hy in Hin, Hp.
  assert (Hraise :
    md_to_json json_dumps
      (last (split [nl; nl; nl] (serialised str_of_list r)) [])
    = Raise (MissingTitle [])).
  { destruct Hp as [-> |[-> | ->]]; reflexivity. }
  destruct (map_result_raises (md_to_json json_dumps) _ _ _ Hin Hraise)
    as [e He].
  exists e. split; [apply json_to_md_eq|].
  unfold quiz_md_to_json. now rewrite He.
Qed.

(** ** The statement and the feedback *)

Lemma set_meta_statement (q q' : Question) (key value : str) :
  set_meta q key value = Ok q' -> statement q' = statement q.
Proof.
  unfold set_meta. destruct (metadata q) as [md|]; [|discriminate].
  destruct (dict_get _ key); [|discriminate].
  intros H. now injection H as <-.
Qed.

Lemma add_meta_statement_feedback (q q' : Question) (meta : str) :
  add_meta q meta = Ok q' ->
  statement q' = statement q /\ feedback q' = feedback q.
Proof.
  unfold add_meta.
  destruct (list_index (split $"=" meta) 0) as [tag|e]; simpl; [|discriminate].
  destruct (list_index (split $"=" meta) 1) as [value|e]; simpl;
    [|discriminate].
  intros H. split; [now apply set_meta_statement in H|].
  now apply set_meta_feedback in H.
Qed.

(** Only a section named [Question Text] touches the statement. *)
Lemma parse_field_keeps_statement (q q' : Question) (field : str) :
  first_line field <> $"Question Text" ->
  parse_field q field = Ok q' -> statement q' = statement q.
Proof.
  intros Hne. unfold parse_field.
  destruct (str_eqb (first_line field) $"Question Text") eqn:E;
    [apply str_eqb_eq in E; contradiction|].
  destruct (str_eqb (first_line field) $"Question Answers").
  { destruct (count_correct _) as [n|e]; simpl; [|discriminate].
    destruct (one_over n) as [g|e]; simpl; [|discriminate].
    apply (for_each_invariant (fun st => statement st = statement q)
             (add_answer g)); [|reflexivity].
    intros st x st' Hst Hx. apply add_answer_keeps in Hx.
    destruct Hx as (_ & K & _). congruence. }
  destruct (str_eqb (first_line field) $"Feedback").
  { intros H. now injection H as <-. }
  destruct (str_eqb (first_line field) $"Metadata").
  { apply (for_each_invariant (fun st => statement st = statement q)
             add_meta); [|reflexivity].
    intros st x st' Hst Hx. apply add_meta_statement_feedback in Hx.
    destruct Hx as [K _]. congruence. }
  intros H. now injection H as <-.
Qed.

(** Only a section named [Feedback] touches the feedback. *)
Lemma parse_field_keeps_feedback (q q' : Question) (field : str) :
  first_line field <> $"Feedback" ->
  parse_field q field = Ok q' -> feedback q' = feedback q.
Proof.
  intros Hne. unfold parse_field.
  destruct (str_eqb (first_line field) $"Question Text").
  { intros H. now injection H as <-. }
  destruct (str_eqb (first_line field) $"Question Answers").
  { destruct (count_correct _) as [n|e]; simpl; [|discriminate].
    destruct (one_over n) as [g|e]; simpl; [|discriminate].
    apply (for_each_invariant (fun st => feedback st = feedback q)
             (add_answer g)); [|reflexivity].
    intros st x st' Hst Hx. apply add_answer_keeps in Hx.
    destruct Hx as (_ & _ & K & _). congruence. }
  destruct (str_eqb (first_line field) $"Feedback") eqn:E;
    [apply str_eqb_eq in E; contradiction|].
  destruct (str_eqb (first_line field) $"Metadata").
  { apply (for_each_invariant (fun st => feedback st = feedback q)
             add_meta); [|reflexivity].
    intros st x st' Hst Hx. apply add_meta_statement_feedback in Hx.
    destruct Hx as [_ K]. congruence. }
  intros H. now injection H as <-.
Qed.

Lemma parse_field_sets_statement (q q' : Question) (field : str) :
  first_line field = $"Question Text" ->
  parse_field q field = Ok q' ->
  statement q' = join [nl] (rest_lines field).
Proof.
  intros Hf H. rewrite parse_field_text in H by assumption.
  now injection H as <-.
Qed.

Lemma parse_field_sets_feedback (q q' : Question) (field : str) :
  first_line field = $"Feedback" ->
  parse_field q field = Ok q' ->
  feedback q' = Some (join [nl] (rest_lines field)).
Proof.
  intros Hf H. rewrite parse_field_feedback in H by assumption.
  now injection H as <-.
Qed.

(** What the loop over the sections leaves in a part of the record that
    only the sections named [nm] write: the value of the last of them, or
    the initial value when there is none. *)
Lemma for_each_last_section {T : Type} (proj : Question -> T) (nm : str)
    (R : str -> T -> Prop) :
  (forall q q' f, first_line f <> nm -> parse_field q f = Ok q' ->
                  proj q' = proj q) ->
  (forall q q' f, first_line f = nm -> parse_field q f = Ok q' ->
                  R f (proj q')) ->
  forall fs q0 q,
  for_each parse_field fs q0 = Ok q ->
  (Forall (fun f => first_line f <> nm) fs /\ proj q = proj q0)
  \/ (exists field, last_section nm fs field /\ R field (proj q)).
Proof.
  intros Hother Hnm. induction fs as [|f fs IH]; intros q0 q H.
  - left. simpl in H. injection H as <-. now split.
  - cbn [for_each] in H.
    destruct (parse_field q0 f) as [q1|e] eqn:E; [|discriminate].
    cbn [bind] in H.
    destruct (IH q1 q H) as [[Hall Hq]|[field [[pre [post [Hfs [Hf Hp]]]] Hq]]].
    + destruct (list_eq_dec ascii_dec (first_line f) nm) as [Heq|Hneq].
      * right. exists f. split; [now exists [], fs|].
        rewrite Hq. now apply (Hnm q0 q1 f).
      * left. split; [now constructor|].
        rewrite Hq. now apply (Hother q0 q1 f).
    + right. exists field. split; [|assumption].
      exists (f :: pre), post. rewrite Hfs. now repeat split.
Qed.

(** X11: in the record [md_to_json] builds, the statement is the text after
    the first line of the last section named [Question Text], and the
    feedback is the text after the first line of the last section named
    [Feedback], or the empty string when there is none.  Both are taken as
    they stand in the section, with the newline that precedes the next
    heading. *)
Theorem text_of_last_section (md_q : str) (q : Question) :
  md_to_json_dict md_q = Ok q ->
  (exists field,
     last_section $"Question Text" (split $"## " (normalise md_q)) field
     /\ statement q = join [nl] (rest_lines field))
  /\ ((Forall (fun f => first_line f <> $"Feedback")
              (split $"## " (normalise md_q))
       /\ feedback q = Some [])
      \/ (exists field,
            last_section $"Feedback" (split $"## " (normalise md_q)) field
            /\ feedback q = Some (join [nl] (rest_lines field)))).
Proof.
  unfold md_to_json_dict. intros H.
  pose proof (check_md_q_normalised md_q) as Hc.
  destruct (check_md_q (normalise md_q)) as [u|e]; [|discriminate].
  destruct Hc as [_ [Hqt _]]. cbn [bind] in H.
  split.
  - destruct (for_each_last_section statement $"Question Text"
                (fun f v => v = join [nl] (rest_lines f))
                parse_field_keeps_statement parse_field_sets_statement
                _ _ _ H) as [[Hall _]|Hlast]; [exfalso|exact Hlast].
    unfold section_names in Hqt. apply in_map_iff in Hqt.
    destruct Hqt as [f [Hf Hin]].
    rewrite Forall_forall in Hall. apply (Hall f); [|exact Hf].
    destruct (split $"## " (normalise md_q)); [destruct Hin|].
    now right.
  - destruct (for_each_last_section feedback $"Feedback"
                (fun f v => v = Some (join [nl] (rest_lines f)))
                parse_field_keeps_feedback parse_field_sets_feedback
                _ _ _ H) as [[Hall Hq]|Hlast]; [left|right; exact Hlast].
    split; [exact Hall|exact Hq].
Qed.

Lemma text_of_last_section_witness :
  exists q,
    md_to_json_dict (question_block $"A") = Ok q
    /\ (exists field,
          last_section $"Question Text"
            (split $"## " (normalise (question_block $"A"))) field
          /\ statement q = join [nl] (rest_lines field)).
Proof.
  destruct (md_to_json_dict (question_block $"A")) as [q|e] eqn:E;
    [|vm_compute in E; discriminate].
  exists q. split; [reflexivity|].
  exact (proj1 (text_of_last_section (question_block $"A") q E)).
Defined.

(** The sections of a normalised question, as [split] cuts them. *)
Lemma normal_text_fields (nm : str) (tlines alines : list str)
    (secs : list (str * list str)) :
  single_line nm -> marker_free nm ->
  Forall content_line tlines -> Forall content_line alines ->
  Forall section_ok secs ->
  exists tf,
    split $"## " (normal_text nm tlines alines secs)
    = (($"# " ++ nm) ++ [nl])
      :: (($"Question Text" ++ nl_lines tlines) ++ [nl])
      :: (($"Question Answers" ++ nl_lines alines) ++ next_suffix secs)
      :: tf
    /\ Forall tail_ok tf.
Proof.
  intros Hnm1 Hnm2 Ht Ha Hsecs.
  set (all := ($"Question Text", tlines) :: ($"Question Answers", alines)
              :: secs).
  assert (Hall : Forall (fun s => marker_free (fst s) /\ single_line (fst s)
                                  /\ Forall content_line (snd s)) all).
  { repeat constructor; try assumption.
    eapply Forall_impl; [|exact Hsecs]. apply section_name_ok. }
  destruct (sections_lines_ok all Hall) as [Hok Hsingle].
  pose proof (marker_free_title nm Hnm2) as Htitle2.
  destruct (fields_from_tail secs ($"Question Answers" ++ nl_lines alines)
              Hsecs) as [tf [Htf [Htail _]]].
  exists tf. split; [|exact Htail].
  unfold normal_text. fold all.
  rewrite split_fields by assumption.
  rewrite fields_of_sections
    by (eapply Forall_impl; [|exact Hall]; now intros s [_ [_ H]]).
  unfold all. cbn [fields_from fst snd]. rewrite Htf. reflexivity.
Qed.

Lemma tail_ok_not_text (f : str) :
  tail_ok f -> first_line f <> $"Question Text".
Proof. intros [H|[H _]]; rewrite H; discriminate. Qed.

Lemma for_each_keeps_statement (fs : list str) :
  Forall (fun f => first_line f <> $"Question Text") fs ->
  forall q q', for_each parse_field fs q = Ok q' -> statement q' = statement q.
Proof.
  induction 1 as [|f fs Hf Hfs IH]; intros q q' H; simpl in H.
  - now injection H as <-.
  - destruct (parse_field q f) as [q1|e] eqn:E; [|discriminate].
    cbn [bind] in H. rewrite (IH _ _ H).
    now apply (parse_field_keeps_statement q q1 f).
Qed.

(** X12: a well-formed record is written and read back with its statement
    followed by a newline, unless the statement is empty: the text section
    is read with the newline that ends it. *)
Theorem statement_read_back (str_of_list : list str -> str) (r : Question) :
  well_formed str_of_list r ->
  exists md_q q,
    json_to_md str_of_list r = Ok md_q
    /\ md_to_json_dict md_q = Ok q
    /\ statement q = match statement r with
                     | [] => []
                     | _ :: _ => statement r ++ [nl]
                     end.
Proof.
  intros W.
  destruct (tidy_body str_of_list r W)
    as [alines [secs [Htidy [Ha [Hsecs [Hcount _]]]]]].
  destruct (wf_name _ _ W) as [Hn1 Hn2].
  pose proof (filter_nonempty_content _ (wf_statement _ _ W)) as Ht.
  destruct (parse_normal_form (name r) (filter nonempty [statement r]) alines
              secs (correct_answers_no r) Hn1 Hn2 Ht Ha Hsecs
              Hcount (wf_correct _ _ W))
    as [q [Hcheck [Hfor _]]].
  assert (Hnorm :
    normalise (($"# " ++ name r) ++ nl :: nl
               :: blocks (body_lines str_of_list r) ++ [nl])
    = normal_text (name r) (filter nonempty [statement r]) alines secs).
  { unfold normal_text. rewrite <- Htidy.
    change ($"# " ++ name r) with ("#"%char :: " "%char :: name r).
    apply normalise_tidy.
    - apply single_line_cons. split; [reflexivity|].
      apply single_line_cons. now split.
    - now apply body_lines_single.
    - rewrite Htidy, sections_lines_cons. discriminate. }
  eexists. exists q.
  split; [apply json_to_md_eq|].
  split.
  { unfold md_to_json_dict. rewrite Hnorm, Hcheck. exact Hfor. }
  destruct (normal_text_fields (name r) (filter nonempty [statement r])
              alines secs Hn1 Hn2 Ht Ha Hsecs) as [tf [Hsplit Htail]].
  set (rest := (($"Question Answers" ++ nl_lines alines) ++ next_suffix secs)
               :: tf) in Hsplit.
  assert (Hrest : Forall (fun f => first_line f <> $"Question Text") rest).
  { constructor.
    - destruct (section_field $"Question Answers" alines (next_suffix secs)
                  eq_refl ltac:(discriminate) Ha (next_suffix_cases secs))
        as [H2 _].
      rewrite H2. discriminate.
    - eapply Forall_impl; [|exact Htail]. apply tail_ok_not_text. }
  clearbody rest.
  rewrite Hsplit in Hfor. cbn [for_each] in Hfor.
  assert (H0 : first_line (($"# " ++ name r) ++ [nl]) = $"# " ++ name r).
  { pose proof (first_line_nl_lines_nl ($"# " ++ name r) []
                  ltac:(apply single_line_app; now split) (Forall_nil _))
      as H.
    change (nl_lines []) with (@nil ascii) in H.
    now rewrite app_nil_r in H. }
  assert (Hlines : Forall single_line (filter nonempty [statement r]))
    by now apply content_lines_single.
  pose proof (first_line_nl_lines_nl $"Question Text" _ eq_refl Hlines) as H1.
  rewrite (parse_field_title _ _ (" "%char :: name r) H0) in Hfor.
  cbn [bind] in Hfor.
  rewrite (parse_field_text _ _ H1) in Hfor. cbn [bind] in Hfor.
  apply for_each_keeps_statement in Hfor.
  - rewrite Hfor. cbn [statement set_statement].
    replace (($"Question Text" ++ nl_lines (filter nonempty [statement r]))
             ++ [nl])
      with ($"Question Text"
            ++ nl_lines (filter nonempty [statement r] ++ [[]]))
      by (rewrite nl_lines_app, app_assoc; reflexivity).
    rewrite rest_lines_nl_lines;
      [|reflexivity|apply Forall_app; split; [assumption|now constructor]].
    destruct (statement r); reflexivity.
  - exact Hrest.
Qed.

Lemma statement_read_back_witness :
  well_formed no_list_text sample_record
  /\ exists md_q q,
       json_to_md no_list_text sample_record = Ok md_q
       /\ md_to_json_dict md_q = Ok q
       /\ statement q = $"S" ++ [nl].
Proof.
  split; [exact sample_record_well_formed|].
  exact (statement_read_back no_list_text sample_record
           sample_record_well_formed).
Defined.

(** ** The count of correct answers *)

(** Only a section named [Question Answers] touches the count. *)
Lemma parse_field_keeps_count (q q' : Question) (field : str) :
  first_line field <> $"Question Answers" ->
  parse_field q field = Ok q' ->
  correct_answers_no q' = correct_answers_no q.
Proof.
  intros Hne. unfold parse_field.
  destruct (str_eqb (first_line field) $"Question Text").
  { intros H. now injection H as <-. }
  destruct (str_eqb (first_line field) $"Question Answers") eqn:E;
    [apply str_eqb_eq in E; contradiction|].
  destruct (str_eqb (first_line field) $"Feedback").
  { intros H. now injection H as <-. }
  destruct (str_eqb (first_line field) $"Metadata").
  { apply (for_each_invariant
             (fun st => correct_answers_no st = correct_answers_no q)
             add_meta); [|reflexivity].
    intros st x st' Hst Hx. apply add_meta_keeps_all in Hx.
    destruct Hx as (_ & _ & K & _). congruence. }
  intros H. now injection H as <-.
Qed.

Lemma parse_field_sets_count (q q' : Question) (field : str) :
  first_line field = $"Question Answers" ->
  parse_field q field = Ok q' ->
  count_correct (rest_lines (rstrip_by is_nl field))
  = Ok (correct_answers_no q')
  /\ 1 <= correct_answers_no q'.
Proof.
  intros Hf H. rewrite parse_field_answers_eq in H by assumption.
  destruct (count_correct _) as [n|e]; [|discriminate]. cbn [bind] in H.
  destruct n as [|n]; [discriminate|]. cbn [one_over bind] in H.
  assert (Hn : correct_answers_no q' = S n).
  { revert H.
    apply (for_each_invariant (fun st => correct_answers_no st = S n)
             (add_answer _)); [|reflexivity].
    intros st x st' Hst Hx. apply add_answer_keeps in Hx.
    destruct Hx as (_ & _ & _ & _ & K). congruence. }
  rewrite Hn. split; [reflexivity|lia].
Qed.

(** X13: in every record [md_to_json] builds, [correct_answers_no] is the
    number of lines that begin with [+] in the last section named
    [Question Answers], and it is at least one. *)
Theorem correct_answers_no_of_last_section (md_q : str) (q : Question) :
  md_to_json_dict md_q = Ok q ->
  exists field,
    last_section $"Question Answers" (split $"## " (normalise md_q)) field
    /\ count_correct (rest_lines (rstrip_by is_nl field))
       = Ok (correct_answers_no q)
    /\ 1 <= correct_answers_no q.
Proof.
  unfold md_to_json_dict. intros H.
  pose proof (check_md_q_normalised md_q) as Hc.
  destruct (check_md_q (normalise md_q)) as [u|e]; [|discriminate].
  destruct Hc as [_ [_ Hqa]]. cbn [bind] in H.
  destruct (for_each_last_section correct_answers_no $"Question Answers"
              (fun f v =>
                 count_correct (rest_lines (rstrip_by is_nl f)) = Ok v
                 /\ 1 <= v)
              parse_field_keeps_count parse_field_sets_count
              _ _ _ H) as [[Hall _]|[field [Hlast [Hc Hn]]]].
  - exfalso. unfold section_names in Hqa. apply in_map_iff in Hqa.
    destruct Hqa as [f [Hf Hin]].
    rewrite Forall_forall in Hall. apply (Hall f); [|exact Hf].
    destruct (split $"## " (normalise md_q)); [destruct Hin|].
    now right.
  - now exists field.
Qed.

Lemma correct_answers_no_of_last_section_witness :
  exists q,
    md_to_json_dict (question_block $"A") = Ok q
    /\ 1 <= correct_answers_no q.
Proof.
  destruct (md_to_json_dict (question_block $"A")) as [q|e] eqn:E;
    [|vm_compute in E; discriminate].
  exists q. split; [reflexivity|].
  destruct (correct_answers_no_of_last_section (question_block $"A") q E)
    as [field [_ [_ H]]].
  exact H.
Defined.
